(** * pyserver: the multiplexed connection loop of [server.py]

    A shallow embedding of the function [server] of [src/server.py]: the
    readiness loop over [select.select], the per-connection outbound
    queues, the teardown paths and the drain on shutdown.

    The Python code mutates three local collections ([inputs], [outputs],
    [messages]) and talks to the operating system through socket calls.
    Here the collections are fields of an explicit [State], the socket calls
    are answered by an environment ([Tick]: what the poll, [accept], [recv],
    [getpeername] and [send] do during one iteration of the [while] loop),
    and every call leaves an [Event] in the state's [trace].  Python
    exceptions are the [Raise] results of a small state-and-exception monad.

    What the environment can do: the poll returns three lists or raises
    (an external interrupt is a [KeyboardInterrupt] raised by the poll, the
    one call in which the loop waits); [accept], [recv] and [send] succeed
    or raise [socket.error]; [getpeername], which the code calls for the
    arguments of its log lines, fails on a closed socket and on the
    listener, and on an open accepted socket returns or raises
    [socket.error] as the environment says (the peer may have reset the
    connection); [getsockname] returns a tuple whose length depends on the
    address family; [close], the sleep and the methods of the collections do
    what Python 2 documents.  The loop may run forever, so [server] takes
    the finite script of the iterations that the environment has played so
    far.

    [close_on_exec] is modelled on a table of descriptor flags, and [main]
    on the candidates of [sock_info] with, for each, the outcome of the
    calls made for it; [main] has a trace of its own ([MainEvent]). *)

From Stdlib Require Import ZArith Ascii String List.
From stdpp Require Import gmap strings list fin_maps.
Import ListNotations.

Local Open Scope Z_scope.
Local Open Scope nat_scope.

(** ** Data *)

(** A socket object is identified by a number (Python compares them with
    [is] and hashes them by identity).  A payload is a Python 2 [str]. *)
Abbreviation Sock := nat (only parsing).
Abbreviation Payload := string (only parsing).

(** [Queue.Queue()]: unbounded FIFO; [put] appends at the back and
    [get_nowait] takes from the front or raises [Empty]. *)
Abbreviation Queue := (list string) (only parsing).

Definition put (q : Queue) (m : Payload) : Queue := q ++ [m].

Definition get_nowait (q : Queue) : option (Payload * Queue) :=
  match q with
  | [] => None
  | m :: q' => Some (m, q')
  end.

(** The exception classes that the loop raises or handles. *)
Inductive exn : Type :=
  | SelectError (errno : Z)      (* select.error, args[0] = errno *)
  | OSError (errno : Z)
  | SocketError (errno : Z)      (* socket.error (an IOError in Python 2) *)
  | KeyboardInterrupt
  | StopIteration
  | ValueError                   (* list.remove(x) with x absent *)
  | KeyError.                    (* messages[x] or del messages[x], x absent *)

Definition EINTR : Z := 4%Z.
Definition EBADF : Z := 9%Z.
Definition EAGAIN : Z := 11%Z.
Definition ENOTCONN : Z := 107%Z.

(** What the code asks of the operating system, in call order. *)
Inductive Event : Type :=
  | EvSetBlocking (s : Sock) (flag : bool)
  | EvListen (s : Sock)
  | EvSelect
  | EvAccept (listener client : Sock)
  | EvCloseOnExec (s : Sock)
  | EvRecv (s : Sock) (data : Payload)
  | EvSend (s : Sock) (message : Payload)
  | EvSleep
  | EvClose (s : Sock).

Global Instance exn_eq_dec : EqDecision exn.
Proof. solve_decision. Defined.

Global Instance Event_eq_dec : EqDecision Event.
Proof. solve_decision. Defined.

(** The local variables of [server] plus the world: [next_sock] is the
    identity the next accepted socket object gets, [trace] the calls made
    so far. *)
Record State : Type := mkState {
  inputs : list Sock;
  outputs : list Sock;
  messages : gmap nat (list string);
  next_sock : Sock;
  trace : list Event
}.

(** ** The environment of one loop iteration *)

Inductive SelectOutcome : Type :=
  | SelReady (reads writes errors : list Sock)
  | SelRaise (e : exn).

Inductive AcceptOutcome : Type :=
  | AcceptOk
  | AcceptErr (errno : Z).

Inductive RecvOutcome : Type :=
  | RecvData (data : Payload)        (* the empty string is end of file *)
  | RecvErr (errno : Z).

Inductive SendOutcome : Type :=
  | SendOk
  | SendErr (errno : Z).

(** [getpeername] on an open, accepted socket: after a reset by the peer it
    raises [socket.error(ENOTCONN)]. *)
Inductive PeerOutcome : Type :=
  | PeerOk
  | PeerErr (errno : Z).

Record Tick : Type := mkTick {
  sel : SelectOutcome;
  accept_of : AcceptOutcome;
  recv_of : Sock -> RecvOutcome;
  peername_of : Sock -> PeerOutcome;
  send_of : Sock -> SendOutcome;
  (* the k-th send of the drain pass on a socket *)
  drain_send_of : Sock -> nat -> SendOutcome
}.

(** ** State and exception monad *)

Inductive Res (A : Type) : Type :=
  | Ok (a : A) (st : State)
  | Raise (e : exn) (st : State).
Arguments Ok {A} a st.
Arguments Raise {A} e st.

Definition M (A : Type) : Type := State -> Res A.

Definition ret {A} (a : A) : M A := fun st => Ok a st.

Definition bind {A B} (c : M A) (k : A -> M B) : M B :=
  fun st =>
    match c st with
    | Ok a st' => k a st'
    | Raise e st' => Raise e st'
    end.

Definition raise {A} (e : exn) : M A := fun st => Raise e st.

Declare Scope py_scope.
Delimit Scope py_scope with py.
Notation "x <- c1 ;; c2" := (bind c1 (fun x => c2))
  (at level 100, c1 at next level, right associativity) : py_scope.
Notation "c1 ;;; c2" := (bind c1 (fun _ => c2))
  (at level 100, right associativity) : py_scope.

(** [for x in xs: body(x)], left to right, stopping at the first raise. *)
Fixpoint for_each {A} (body : A -> M unit) (xs : list A) : M unit :=
  match xs with
  | [] => ret tt
  | x :: xs' => (body x ;;; for_each body xs')%py
  end.

Definition emit (ev : Event) : M unit := fun st =>
  Ok tt (mkState (inputs st) (outputs st) (messages st) (next_sock st)
                 (trace st ++ [ev])).

(** [l.remove(x)]: drops the first occurrence, [ValueError] without one. *)
Fixpoint remove_first (x : Sock) (l : list Sock) : option (list Sock) :=
  match l with
  | [] => None
  | y :: l' =>
      if decide (x = y) then Some l'
      else match remove_first x l' with
           | Some r => Some (y :: r)
           | None => None
           end
  end.

Definition inputs_append (s : Sock) : M unit := fun st =>
  Ok tt (mkState (inputs st ++ [s]) (outputs st) (messages st)
                 (next_sock st) (trace st)).

Definition inputs_remove (s : Sock) : M unit := fun st =>
  match remove_first s (inputs st) with
  | Some l => Ok tt (mkState l (outputs st) (messages st)
                             (next_sock st) (trace st))
  | None => Raise ValueError st
  end.

Definition outputs_append (s : Sock) : M unit := fun st =>
  Ok tt (mkState (inputs st) (outputs st ++ [s]) (messages st)
                 (next_sock st) (trace st)).

Definition outputs_remove (s : Sock) : M unit := fun st =>
  match remove_first s (outputs st) with
  | Some l => Ok tt (mkState (inputs st) l (messages st)
                             (next_sock st) (trace st))
  | None => Raise ValueError st
  end.

(** [messages[s] = q] *)
Definition messages_set (s : Sock) (q : Queue) : M unit := fun st =>
  Ok tt (mkState (inputs st) (outputs st) (<[s := q]> (messages st))
                 (next_sock st) (trace st)).

(** [messages[s]] *)
Definition messages_get (s : Sock) : M Queue := fun st =>
  match messages st !! s with
  | Some q => Ok q st
  | None => Raise KeyError st
  end.

(** [messages[s].put(m)] *)
Definition messages_put (s : Sock) (m : Payload) : M unit :=
  (q <- messages_get s ;; messages_set s (put q m))%py.

(** [del messages[s]] *)
Definition messages_del (s : Sock) : M unit := fun st =>
  match messages st !! s with
  | Some _ => Ok tt (mkState (inputs st) (outputs st) (delete s (messages st))
                             (next_sock st) (trace st))
  | None => Raise KeyError st
  end.

Definition is_closed (s : Sock) (tr : list Event) : bool :=
  bool_decide (EvClose s ∈ tr).

Definition close (s : Sock) : M unit := emit (EvClose s).

Definition stop_command : Payload := "stop"%string.
Definition shutdown_notice : Payload := "Shutdown request received"%string.

(** [x in outputs], [x in inputs], [x in messages] *)
Definition in_outputs (s : Sock) : M bool := fun st =>
  Ok (bool_decide (s ∈ outputs st)) st.

Definition in_messages (s : Sock) : M bool := fun st =>
  Ok (bool_decide (is_Some (messages st !! s))) st.

Definition get_inputs : M (list Sock) := fun st => Ok (inputs st) st.

(** ** The function [server] *)

Section Server.

(** The listening socket: the argument [server] of the Python function. *)
Variable listener : Sock.

Local Open Scope py_scope.

(** [s.getpeername()], evaluated for the arguments of the log calls
    (lines 68-69, 80-81, 96-97, 101-102), outside any handler of
    [socket.error].  A socket object that was closed raises
    [socket.error(EBADF)] from every delegated method; the listening socket
    has no peer; on an open accepted socket the environment answers. *)
Definition getpeername (t : Tick) (s : Sock) : M unit := fun st =>
  if is_closed s (trace st) then Raise (SocketError EBADF) st
  else if decide (s = listener) then Raise (SocketError ENOTCONN) st
  else match peername_of t s with
       | PeerOk => Ok tt st
       | PeerErr errno => Raise (SocketError errno) st
       end.

(** [select.select(inputs, outputs, inputs, 1.0)] *)
Definition select (t : Tick) : M (list Sock * list Sock * list Sock) :=
  emit EvSelect ;;;
  match sel t with
  | SelReady reads writes errors => ret (reads, writes, errors)
  | SelRaise e => raise e
  end.

(** [input.accept()]: a new socket object on success. *)
Definition accept (t : Tick) (s : Sock) : M Sock := fun st =>
  match accept_of t with
  | AcceptOk =>
      let client := next_sock st in
      Ok client (mkState (inputs st) (outputs st) (messages st) (S client)
                         (trace st ++ [EvAccept s client]))
  | AcceptErr errno => Raise (SocketError errno) st
  end.

(** [input.recv(8192)] *)
Definition recv (t : Tick) (s : Sock) : M Payload :=
  match recv_of t s with
  | RecvData data => emit (EvRecv s data) ;;; ret data
  | RecvErr errno => raise (SocketError errno)
  end.

(** [output.send(message)] in the writable pass. *)
Definition send (t : Tick) (s : Sock) (message : Payload) : M unit :=
  emit (EvSend s message) ;;;
  match send_of t s with
  | SendOk => ret tt
  | SendErr errno => raise (SocketError errno)
  end.

(** Lines 80-86 and 101-107: the teardown shared by end of file and by an
    error event. *)
Definition teardown (t : Tick) (s : Sock) : M unit :=
  getpeername t s ;;;
  b <- in_outputs s ;;
  (if b then outputs_remove s else ret tt) ;;;
  inputs_remove s ;;;
  close s ;;;
  messages_del s.

(** Body of [for input in reads] (lines 57-86). *)
Definition handle_read (t : Tick) (input : Sock) : M unit :=
  if decide (input = listener) then
    client <- accept t input ;;
    emit (EvCloseOnExec client) ;;;
    emit (EvSetBlocking client false) ;;;
    inputs_append client ;;;
    messages_set client []
  else
    data <- recv t input ;;
    if negb (String.eqb data EmptyString) then
      getpeername t input ;;;
      if String.eqb data stop_command then
        messages_put input shutdown_notice ;;;
        raise StopIteration
      else
        b <- in_outputs input ;;
        (if b then ret tt else outputs_append input) ;;;
        messages_put input data
    else
      teardown t input.

(** Body of [for output in writes] (lines 89-98). *)
Definition handle_write (t : Tick) (output : Sock) : M unit :=
  b <- in_messages output ;;
  if negb b then ret tt
  else
    q <- messages_get output ;;
    match get_nowait q with
    | None => outputs_remove output
    | Some (message, q') =>
        messages_set output q' ;;;
        getpeername t output ;;;
        send t output message
    end.

(** Body of [for error in errors] (lines 101-107). *)
Definition handle_error (t : Tick) (error : Sock) : M unit :=
  teardown t error.

(** Lines 51-107: the body of the inner [try]. *)
Definition tick_body (t : Tick) : M unit :=
  r <- select t ;;
  let '(reads, writes, errors) := r in
  match reads, writes, errors with
  | [], [], [] => ret tt
  | _, _, _ =>
      for_each (handle_read t) reads ;;;
      for_each (handle_write t) writes ;;;
      for_each (handle_error t) errors
  end.

Definition transient (errno : Z) : bool :=
  bool_decide (errno ∈ [EAGAIN; EINTR]).

(** Lines 108-113: the two inner [except] clauses. *)
Definition inner_try (body : M unit) : M unit := fun st =>
  match body st with
  | Raise (SelectError errno) st' =>
      if transient errno then Ok tt st' else Raise (SelectError errno) st'
  | Raise (OSError errno) st' =>
      if transient errno then Ok tt st' else Raise (OSError errno) st'
  | r => r
  end.

(** The [while True] of lines 121-126 pops until [Empty]; the recursion is
    on the queue's contents, which only this loop changes. *)
Fixpoint drain_queue (t : Tick) (client : Sock) (k : nat) (q : Queue)
  : M unit :=
  match q with
  | [] => ret tt
  | message :: q' =>
      messages_set client q' ;;;
      emit (EvSend client message) ;;;
      match drain_send_of t client k with
      | SendOk => drain_queue t client (S k) q'
      | SendErr errno => raise (SocketError errno)
      end
  end.

(** Lines 119-131: [try] / [except socket.error: pass] / [finally: close]. *)
Definition drain_client (t : Tick) (client : Sock) : M unit := fun st =>
  let body :=
    b <- in_messages client ;;
    if b then
      q <- messages_get client ;;
      drain_queue t client 0 q ;;;
      emit EvSleep
    else ret tt in
  match body st with
  | Ok _ st' => close client st'
  | Raise (SocketError _) st' => close client st'
  | Raise e st' => (close client ;;; raise e) st'
  end.

(** Lines 117-131: the body of [for client in inputs]. *)
Definition drain_body (t : Tick) (client : Sock) : M unit :=
  if decide (client = listener) then ret tt else drain_client t client.

(** Lines 116-131. *)
Definition drain (t : Tick) : M unit :=
  clients <- get_inputs ;;
  for_each (drain_body t) clients.

(** The spec's names for the phases of the loop; [STOPPED] carries the
    function's return value. *)
Inductive LoopState : Type :=
  | RUNNING
  | DRAINING
  | STOPPED (result : bool).

Definition is_shutdown (e : exn) : bool :=
  match e with
  | KeyboardInterrupt | StopIteration => true
  | _ => false
  end.

(** One pass through the [while] body up to the outer handlers: where the
    control goes next, and in which state. *)
Definition iteration (t : Tick) (st : State) : LoopState * State :=
  match inner_try (tick_body t) st with
  | Ok _ st' => (RUNNING, st')
  | Raise e st' =>
      if is_shutdown e then (DRAINING, st') else (STOPPED false, st')
  end.

Inductive Outcome : Type :=
  | Returned (result : bool) (st : State)
  | Escaped (e : exn) (st : State)       (* raised past the function *)
  | StillRunning (st : State).           (* the script ran out *)

(** The [while isRunning] loop over the iterations the environment
    scripts. *)
Fixpoint server_loop (script : list Tick) (st : State) : Outcome :=
  match script with
  | [] => StillRunning st
  | t :: rest =>
      match iteration t st with
      | (RUNNING, st') => server_loop rest st'
      | (DRAINING, st') =>
          match drain t st' with
          | Ok _ st'' => Returned true st''
          | Raise e st'' => Escaped e st''
          end
      | (STOPPED result, st') => Returned result st'
      end
  end.

(** State after lines 29-46, when [listen] succeeded and the result of
    [getsockname] was unpacked. *)
Definition initial : State :=
  mkState [listener] [] ∅ (S listener)
          [EvSetBlocking listener false; EvListen listener].

(** [server(server, ...)]: [listen_err] is the errno of the [socket.error]
    that [server.listen(backlog)] raises, if it does; [sockname_len] is the
    length of the tuple that [server.getsockname()] returns (2 for an
    [AF_INET] socket, 4 for an [AF_INET6] one).  Line 38 unpacks that tuple
    into two names outside any [try]: with another length the [ValueError]
    leaves the function before the loop. *)
Definition server (listen_err : option Z) (sockname_len : nat)
  (script : list Tick) : Outcome :=
  match listen_err with
  | Some _ =>
      Returned false
        (mkState [] [] ∅ (S listener)
                 [EvSetBlocking listener false; EvListen listener])
  | None =>
      if decide (sockname_len = 2) then server_loop script initial
      else Escaped ValueError
             (mkState [] [] ∅ (S listener)
                      [EvSetBlocking listener false; EvListen listener])
  end.

(** ** What the trace says about one connection *)

(** The non-empty payloads received on [c], oldest first. *)
Definition recvd (c : Sock) (tr : list Event) : list Payload :=
  flat_map (fun ev =>
              match ev with
              | EvRecv s data =>
                  if decide (s = c) then
                    if String.eqb data EmptyString then [] else [data]
                  else []
              | _ => []
              end) tr.

(** The messages passed to [send] on [c], oldest first. *)
Definition sent (c : Sock) (tr : list Event) : list Payload :=
  flat_map (fun ev =>
              match ev with
              | EvSend s message => if decide (s = c) then [message] else []
              | _ => []
              end) tr.

(** The socket an event is about, if it is a call on a client socket. *)
Definition subject (ev : Event) : option Sock :=
  match ev with
  | EvRecv s _ | EvSend s _ | EvClose s => Some s
  | _ => None
  end.

(** The calls the drain pass makes. *)
Definition drain_event (ev : Event) : bool :=
  match ev with
  | EvSend _ _ | EvSleep | EvClose _ => true
  | _ => false
  end.

(** The state with one more poll in its trace. *)
Definition after_poll (st : State) : State :=
  mkState (inputs st) (outputs st) (messages st) (next_sock st)
          (trace st ++ [EvSelect]).

(** ** Invariants *)

(** The registry invariant as the code keeps it: a socket of [outputs] is
    registered (its queue may be empty), and the registered sockets are the
    sockets of [inputs] other than the listener. *)
Record registry_inv (st : State) : Prop := {
  inv_inputs_nodup : NoDup (inputs st);
  inv_outputs_nodup : NoDup (outputs st);
  inv_listener : listener ∈ inputs st;
  inv_keys : forall s, is_Some (messages st !! s) <->
                       s ∈ inputs st /\ s <> listener;
  inv_outputs : forall s, s ∈ outputs st -> is_Some (messages st !! s);
  inv_alloc : forall s, s ∈ inputs st -> s < next_sock st
}.

(** The registry invariant in the words of the spec: the queue of a socket
    of [outputs] is not empty. *)
Definition spec_registry_inv (st : State) : Prop :=
  (forall s, s ∈ outputs st ->
             exists q, messages st !! s = Some q /\ q <> []) /\
  (forall s, is_Some (messages st !! s) <->
             s ∈ inputs st /\ s <> listener).

(** What the trace and the queues have to do with each other. *)
Record echo_inv (st : State) : Prop := {
  inv_fifo : forall c q, messages st !! c = Some q ->
                         recvd c (trace st) = sent c (trace st) ++ q;
  inv_no_stop : forall c, is_Some (messages st !! c) ->
                          stop_command ∉ recvd c (trace st);
  inv_pending : forall c q, messages st !! c = Some q -> q <> [] ->
                            c ∈ outputs st;
  inv_open : forall c, is_Some (messages st !! c) ->
                       EvClose c ∉ trace st;
  inv_fresh : forall ev c, ev ∈ trace st -> subject ev = Some c ->
                           c < next_sock st
}.

Definition loop_inv (st : State) : Prop := registry_inv st /\ echo_inv st.

End Server.

(** ** Environments used in the examples *)

(** Nothing fails: [accept] and [send] succeed, [recv] answers [r]. *)
Definition calm (s : SelectOutcome) (r : Sock -> RecvOutcome) : Tick :=
  mkTick s AcceptOk r (fun _ => PeerOk) (fun _ => SendOk) (fun _ _ => SendOk).

Definition no_data : Sock -> RecvOutcome := fun _ => RecvData EmptyString.

(** A connection attempt is pending on listener [l]. *)
Definition connect_tick (l : Sock) : Tick := calm (SelReady [l] [] []) no_data.

(** [c] is readable and [recv] returns [data]. *)
Definition data_tick (c : Sock) (data : Payload) : Tick :=
  calm (SelReady [c] [] []) (fun _ => RecvData data).

(** Only [c] is ready, for writing, and the send goes through. *)
Definition writable_tick (c : Sock) : Tick :=
  calm (SelReady [] [c] []) no_data.

(** The peer of [c] closed while [c] also shows an exceptional condition. *)
Definition eof_and_error_tick (c : Sock) : Tick :=
  calm (SelReady [c] [] [c]) no_data.

(** The peer of [c] closed while [c] is also ready for writing. *)
Definition eof_and_writable_tick (c : Sock) : Tick :=
  calm (SelReady [c] [c] []) no_data.

(** The poll raises [e]. *)
Definition poll_raises (e : exn) : Tick := calm (SelRaise e) no_data.

(** Every drain send on [bad] fails with [ECONNRESET]. *)
Definition stop_tick (c bad : Sock) : Tick :=
  mkTick (SelReady [c] [] []) AcceptOk (fun _ => RecvData stop_command)
         (fun _ => PeerOk) (fun _ => SendOk)
         (fun s _ => if decide (s = bad) then SendErr 104%Z else SendOk).

(** The state a computation ends in, raised or not. *)
Definition state_of {A} (r : Res A) : State :=
  match r with
  | Ok _ st | Raise _ st => st
  end.

(** The state in which the script leaves the function. *)
Definition state_after (l : Sock) (script : list Tick) : State :=
  match server l None 2 script with
  | StillRunning st | Returned _ st | Escaped _ st => st
  end.

(** Listener 0 accepted connection 1. *)
Definition one_client : State := state_after 0 [connect_tick 0].

(** Connection 1 sent ["a"], which is queued for the echo. *)
Definition one_queued : State :=
  state_after 0 [connect_tick 0; data_tick 1 "a"].

(** The echo of ["a"] was sent: one more iteration, in which connection 1
    is writable. *)
Definition one_echoed : State :=
  state_after 0 [connect_tick 0; data_tick 1 "a"; writable_tick 1].

(** Connection 1 has ["a"] and ["b"] queued; connection 2 is idle. *)
Definition two_clients : State :=
  state_after 0 [connect_tick 0; data_tick 1 "a"; data_tick 1 "b";
                 connect_tick 0].

(** The peer of connection 1 closed. *)
Definition one_closed : State :=
  state_after 0 [connect_tick 0; data_tick 1 EmptyString].

(** Connection 2 sent [stop]: the state in which the drain begins, when
    the drain sends on connection 1 will fail ... *)
Definition stopping_lossy : State :=
  state_of (tick_body 0 (stop_tick 2 1) two_clients).

(** ... and when they will succeed. *)
Definition stopping : State :=
  snd (iteration 0 (data_tick 2 stop_command) two_clients).

(** ** How the drain pass relates two states *)

(** [st'] comes from [st] by calls on the one socket [c]: sends, the grace
    sleep and the close; only the queue of [c] may differ. *)
Definition drain_ext (c : Sock) (st st' : State) : Prop :=
  inputs st' = inputs st /\
  outputs st' = outputs st /\
  next_sock st' = next_sock st /\
  (forall c', c' <> c -> messages st' !! c' = messages st !! c') /\
  exists tail,
    trace st' = trace st ++ tail /\
    Forall (fun ev => ev = EvSleep \/ ev = EvClose c \/
                      exists m, ev = EvSend c m) tail.

(** [st'] comes from [st] by drain calls only: no poll, no accept, no
    receive. *)
Definition drained (st st' : State) : Prop :=
  inputs st' = inputs st /\
  exists tail,
    trace st' = trace st ++ tail /\
    Forall (fun ev => drain_event ev = true) tail.

(** ** The events of the loop as a step relation *)

(** The state changes that the handlers make when they return normally,
    one constructor per path through lines 51-107. *)
Inductive loop_step (listener : Sock) : State -> State -> Prop :=
  | step_poll st :
      loop_step listener st (after_poll st)
  | step_accept st :
      loop_step listener st
        (mkState (inputs st ++ [next_sock st]) (outputs st)
                 (<[next_sock st := []]> (messages st)) (S (next_sock st))
                 (trace st ++ [EvAccept listener (next_sock st);
                               EvCloseOnExec (next_sock st);
                               EvSetBlocking (next_sock st) false]))
  | step_data st input data q :
      input <> listener ->
      messages st !! input = Some q ->
      data <> EmptyString ->
      data <> stop_command ->
      EvClose input ∉ trace st ->
      loop_step listener st
        (mkState (inputs st)
                 (if bool_decide (input ∈ outputs st) then outputs st
                  else outputs st ++ [input])
                 (<[input := q ++ [data]]> (messages st)) (next_sock st)
                 (trace st ++ [EvRecv input data]))
  | step_teardown st s ins outs pre :
      s <> listener ->
      EvClose s ∉ trace st ->
      remove_first s (inputs st) = Some ins ->
      (if bool_decide (s ∈ outputs st)
       then remove_first s (outputs st) = Some outs
       else outs = outputs st) ->
      is_Some (messages st !! s) ->
      pre = [] \/ pre = [EvRecv s EmptyString] ->
      loop_step listener st
        (mkState ins outs (delete s (messages st)) (next_sock st)
                 (trace st ++ pre ++ [EvClose s]))
  | step_idle st output outs :
      messages st !! output = Some [] ->
      remove_first output (outputs st) = Some outs ->
      loop_step listener st
        (mkState (inputs st) outs (messages st) (next_sock st) (trace st))
  | step_send st output message q' :
      output <> listener ->
      EvClose output ∉ trace st ->
      messages st !! output = Some (message :: q') ->
      loop_step listener st
        (mkState (inputs st) (outputs st) (<[output := q']> (messages st))
                 (next_sock st) (trace st ++ [EvSend output message])).

(** The exceptions that the handlers of one iteration raise themselves. *)
Definition handler_exn (e : exn) : Prop :=
  match e with
  | SocketError _ | StopIteration | ValueError | KeyError => True
  | _ => False
  end.

(** ** More of the loop: shutdown states and bookkeeping *)

(** The poll times out: nothing is ready. *)
Definition idle_tick : Tick := calm (SelReady [] [] []) no_data.

(** [st1] is a state in which the drain can begin when the loop was in
    [st0] after the last handler that returned: either the poll was
    interrupted, or [input] sent [stop] and got the notice queued. *)
Definition shutdown_state (listener : Sock) (st0 st1 : State) : Prop :=
  st1 = st0 \/
  exists input q,
    input <> listener /\
    messages st0 !! input = Some q /\
    (EvClose input ∉ trace st0) /\
    st1 = mkState (inputs st0) (outputs st0)
                  (<[input := q ++ [shutdown_notice]]> (messages st0))
                  (next_sock st0) (trace st0 ++ [EvRecv input stop_command]).

(** Every socket that [accept] handed out is still in [inputs] or has been
    closed. *)
Definition accounted (listener : Sock) (st : State) : Prop :=
  forall l c, EvAccept l c ∈ trace st ->
              c <> listener /\ (c ∈ inputs st \/ EvClose c ∈ trace st).

(** The state in which [server] stopped, or stands. *)
Definition outcome_state (o : Outcome) : State :=
  match o with
  | Returned _ st | Escaped _ st | StillRunning st => st
  end.

(** Two connections were accepted, the peer of connection 1 closed, and
    connection 2 sent [stop]. *)
Definition shutdown_script : list Tick :=
  [connect_tick 0; data_tick 1 "a"; connect_tick 0; data_tick 1 EmptyString;
   stop_tick 2 1].

Definition clean_exit : State :=
  outcome_state (server 0 None 2 shutdown_script).

(** ** [close_on_exec] (lines 13-22) *)

(** The descriptor flags of the open file descriptors, as [fcntl] with
    [F_GETFD] and [F_SETFD] sees them.  [fd_cloexec] is the constant
    [fcntl.FD_CLOEXEC]; [posix] is [os.name == 'posix'].  [None] is the
    [IOError] that [fcntl] raises on a descriptor that is not open. *)
Definition close_on_exec (fd_cloexec : Z) (posix : bool) (fd : nat)
  (fds : gmap nat Z) : option (gmap nat Z) :=
  if posix then
    match fds !! fd with
    | Some flags => Some (<[fd := Z.lor flags fd_cloexec]> fds)
    | None => None
    end
  else Some fds.

(** ** The function [main] (lines 140-205) *)

Inductive Family : Type :=
  | AF_INET
  | AF_INET6
  | AF_OTHER (addr_len : nat).

(** The length of the address tuples of a family, as [getaddrinfo] and
    [getsockname] return them: [(host, port)] for [AF_INET], [(host, port,
    flowinfo, scopeid)] for [AF_INET6]. *)
Definition sockaddr_len (family : Family) : nat :=
  match family with
  | AF_INET => 2
  | AF_INET6 => 4
  | AF_OTHER n => n
  end.

Global Instance Family_eq_dec : EqDecision Family.
Proof. solve_decision. Defined.

(** One entry of [sock_info], as far as the loop reads it: the family and
    the first two components of the address. *)
Record AddrInfo : Type := mkAddrInfo {
  ai_family : Family;
  ai_host : string;
  ai_port : Z
}.

(** The calls of [main], in order. *)
Inductive MainEvent : Type :=
  | MvSocket (s : Sock) (family : Family)
  | MvCloseOnExec (s : Sock)
  | MvReuseAddr (s : Sock)
  | MvNoDelay (s : Sock)
  | MvV6Only (s : Sock)
  | MvBind (s : Sock) (host : string) (port : Z)
  | MvClose (s : Sock)
  | MvServer (s : Sock).

Global Instance MainEvent_eq_dec : EqDecision MainEvent.
Proof. solve_decision. Defined.

Inductive V6Outcome : Type :=
  | V6Ok
  | V6SocketError (errno : Z)
  | V6AttributeError.

(** What the calls made for one candidate do: [None] is success, [Some
    errno] a [socket.error]. *)
Record Attempt : Type := mkAttempt {
  try_socket : option Z;
  try_reuseaddr : option Z;
  try_nodelay : option Z;
  try_v6only : V6Outcome;
  try_bind : option Z
}.

(** [':' in host] *)
Fixpoint contains_colon (host : string) : bool :=
  match host with
  | EmptyString => false
  | String a rest => if Ascii.eqb a ":"%char then true else contains_colon rest
  end.

(** [host in ('::', '::0', '::0.0.0.0')] *)
Definition is_v6_any (host : string) : bool :=
  bool_decide (host ∈ ["::"; "::0"; "::0.0.0.0"]%string).

(** Lines 143-152: the candidates; [gai] is the list [getaddrinfo]
    returns, [None] when it raises [gaierror]. *)
Definition sock_info (host : string) (port : Z)
  (gai : option (list AddrInfo)) : list AddrInfo :=
  match gai with
  | Some l => l
  | None =>
      if contains_colon host then [mkAddrInfo AF_INET6 host port]
      else [mkAddrInfo AF_INET host port]
  end.

Inductive AttemptResult : Type :=
  | Bound (s : Sock) (family : Family)   (* falls through to [break] *)
  | Failed                    (* [except socket.error]: [continue] *)
  | Uncaught.                 (* [AttributeError] leaves [main] *)

(** Lines 158-186 for one candidate.  [next] is the identity the socket
    gets if it is created; the result carries the next free identity and
    the trace.  In the handler [sock] is the new socket if [socket.socket]
    returned, and [None] (left by the previous round) if it raised. *)
Definition try_candidate (host : string) (nodelay : bool) (a : Attempt)
  (ai : AddrInfo) (next : Sock) (tr : list MainEvent)
  : AttemptResult * Sock * list MainEvent :=
  match try_socket a with
  | Some _ => (Failed, next, tr)
  | None =>
      let s := next in
      let tr1 := tr ++ [MvSocket s (ai_family ai); MvCloseOnExec s;
                        MvReuseAddr s] in
      match try_reuseaddr a with
      | Some _ => (Failed, S next, tr1 ++ [MvClose s])
      | None =>
          let after_nodelay :=
            if nodelay then
              match try_nodelay a with
              | Some errno => inr (tr1 ++ [MvNoDelay s])
              | None => inl (tr1 ++ [MvNoDelay s])
              end
            else inl tr1 in
          match after_nodelay with
          | inr tr2 => (Failed, S next, tr2 ++ [MvClose s])
          | inl tr2 =>
              let after_v6 :=
                if bool_decide (ai_family ai = AF_INET6) && is_v6_any host
                then (try_v6only a, tr2 ++ [MvV6Only s])
                else (V6Ok, tr2) in
              match after_v6 with
              | (V6AttributeError, tr3) => (Uncaught, S next, tr3)
              | (V6SocketError _, tr3) => (Failed, S next, tr3 ++ [MvClose s])
              | (V6Ok, tr3) =>
                  let tr4 := tr3 ++ [MvBind s (ai_host ai) (ai_port ai)] in
                  match try_bind a with
                  | Some _ => (Failed, S next, tr4 ++ [MvClose s])
                  | None => (Bound s (ai_family ai), S next, tr4)
                  end
              end
          end
      end
  end.

(** Lines 156-187: the [for] loop; [i] is the position of the first
    candidate of [cands] in [sock_info]. *)
Fixpoint bind_first (host : string) (nodelay : bool)
  (attempts : nat -> Attempt) (i : nat) (cands : list AddrInfo)
  (next : Sock) (tr : list MainEvent)
  : AttemptResult * Sock * list MainEvent :=
  match cands with
  | [] => (Failed, next, tr)
  | ai :: rest =>
      match try_candidate host nodelay (attempts i) ai next tr with
      | (Failed, next', tr') =>
          bind_first host nodelay attempts (S i) rest next' tr'
      | r => r
      end
  end.

Inductive MainOutcome : Type :=
  | MainReturned (result : bool) (tr : list MainEvent)
  | MainEscaped (tr : list MainEvent)
  | MainRunning (tr : list MainEvent).

(** [main(host, port, nodelay)] with the environment it meets:
    [getaddrinfo]'s answer, the outcome of the calls for each candidate, and
    what [server] meets. *)
Definition main (host : string) (port : Z) (nodelay : bool)
  (gai : option (list AddrInfo)) (attempts : nat -> Attempt)
  (listen_err : option Z) (script : list Tick) : MainOutcome :=
  match bind_first host nodelay attempts 0 (sock_info host port gai) 0 [] with
  | (Failed, _, tr) => MainReturned false tr
  | (Uncaught, _, tr) => MainEscaped tr
  | (Bound s family, _, tr) =>
      match server s listen_err (sockaddr_len family) script with
      | Returned result _ => MainReturned result (tr ++ [MvServer s; MvClose s])
      | Escaped _ _ => MainEscaped (tr ++ [MvServer s; MvClose s])
      | StillRunning _ => MainRunning (tr ++ [MvServer s])
      end
  end.

(** Every call succeeds. *)
Definition all_ok : Attempt := mkAttempt None None None V6Ok None.

(** [bind] fails with [EADDRINUSE]. *)
Definition bind_in_use : Attempt := mkAttempt None None None V6Ok (Some 98%Z).

(** The first candidate's address is in use, the second one binds. *)
Definition second_binds (i : nat) : Attempt :=
  match i with
  | 0 => bind_in_use
  | _ => all_ok
  end.

Definition two_candidates : list AddrInfo :=
  [mkAddrInfo AF_INET6 "::1" 8080; mkAddrInfo AF_INET "127.0.0.1" 8080].

(** Listener 1 accepts connection 2, which sends [stop]. *)
Definition main_script : list Tick :=
  [connect_tick 1; data_tick 2 stop_command].

(** The calls of [main] in that run. *)
Definition main_trace : list MainEvent :=
  [MvSocket 0 AF_INET6; MvCloseOnExec 0; MvReuseAddr 0; MvNoDelay 0;
   MvBind 0 "::1" 8080; MvClose 0; MvSocket 1 AF_INET; MvCloseOnExec 1;
   MvReuseAddr 1; MvNoDelay 1; MvBind 1 "127.0.0.1" 8080; MvServer 1;
   MvClose 1].

(** The sockets [main] created and did not close. *)
Definition main_open (tr : list MainEvent) (s : Sock) : Prop :=
  (exists f, MvSocket s f ∈ tr) /\ MvClose s ∉ tr.

(** How the round for one candidate ends; it does not depend on the
    identity the socket gets nor on the calls made before. *)
Definition attempt_fails (host : string) (nodelay : bool) (a : Attempt)
  (ai : AddrInfo) : bool :=
  match try_candidate host nodelay a ai 0 [] with
  | (Failed, _, _) => true
  | _ => false
  end.

Definition attempt_binds (host : string) (nodelay : bool) (a : Attempt)
  (ai : AddrInfo) : bool :=
  match try_candidate host nodelay a ai 0 [] with
  | (Bound _ _, _, _) => true
  | _ => false
  end.

(** The same in terms of the calls of lines 158-176.  Every call made for
    the candidate returns: [socket.socket], the [SO_REUSEADDR] option, the
    [TCP_NODELAY] option when [nodelay] asks for it, the [IPV6_V6ONLY] option
    when the family is [AF_INET6] and [host] is one of the wildcard
    spellings, and [bind]. *)
Definition candidate_binds (host : string) (nodelay : bool) (a : Attempt)
  (ai : AddrInfo) : Prop :=
  try_socket a = None /\
  try_reuseaddr a = None /\
  (nodelay = true -> try_nodelay a = None) /\
  (ai_family ai = AF_INET6 -> is_v6_any host = true -> try_v6only a = V6Ok) /\
  try_bind a = None.

(** One of these calls raises [socket.error], those made before it having
    returned. *)
Inductive candidate_fails (host : string) (nodelay : bool) (a : Attempt)
  (ai : AddrInfo) : Prop :=
  | fails_socket (errno : Z) :
      try_socket a = Some errno ->
      candidate_fails host nodelay a ai
  | fails_reuseaddr (errno : Z) :
      try_socket a = None ->
      try_reuseaddr a = Some errno ->
      candidate_fails host nodelay a ai
  | fails_nodelay (errno : Z) :
      try_socket a = None ->
      try_reuseaddr a = None ->
      nodelay = true ->
      try_nodelay a = Some errno ->
      candidate_fails host nodelay a ai
  | fails_v6only (errno : Z) :
      try_socket a = None ->
      try_reuseaddr a = None ->
      (nodelay = true -> try_nodelay a = None) ->
      ai_family ai = AF_INET6 ->
      is_v6_any host = true ->
      try_v6only a = V6SocketError errno ->
      candidate_fails host nodelay a ai
  | fails_bind (errno : Z) :
      try_socket a = None ->
      try_reuseaddr a = None ->
      (nodelay = true -> try_nodelay a = None) ->
      (ai_family ai = AF_INET6 -> is_v6_any host = true ->
       try_v6only a = V6Ok) ->
      try_bind a = Some errno ->
      candidate_fails host nodelay a ai.

(** The socket a call of [main] is made on. *)
Definition mv_sock (ev : MainEvent) : Sock :=
  match ev with
  | MvSocket s _ | MvCloseOnExec s | MvReuseAddr s | MvNoDelay s
  | MvV6Only s | MvBind s _ _ | MvClose s | MvServer s => s
  end.

(** Every socket created in [tr], except possibly [keep], is closed in
    [tr]; all its sockets have identities below [next]. *)
Definition closed_except (keep : option Sock) (next : Sock)
  (tr : list MainEvent) : Prop :=
  (forall s f, MvSocket s f ∈ tr -> keep = Some s \/ MvClose s ∈ tr) /\
  (forall ev, ev ∈ tr -> mv_sock ev < next).

(** ** Three claims in the words of the spec, and environments that
    refute them *)


(** [c] is readable and [recv] returns [data], but the peer has reset the
    connection by the time the log call asks for its name. *)
Definition reset_tick (c : Sock) (data : Payload) : Tick :=
  mkTick (SelReady [c] [] []) AcceptOk (fun _ => RecvData data)
         (fun _ => PeerErr ENOTCONN) (fun _ => SendOk) (fun _ _ => SendOk).









(** * Properties *)

Ltac py_unfold :=
  unfold teardown, select, accept, recv, send, getpeername, messages_put,
    messages_get, messages_set, messages_del, inputs_append, inputs_remove,
    outputs_append, outputs_remove, in_outputs, in_messages, get_inputs,
    close, emit, bind, ret, raise in *.

(** ** Generic facts about the monad and the list operations *)

Lemma for_each_app {A} (body : A -> M unit) (xs ys : list A) (st : State) :
  for_each body (xs ++ ys) st =
  match for_each body xs st with
  | Ok _ st' => for_each body ys st'
  | Raise e st' => Raise e st'
  end.
Proof.
  revert st. induction xs as [|x xs IH]; intros st; simpl.
  - reflexivity.
  - unfold bind. destruct (body x st) as [[] st1|e st1]; [apply IH|reflexivity].
Qed.

Lemma for_each_cons {A} (body : A -> M unit) (x : A) (xs : list A)
  (st : State) :
  for_each body (x :: xs) st =
  match body x st with
  | Ok _ st' => for_each body xs st'
  | Raise e st' => Raise e st'
  end.
Proof. reflexivity. Qed.

Lemma remove_first_Some (x : nat) (l r : list nat) :
  remove_first x l = Some r ->
  x ∈ l /\ (forall y, y ∈ r -> y ∈ l) /\
  (forall y, y ∈ l -> y <> x -> y ∈ r).
Proof.
  revert r. induction l as [|y l IH]; intros r; simpl; [discriminate|].
  destruct (decide (x = y)) as [->|Hne].
  - intros [= ->]. split; [left|]. split; intros z.
    + by right.
    + intros [->|Hz]%elem_of_cons; [congruence|done].
  - destruct (remove_first x l) as [r'|] eqn:E; [|discriminate].
    intros [= <-]. destruct (IH r' eq_refl) as (Hin & Hsub & Hsup).
    split; [by right|]. split; intros z.
    + intros [->|Hz]%elem_of_cons; [left|right; auto].
    + intros [->|Hz]%elem_of_cons Hzx; [left|right; auto].
Qed.

Lemma remove_first_NoDup (x : nat) (l r : list nat) :
  NoDup l -> remove_first x l = Some r ->
  NoDup r /\ forall y, y ∈ r <-> y ∈ l /\ y <> x.
Proof.
  revert r. induction l as [|y l IH]; intros r Hnd; simpl; [discriminate|].
  apply NoDup_cons in Hnd as [Hy Hnd].
  destruct (decide (x = y)) as [->|Hne].
  - intros [= ->]. split; [done|]. intros z. rewrite elem_of_cons.
    split; [|tauto]. intros Hz. split; [by right|]. by intros ->.
  - destruct (remove_first x l) as [r'|] eqn:E; [|discriminate].
    intros [= <-]. destruct (IH r' Hnd eq_refl) as [Hnd' Hiff]. split.
    + apply NoDup_cons. split; [|done]. rewrite Hiff. tauto.
    + intros z. rewrite !elem_of_cons, Hiff. split.
      * intros [->|[Hz Hd]]; [split; [by left|congruence]|].
        split; [by right|done].
      * intros [[->|Hz] Hd]; [by left|]. right. done.
Qed.

Lemma remove_first_is_Some (x : nat) (l : list nat) :
  x ∈ l -> is_Some (remove_first x l).
Proof.
  induction l as [|y l IH]; simpl.
  - by intros ?%elem_of_nil.
  - intros Hin. destruct (decide (x = y)); [by eexists|].
    apply elem_of_cons in Hin as [?|Hin]; [done|].
    destruct (IH Hin) as [r ->]. by eexists.
Qed.

Lemma sent_app (c : nat) (tr1 tr2 : list Event) :
  sent c (tr1 ++ tr2) = sent c tr1 ++ sent c tr2.
Proof. unfold sent. apply flat_map_app. Qed.

Lemma recvd_app (c : nat) (tr1 tr2 : list Event) :
  recvd c (tr1 ++ tr2) = recvd c tr1 ++ recvd c tr2.
Proof. unfold recvd. apply flat_map_app. Qed.

Lemma is_closed_false (s : nat) (tr : list Event) :
  EvClose s ∉ tr -> is_closed s tr = false.
Proof. intros H. unfold is_closed. by apply bool_decide_eq_false. Qed.

Lemma transient_spec (errno : Z) :
  transient errno = true <-> errno = EAGAIN \/ errno = EINTR.
Proof.
  unfold transient. rewrite bool_decide_eq_true, !elem_of_cons.
  split; [intros [?|[?|?%elem_of_nil]]|intros [?|?]]; tauto.
Qed.

(** ** Setup failure *)

(** C7: when [listen] raises [socket.error], [server] returns [False] for
    every script of later events, without a single poll or accept in its
    trace and with nothing registered. *)
Theorem listen_failure_returns_false (listener : nat) (errno : Z)
  (sockname_len : nat) (script : list Tick) :
  exists st,
    server listener (Some errno) sockname_len script = Returned false st /\
    (EvSelect ∉ trace st) /\
    (forall l c, EvAccept l c ∉ trace st) /\
    messages st = ∅ /\
    inputs st = [] /\
    trace st = [EvSetBlocking listener false; EvListen listener].
Proof.
  eexists. split; [reflexivity|]. simpl.
  repeat split; try reflexivity.
  - intros H. repeat (apply elem_of_cons in H as [H|H]; [discriminate|]).
    by apply elem_of_nil in H.
  - intros l c H. repeat (apply elem_of_cons in H as [H|H]; [discriminate|]).
    by apply elem_of_nil in H.
Qed.

(** ** Poll failures *)

Lemma tick_body_poll_raises (listener : nat) (t : Tick) (st : State)
  (e : exn) :
  sel t = SelRaise e ->
  tick_body listener t st = Raise e (after_poll st).
Proof. intros H. unfold tick_body. py_unfold. simpl. rewrite H. reflexivity. Qed.

(** C9: a poll that raises [select.error] (or [OSError]) with errno
    [EAGAIN] or [EINTR] leaves the loop running with [inputs], [outputs]
    and [messages] as they were, and the loop goes on with the next
    iteration; with any other errno the function returns [False]. *)
Theorem poll_failure_transient_or_fatal (listener : nat) (t : Tick)
  (rest : list Tick) (st : State) (e : exn) (errno : Z) :
  e = SelectError errno \/ e = OSError errno ->
  sel t = SelRaise e ->
  (transient errno = true <-> errno = EAGAIN \/ errno = EINTR) /\
  iteration listener t st =
    (if transient errno then RUNNING else STOPPED false, after_poll st) /\
  inputs (after_poll st) = inputs st /\
  outputs (after_poll st) = outputs st /\
  messages (after_poll st) = messages st /\
  server_loop listener (t :: rest) st =
    (if transient errno then server_loop listener rest (after_poll st)
     else Returned false (after_poll st)).
Proof.
  intros He Hsel. split; [apply transient_spec|].
  assert (Hit : iteration listener t st =
    (if transient errno then RUNNING else STOPPED false, after_poll st)).
  { unfold iteration, inner_try.
    rewrite (tick_body_poll_raises listener t st e Hsel).
    destruct He as [-> | ->]; destruct (transient errno); reflexivity. }
  split; [exact Hit|]. repeat split.
  simpl. rewrite Hit. destruct (transient errno); reflexivity.
Qed.

Lemma poll_failure_transient_or_fatal_witness :
  (SelectError EINTR = SelectError EINTR \/ SelectError EINTR = OSError EINTR) /\
  sel (poll_raises (SelectError EINTR)) = SelRaise (SelectError EINTR) /\
  iteration 0 (poll_raises (SelectError EINTR)) (initial 0) =
    (RUNNING, after_poll (initial 0)) /\
  server_loop 0 [poll_raises (SelectError EINTR)] (initial 0) =
    StillRunning (after_poll (initial 0)).
Proof.
  pose proof (poll_failure_transient_or_fatal 0
    (poll_raises (SelectError EINTR)) [] (initial 0) (SelectError EINTR) EINTR
    (or_introl eq_refl) eq_refl) as (_ & Hit & _ & _ & _ & Hloop).
  split; [by left|]. split; [reflexivity|]. split; [exact Hit|exact Hloop].
Defined.

(** ** Single events *)

Lemma handle_read_listener (listener : nat) (t : Tick) (st : State) :
  accept_of t = AcceptOk ->
  handle_read listener t listener st =
    Ok tt (mkState (inputs st ++ [next_sock st]) (outputs st)
                   (<[next_sock st := []]> (messages st)) (S (next_sock st))
                   (trace st ++ [EvAccept listener (next_sock st);
                                 EvCloseOnExec (next_sock st);
                                 EvSetBlocking (next_sock st) false])).
Proof.
  intros Hacc. unfold handle_read. rewrite decide_True by reflexivity.
  py_unfold. rewrite Hacc. simpl. rewrite <- !app_assoc. reflexivity.
Qed.

Lemma handle_read_stop (listener : nat) (t : Tick) (st : State) (input : nat)
  (q : list string) :
  input <> listener ->
  recv_of t input = RecvData stop_command ->
  peername_of t input = PeerOk ->
  messages st !! input = Some q ->
  EvClose input ∉ trace st ->
  handle_read listener t input st =
    Raise StopIteration
      (mkState (inputs st) (outputs st)
               (<[input := q ++ [shutdown_notice]]> (messages st))
               (next_sock st) (trace st ++ [EvRecv input stop_command])).
Proof.
  intros Hne Hrecv Hpeer Hq Hopen. unfold handle_read.
  rewrite decide_False by exact Hne. py_unfold. rewrite Hrecv. simpl.
  rewrite is_closed_false.
  2:{ intros [H|H]%elem_of_app; [done|].
      apply list_elem_of_singleton in H. discriminate. }
  rewrite decide_False by exact Hne. rewrite Hpeer. simpl. rewrite Hq.
  reflexivity.
Qed.


Lemma tick_body_reads_raise (listener : nat) (t : Tick) (st st1 st2 : State)
  (reads writes errors pre post : list nat) (input : nat) (e : exn) :
  sel t = SelReady reads writes errors ->
  reads = pre ++ input :: post ->
  for_each (handle_read listener t) pre (after_poll st) = Ok tt st1 ->
  handle_read listener t input st1 = Raise e st2 ->
  tick_body listener t st = Raise e st2.
Proof.
  intros Hsel -> Hpre Hin. unfold tick_body, select.
  unfold bind at 1. unfold bind at 1. unfold emit at 1. rewrite Hsel.
  unfold ret at 1. fold (after_poll st).
  assert (Hall : (for_each (handle_read listener t) (pre ++ input :: post) ;;;
                  for_each (handle_write listener t) writes ;;;
                  for_each (handle_error listener t) errors)%py (after_poll st)
                 = Raise e st2).
  { unfold bind at 1. rewrite for_each_app, Hpre, for_each_cons, Hin.
    reflexivity. }
  destruct pre; simpl app in *; exact Hall.
Qed.

(** What is left of the iteration after a readable event that returned. *)
Lemma tick_body_reads_split (listener : nat) (t : Tick) (st st1 st2 : State)
  (reads writes errors pre post : list nat) (input : nat) :
  sel t = SelReady reads writes errors ->
  reads = pre ++ input :: post ->
  for_each (handle_read listener t) pre (after_poll st) = Ok tt st1 ->
  handle_read listener t input st1 = Ok tt st2 ->
  tick_body listener t st =
    (for_each (handle_read listener t) post ;;;
     for_each (handle_write listener t) writes ;;;
     for_each (handle_error listener t) errors)%py st2.
Proof.
  intros Hsel -> Hpre Hin. unfold tick_body, select.
  unfold bind at 1. unfold bind at 1. unfold emit at 1. rewrite Hsel.
  unfold ret at 1. fold (after_poll st).
  assert (Hall : (for_each (handle_read listener t) (pre ++ input :: post) ;;;
                  for_each (handle_write listener t) writes ;;;
                  for_each (handle_error listener t) errors)%py (after_poll st)
                 = (for_each (handle_read listener t) post ;;;
                    for_each (handle_write listener t) writes ;;;
                    for_each (handle_error listener t) errors)%py st2).
  { unfold bind at 1. rewrite for_each_app, Hpre, for_each_cons, Hin.
    reflexivity. }
  destruct pre; simpl app in *; exact Hall.
Qed.

Lemma iteration_socket_error (listener : nat) (t : Tick) (rest : list Tick)
  (st st1 : State) (errno : Z) :
  tick_body listener t st = Raise (SocketError errno) st1 ->
  iteration listener t st = (STOPPED false, st1) /\
  server_loop listener (t :: rest) st = Returned false st1.
Proof.
  intros Hbody.
  assert (Hit : iteration listener t st = (STOPPED false, st1)).
  { unfold iteration, inner_try. by rewrite Hbody. }
  split; [exact Hit|]. cbn [server_loop]. by rewrite Hit.
Qed.







Lemma handle_write_unregistered (listener : nat) (t : Tick) (st : State)
  (output : nat) :
  messages st !! output = None ->
  handle_write listener t output st = Ok tt st.
Proof.
  intros Hnone. unfold handle_write. py_unfold. rewrite Hnone.
  rewrite bool_decide_eq_false_2; [reflexivity|].
  intros [? ?]; discriminate.
Qed.

Lemma teardown_unregisters (listener : nat) (t : Tick) (s : nat)
  (st st' : State) :
  teardown listener t s st = Ok tt st' ->
  messages st' !! s = None /\ EvClose s ∈ trace st'.
Proof.
  unfold teardown. py_unfold.
  destruct (is_closed s (trace st)); [discriminate|].
  destruct (decide (s = listener)); [discriminate|].
  destruct (peername_of t s); [|discriminate].
  destruct (bool_decide (s ∈ outputs st)).
  - destruct (remove_first s (outputs st)); [|discriminate]. simpl.
    destruct (remove_first s (inputs st)); [|discriminate]. simpl.
    destruct (messages st !! s); [|discriminate]. intros [= <-]. simpl.
    split; [apply lookup_delete_eq|]. apply elem_of_app. right. left.
  - simpl. destruct (remove_first s (inputs st)); [|discriminate]. simpl.
    destruct (messages st !! s); [|discriminate]. intros [= <-]. simpl.
    split; [apply lookup_delete_eq|]. apply elem_of_app. right. left.
Qed.

Lemma handle_read_eof_unregisters (listener : nat) (t : Tick)
  (st st' : State) (input : nat) :
  input <> listener ->
  recv_of t input = RecvData EmptyString ->
  handle_read listener t input st = Ok tt st' ->
  messages st' !! input = None /\ EvClose input ∈ trace st'.
Proof.
  intros Hne Hrecv Hread. unfold handle_read in Hread.
  rewrite decide_False in Hread by exact Hne.
  unfold recv in Hread. rewrite Hrecv in Hread.
  unfold bind at 1 in Hread. unfold bind at 1 in Hread.
  unfold emit at 1 in Hread. unfold ret at 1 in Hread. simpl in Hread.
  by apply teardown_unregisters in Hread.
Qed.

(** C10: in the writable pass a socket without a registry entry is
    skipped: the handler returns normally and the state, trace included, is
    the one it started from, so nothing was sent, nothing was raised and
    neither the interest sets nor the registry changed; a writable pass over
    such sockets only is a no-op.  (A socket torn down at end of file by the
    readable pass of the same iteration has no entry:
    [handle_read_eof_unregisters].) *)
Theorem writable_unregistered_socket_skipped (listener : nat) (t : Tick)
  (st : State) (output : nat) :
  messages st !! output = None ->
  handle_write listener t output st = Ok tt st /\
  sent output (trace (state_of (handle_write listener t output st)))
    = sent output (trace st) /\
  forall writes,
    (forall s, s ∈ writes -> messages st !! s = None) ->
    for_each (handle_write listener t) writes st = Ok tt st.
Proof.
  intros Hnone.
  assert (Hskip : forall s, messages st !! s = None ->
                            handle_write listener t s st = Ok tt st).
  { intros s Hs. unfold handle_write. py_unfold. rewrite Hs.
    rewrite bool_decide_eq_false_2; [reflexivity|].
    intros [? ?]; discriminate. }
  split; [by apply Hskip|]. split; [by rewrite Hskip|].
  intros writes. induction writes as [|s writes IH]; intros Hall.
  - reflexivity.
  - rewrite for_each_cons, Hskip by (apply Hall; left).
    apply IH. intros s' Hs'. apply Hall. by right.
Qed.

Lemma writable_unregistered_socket_skipped_witness :
  messages one_closed !! 1 = None /\
  handle_write 0 (writable_tick 1) 1 one_closed = Ok tt one_closed.
Proof.
  assert (Hnone : messages one_closed !! 1 = None)
    by (vm_compute; reflexivity).
  split; [exact Hnone|].
  exact (proj1 (writable_unregistered_socket_skipped 0 (writable_tick 1)
                  one_closed 1 Hnone)).
Defined.

(** The whole iteration in which the peer of connection 1 closed while the
    poll also reported it writable: the loop keeps running. *)
Example eof_and_writable_same_tick :
  exists st, server 0 None 2 [connect_tick 0; eof_and_writable_tick 1]
             = StillRunning st /\
             inputs st = [0] /\ outputs st = [] /\ messages st = ∅ /\
             sent 1 (trace st) = [].
Proof. eexists. split; [vm_compute; reflexivity|]. by vm_compute. Qed.

(** ** The drain pass *)

Lemma drain_ext_refl (c : nat) (st : State) : drain_ext c st st.
Proof.
  repeat split; try done. exists []. split; [by rewrite app_nil_r|constructor].
Qed.

Lemma drain_ext_trans (c : nat) (st1 st2 st3 : State) :
  drain_ext c st1 st2 -> drain_ext c st2 st3 -> drain_ext c st1 st3.
Proof.
  intros (Hi & Ho & Hn & Hm & tl & Ht & Hf) (Hi' & Ho' & Hn' & Hm' & tl' & Ht' & Hf').
  repeat split; try congruence.
  - intros c' Hc'. rewrite Hm', Hm; done.
  - exists (tl ++ tl'). split; [by rewrite Ht', Ht, app_assoc|].
    by apply Forall_app.
Qed.

Lemma drain_ext_set_emit (c : nat) (st : State) (q : list string)
  (ev : Event) :
  ev = EvSleep \/ ev = EvClose c \/ (exists m, ev = EvSend c m) ->
  drain_ext c st (mkState (inputs st) (outputs st) (<[c := q]> (messages st))
                          (next_sock st) (trace st ++ [ev])).
Proof.
  intros Hev. repeat split; simpl; try done.
  - intros c' Hc'. by apply lookup_insert_ne.
  - exists [ev]. split; [done|]. constructor; [exact Hev|constructor].
Qed.

Lemma drain_ext_calls (c : nat) (st st' : State) (tail : list Event) :
  inputs st' = inputs st ->
  outputs st' = outputs st ->
  next_sock st' = next_sock st ->
  messages st' = messages st ->
  trace st' = trace st ++ tail ->
  Forall (fun ev => ev = EvSleep \/ ev = EvClose c \/
                    exists m, ev = EvSend c m) tail ->
  drain_ext c st st'.
Proof.
  intros Hi Ho Hn Hm Ht Hf. repeat split; try done.
  - intros c' _. by rewrite Hm.
  - by exists tail.
Qed.

(** The [while True] loop ends normally or with the [socket.error] of a
    send, and touches nothing but the socket it drains. *)
Lemma drain_queue_outcome (t : Tick) (c k : nat) (q : list string)
  (st : State) :
  exists st',
    (drain_queue t c k q st = Ok tt st' \/
     exists errno, drain_queue t c k q st = Raise (SocketError errno) st') /\
    drain_ext c st st'.
Proof.
  revert k st. induction q as [|m q IH]; intros k st; simpl.
  - exists st. split; [by left|apply drain_ext_refl].
  - py_unfold. simpl.
    set (st1 := mkState (inputs st) (outputs st) (<[c := q]> (messages st))
                        (next_sock st) (trace st ++ [EvSend c m])).
    assert (H1 : drain_ext c st st1).
    { apply drain_ext_set_emit. right; right. by eexists. }
    destruct (drain_send_of t c k) as [|errno].
    + destruct (IH (S k) st1) as (st' & Hres & Hext).
      exists st'. split; [exact Hres|]. by eapply drain_ext_trans.
    + exists st1. split; [right; by eexists|exact H1].
Qed.

(** When every send goes through, the whole queue is sent, oldest first. *)
Lemma drain_queue_all_sent (t : Tick) (c k : nat) (q : list string)
  (st : State) :
  messages st !! c = Some q ->
  (forall i, i < length q -> drain_send_of t c (k + i) = SendOk) ->
  drain_queue t c k q st =
    Ok tt (mkState (inputs st) (outputs st) (<[c := []]> (messages st))
                   (next_sock st) (trace st ++ map (EvSend c) q)).
Proof.
  revert k st. induction q as [|m q IH]; intros k st Hq Hsend; simpl.
  - unfold ret. rewrite app_nil_r, insert_id by exact Hq. by destruct st.
  - py_unfold. simpl.
    assert (Hk : drain_send_of t c k = SendOk).
    { rewrite <- (Nat.add_0_r k). apply Hsend. simpl. lia. }
    rewrite Hk, IH; simpl.
    + by rewrite insert_insert_eq, <- app_assoc.
    + apply lookup_insert_eq.
    + intros i Hi. change (S k + i) with (S (k + i)).
      rewrite <- Nat.add_succ_r. apply Hsend. simpl. lia.
Qed.

(** The per-connection [try] never lets an exception out, and its last
    call is the [close] of the [finally] clause. *)
Lemma drain_client_closes (t : Tick) (c : nat) (st : State) :
  exists st' tr,
    drain_client t c st = Ok tt st' /\
    drain_ext c st st' /\
    trace st' = tr ++ [EvClose c].
Proof.
  unfold drain_client. py_unfold.
  destruct (messages st !! c) as [q|] eqn:Hq.
  - rewrite bool_decide_eq_true_2 by (by eexists). simpl. rewrite ?Hq.
    destruct (drain_queue_outcome t c 0 q st)
      as (st1 & [Hok|[errno Herr]] & Hext).
    + rewrite Hok. simpl. eexists _, _. split; [reflexivity|].
      split; [|reflexivity].
      eapply drain_ext_trans; [exact Hext|].
      apply (drain_ext_calls c st1 _ [EvSleep; EvClose c]); simpl;
        try reflexivity.
      * by rewrite <- app_assoc.
      * constructor; [by left|]. constructor; [right; by left|constructor].
    + rewrite Herr. simpl. eexists _, _. split; [reflexivity|].
      split; [|reflexivity].
      eapply drain_ext_trans; [exact Hext|].
      apply (drain_ext_calls c st1 _ [EvClose c]); simpl; try reflexivity.
      constructor; [right; by left|constructor].
  - rewrite bool_decide_eq_false_2 by (intros [? ?]; discriminate).
    simpl. eexists _, _. split; [reflexivity|]. split; [|reflexivity].
    apply (drain_ext_calls c st _ [EvClose c]); simpl; try reflexivity.
    constructor; [right; by left|constructor].
Qed.

Lemma drain_ext_drained (c : nat) (st st' : State) :
  drain_ext c st st' -> drained st st'.
Proof.
  intros (Hi & _ & _ & _ & tl & Ht & Hf). split; [done|].
  exists tl. split; [done|]. eapply Forall_impl; [exact Hf|].
  intros ev [->|[->|[m ->]]]; reflexivity.
Qed.

Lemma drained_trans (st1 st2 st3 : State) :
  drained st1 st2 -> drained st2 st3 -> drained st1 st3.
Proof.
  intros (Hi & tl & Ht & Hf) (Hi' & tl' & Ht' & Hf'). split; [congruence|].
  exists (tl ++ tl'). split; [by rewrite Ht', Ht, app_assoc|].
  by apply Forall_app.
Qed.

Lemma drained_refl (st : State) : drained st st.
Proof. split; [done|]. exists []. by rewrite app_nil_r. Qed.

Lemma drained_keeps_events (st st' : State) (ev : Event) :
  drained st st' -> ev ∈ trace st -> ev ∈ trace st'.
Proof.
  intros (_ & tl & -> & _) Hin. apply elem_of_app. by left.
Qed.

(** The pass over [inputs] always completes, by drain calls only, and
    closes every socket it visits other than the listener. *)
Lemma drain_pass_total (listener : nat) (t : Tick) (l : list nat)
  (st : State) :
  exists st',
    for_each (drain_body listener t) l st = Ok tt st' /\
    drained st st' /\
    forall c, c ∈ l -> c <> listener -> EvClose c ∈ trace st'.
Proof.
  revert st. induction l as [|c l IH]; intros st.
  - exists st. split; [reflexivity|]. split; [apply drained_refl|].
    by intros c ?%elem_of_nil.
  - rewrite for_each_cons. unfold drain_body at 1.
    destruct (decide (c = listener)) as [->|Hne].
    + unfold ret. destruct (IH st) as (st' & Hrun & Hdr & Hcl).
      exists st'. split; [exact Hrun|]. split; [exact Hdr|].
      intros c [->|Hc]%elem_of_cons Hc'; [done|by apply Hcl].
    + destruct (drain_client_closes t c st) as (st1 & tr & Hrun1 & Hext & Htr).
      rewrite Hrun1. destruct (IH st1) as (st' & Hrun & Hdr & Hcl).
      exists st'. split; [exact Hrun|]. split.
      * eapply drained_trans; [by eapply drain_ext_drained|exact Hdr].
      * intros c' [->|Hc]%elem_of_cons Hc'; [|by apply Hcl].
        eapply drained_keeps_events; [exact Hdr|]. rewrite Htr.
        apply elem_of_app. right. left.
Qed.

Lemma drain_unfold (listener : nat) (t : Tick) (st : State) :
  drain listener t st = for_each (drain_body listener t) (inputs st) st.
Proof. reflexivity. Qed.

Lemma server_loop_draining (listener : nat) (t : Tick) (rest : list Tick)
  (st st1 : State) :
  iteration listener t st = (DRAINING, st1) ->
  server_loop listener (t :: rest) st =
    match drain listener t st1 with
    | Ok _ st2 => Returned true st2
    | Raise e st2 => Escaped e st2
    end.
Proof. intros Hit. simpl. rewrite Hit. reflexivity. Qed.

Lemma interrupt_starts_drain (listener : nat) (t : Tick) (st : State) :
  sel t = SelRaise KeyboardInterrupt ->
  iteration listener t st = (DRAINING, after_poll st).
Proof.
  intros Hsel. unfold iteration, inner_try.
  by rewrite (tick_body_poll_raises listener t st _ Hsel).
Qed.

(** C3: once the body of an iteration raises [KeyboardInterrupt] (the
    external interrupt) or [StopIteration] (the [stop] command), the loop is
    in [DRAINING] and [server] returns [True], whatever the registry holds
    and whatever the drain sends do; every socket of [inputs] other than the
    listener has been closed by then; and the drain of one connection ends
    with its [close] in any state, after a failed send too. *)
Theorem shutdown_returns_true_and_closes (listener : nat) (t : Tick)
  (rest : list Tick) (st st1 : State) (e : exn) :
  tick_body listener t st = Raise e st1 ->
  e = KeyboardInterrupt \/ e = StopIteration ->
  iteration listener t st = (DRAINING, st1) /\
  (exists st2,
     server_loop listener (t :: rest) st = Returned true st2 /\
     drained st1 st2 /\
     forall c, c ∈ inputs st1 -> c <> listener -> EvClose c ∈ trace st2) /\
  (forall c st', exists st'' tr,
     drain_client t c st' = Ok tt st'' /\ trace st'' = tr ++ [EvClose c]).
Proof.
  intros Hbody He.
  assert (Hit : iteration listener t st = (DRAINING, st1)).
  { unfold iteration, inner_try. rewrite Hbody.
    destruct He as [-> | ->]; reflexivity. }
  split; [exact Hit|]. split.
  - destruct (drain_pass_total listener t (inputs st1) st1)
      as (st2 & Hrun & Hdr & Hcl).
    exists st2. split; [|split; [exact Hdr|exact Hcl]].
    rewrite (server_loop_draining listener t rest st st1 Hit).
    rewrite drain_unfold, Hrun. reflexivity.
  - intros c st'. destruct (drain_client_closes t c st')
      as (st'' & tr & Hrun & _ & Htr).
    by exists st'', tr.
Qed.

Lemma shutdown_returns_true_and_closes_witness :
  tick_body 0 (stop_tick 2 1) two_clients
    = Raise StopIteration stopping_lossy /\
  (StopIteration = KeyboardInterrupt \/ StopIteration = StopIteration) /\
  drain_send_of (stop_tick 2 1) 1 0 = SendErr 104%Z /\
  exists st2,
    server_loop 0 [stop_tick 2 1] two_clients = Returned true st2 /\
    EvClose 1 ∈ trace st2 /\ EvClose 2 ∈ trace st2.
Proof.
  assert (Hbody : tick_body 0 (stop_tick 2 1) two_clients
                  = Raise StopIteration stopping_lossy)
    by (vm_compute; reflexivity).
  split; [exact Hbody|]. split; [by right|]. split; [reflexivity|].
  destruct (shutdown_returns_true_and_closes 0 (stop_tick 2 1) [] two_clients
              stopping_lossy StopIteration Hbody (or_intror eq_refl))
    as (_ & (st2 & Hrun & _ & Hcl) & _).
  exists st2. split; [exact Hrun|].
  assert (H1 : 1 ∈ inputs stopping_lossy).
  { apply (bool_decide_unpack _). vm_compute. exact I. }
  assert (H2 : 2 ∈ inputs stopping_lossy).
  { apply (bool_decide_unpack _). vm_compute. exact I. }
  split; [apply (Hcl 1 H1)|apply (Hcl 2 H2)]; lia.
Defined.

Lemma sent_map_send (c : nat) (q : list string) :
  sent c (map (EvSend c) q) = q.
Proof.
  induction q as [|m q IH]; [reflexivity|]. simpl.
  rewrite decide_True by reflexivity. simpl. by f_equal.
Qed.

Lemma sent_drain_ext_other (c c' : nat) (st st' : State) :
  drain_ext c st st' -> c <> c' ->
  sent c' (trace st') = sent c' (trace st).
Proof.
  intros (_ & _ & _ & _ & tl & -> & Hf) Hne. rewrite sent_app.
  assert (Htl : sent c' tl = []).
  { induction Hf as [|ev tl Hev _ IH]; [reflexivity|]. simpl.
    destruct Hev as [->|[->|[m ->]]]; simpl; try exact IH.
    rewrite decide_False by exact Hne. exact IH. }
  by rewrite Htl, app_nil_r.
Qed.

Lemma drain_client_all_sent (t : Tick) (c : nat) (q : list string)
  (st : State) :
  messages st !! c = Some q ->
  (forall i, i < length q -> drain_send_of t c i = SendOk) ->
  drain_client t c st =
    Ok tt (mkState (inputs st) (outputs st) (<[c := []]> (messages st))
                   (next_sock st)
                   (trace st ++ map (EvSend c) q ++ [EvSleep; EvClose c])).
Proof.
  intros Hq Hsend. unfold drain_client. py_unfold.
  rewrite bool_decide_eq_true_2 by (by eexists). simpl. rewrite Hq.
  rewrite (drain_queue_all_sent t c 0 q st Hq Hsend). simpl.
  by rewrite <- !app_assoc.
Qed.

(** The pass over a list [l] of sockets sends the whole queue of [c], in
    order, if [c] is in [l], and leaves [c] alone otherwise. *)
Lemma drain_pass_sends_queue (listener : nat) (t : Tick) (c : nat)
  (l : list nat) (q : list string) (st : State) :
  c <> listener ->
  messages st !! c = Some q ->
  (forall i, i < length q -> drain_send_of t c i = SendOk) ->
  exists st',
    for_each (drain_body listener t) l st = Ok tt st' /\
    if decide (c ∈ l)
    then sent c (trace st') = sent c (trace st) ++ q /\
         messages st' !! c = Some []
    else sent c (trace st') = sent c (trace st) /\
         messages st' !! c = Some q.
Proof.
  intros Hne. revert q st. induction l as [|x l IH]; intros q st Hq Hsend.
  - exists st. split; [reflexivity|].
    rewrite decide_False by apply not_elem_of_nil. done.
  - rewrite for_each_cons. unfold drain_body at 1.
    destruct (decide (x = listener)) as [->|Hx].
    + unfold ret. destruct (IH q st Hq Hsend) as (st' & Hrun & Hres).
      exists st'. split; [exact Hrun|].
      destruct (decide (c ∈ l)) as [Hin|Hnin].
      * rewrite decide_True by (by right). exact Hres.
      * rewrite decide_False; [exact Hres|].
        intros [?|?]%elem_of_cons; done.
    + destruct (decide (x = c)) as [->|Hxc].
      * rewrite (drain_client_all_sent t c q st Hq Hsend).
        set (st1 := mkState _ _ _ _ _).
        assert (Hq1 : messages st1 !! c = Some []) by apply lookup_insert_eq.
        destruct (IH [] st1 Hq1) as (st' & Hrun & Hres).
        { simpl. intros i Hi. lia. }
        exists st'. split; [exact Hrun|].
        rewrite decide_True by left.
        assert (Hs1 : sent c (trace st1) = sent c (trace st) ++ q).
        { unfold st1. simpl. rewrite !sent_app, sent_map_send. simpl.
          by rewrite app_nil_r. }
        destruct (decide (c ∈ l)); destruct Hres as [Hs Hm].
        -- split; [|exact Hm]. by rewrite Hs, Hs1, app_nil_r.
        -- split; [|exact Hm]. by rewrite Hs, Hs1.
      * destruct (drain_client_closes t x st) as (st1 & tr & Hrun1 & Hext & _).
        rewrite Hrun1.
        assert (Hq1 : messages st1 !! c = Some q).
        { destruct Hext as (_ & _ & _ & Hm & _). rewrite Hm; [exact Hq|].
          congruence. }
        destruct (IH q st1 Hq1 Hsend) as (st' & Hrun & Hres).
        exists st'. split; [exact Hrun|].
        rewrite <- (sent_drain_ext_other x c st st1 Hext Hxc).
        destruct (decide (c ∈ l)) as [Hin|Hnin].
        -- rewrite decide_True by (by right). exact Hres.
        -- rewrite decide_False; [exact Hres|].
           intros [?|?]%elem_of_cons; [congruence|done].
Qed.

(** C4: when the drain begins in state [st1], a connection of [inputs]
    with queue [q] whose drain sends all succeed gets exactly [q] sent, oldest
    chunk first, before [server] returns, and its queue ends empty; the drain
    makes send, sleep and close calls only, so it never polls again. *)
Theorem drain_sends_whole_queue (listener : nat) (t : Tick)
  (rest : list Tick) (st st1 : State) (c : nat) (q : list string) :
  iteration listener t st = (DRAINING, st1) ->
  c ∈ inputs st1 ->
  c <> listener ->
  messages st1 !! c = Some q ->
  (forall i, i < length q -> drain_send_of t c i = SendOk) ->
  exists st2 tail,
    server_loop listener (t :: rest) st = Returned true st2 /\
    trace st2 = trace st1 ++ tail /\
    sent c tail = q /\
    messages st2 !! c = Some [] /\
    Forall (fun ev => drain_event ev = true) tail /\
    (EvSelect ∉ tail).
Proof.
  intros Hit Hin Hne Hq Hsend.
  destruct (drain_pass_sends_queue listener t c (inputs st1) q st1 Hne Hq Hsend)
    as (st2 & Hrun & Hres).
  rewrite decide_True in Hres by exact Hin. destruct Hres as [Hsent Hm].
  destruct (drain_pass_total listener t (inputs st1) st1)
    as (st2' & Hrun' & (_ & tail & Htr & Hf) & _).
  rewrite Hrun in Hrun'. injection Hrun' as <-.
  exists st2, tail. split.
  { rewrite (server_loop_draining listener t rest st st1 Hit).
    by rewrite drain_unfold, Hrun. }
  split; [exact Htr|]. split.
  { rewrite Htr, sent_app in Hsent. by apply app_inv_head in Hsent. }
  split; [exact Hm|]. split; [exact Hf|].
  intros Hsel. rewrite Forall_forall in Hf. apply Hf in Hsel. discriminate.
Qed.

Lemma drain_sends_whole_queue_witness :
  iteration 0 (data_tick 2 stop_command) two_clients = (DRAINING, stopping) /\
  1 ∈ inputs stopping /\
  1 <> 0 /\
  messages stopping !! 1 = Some ["a"; "b"]%string /\
  (forall i, i < 2 -> drain_send_of (data_tick 2 stop_command) 1 i = SendOk) /\
  exists st2 tail,
    server_loop 0 [data_tick 2 stop_command] two_clients
      = Returned true st2 /\
    trace st2 = trace stopping ++ tail /\
    sent 1 tail = ["a"; "b"]%string /\
    messages st2 !! 1 = Some [].
Proof.
  assert (Hit : iteration 0 (data_tick 2 stop_command) two_clients
                = (DRAINING, stopping)) by (vm_compute; reflexivity).
  assert (Hin : 1 ∈ inputs stopping).
  { apply (bool_decide_unpack _). vm_compute. exact I. }
  assert (Hne : 1 <> 0) by lia.
  assert (Hq : messages stopping !! 1 = Some ["a"; "b"]%string)
    by (vm_compute; reflexivity).
  assert (Hsend : forall i, i < 2 ->
                    drain_send_of (data_tick 2 stop_command) 1 i = SendOk)
    by (intros i _; reflexivity).
  split; [exact Hit|]. split; [exact Hin|]. split; [exact Hne|].
  split; [exact Hq|]. split; [exact Hsend|].
  destruct (drain_sends_whole_queue 0 (data_tick 2 stop_command) []
              two_clients stopping 1 ["a"; "b"]%string Hit Hin Hne Hq Hsend)
    as (st2 & tail & Hrun & Htr & Hs & Hm & _).
  exists st2, tail.
  split; [exact Hrun|]. split; [exact Htr|]. split; [exact Hs|exact Hm].
Defined.

(** ** The handlers refine the step relation *)

Lemma is_closed_app_false (s : nat) (tr tl : list Event) :
  is_closed s (tr ++ tl) = false -> EvClose s ∉ tr.
Proof.
  unfold is_closed. intros H%bool_decide_eq_false Hin. apply H.
  apply elem_of_app. by left.
Qed.

Lemma teardown_Ok (listener : nat) (t : Tick) (s : nat) (st st' : State) :
  teardown listener t s st = Ok tt st' ->
  s <> listener /\ (EvClose s ∉ trace st) /\
  exists ins outs,
    remove_first s (inputs st) = Some ins /\
    (if bool_decide (s ∈ outputs st)
     then remove_first s (outputs st) = Some outs
     else outs = outputs st) /\
    is_Some (messages st !! s) /\
    st' = mkState ins outs (delete s (messages st)) (next_sock st)
                  (trace st ++ [EvClose s]).
Proof.
  unfold teardown. py_unfold.
  destruct (is_closed s (trace st)) eqn:Hcl; [discriminate|].
  destruct (decide (s = listener)) as [|Hne]; [discriminate|].
  destruct (peername_of t s); [|discriminate].
  apply bool_decide_eq_false in Hcl.
  destruct (bool_decide (s ∈ outputs st)) eqn:Hout; simpl.
  - destruct (remove_first s (outputs st)) as [outs|] eqn:Hro; [|discriminate].
    simpl. destruct (remove_first s (inputs st)) as [ins|] eqn:Hri;
      [|discriminate]. simpl.
    destruct (messages st !! s) as [q|] eqn:Hq; [|discriminate].
    intros [= <-]. split; [done|]. split; [done|]. exists ins, outs.
    repeat split; try done; by eexists.
  - destruct (remove_first s (inputs st)) as [ins|] eqn:Hri; [|discriminate].
    simpl. destruct (messages st !! s) as [q|] eqn:Hq; [|discriminate].
    intros [= <-]. split; [done|]. split; [done|]. exists ins, (outputs st).
    repeat split; try done; by eexists.
Qed.

Lemma handle_error_step (listener : nat) (t : Tick) (s : nat)
  (st st' : State) :
  handle_error listener t s st = Ok tt st' -> loop_step listener st st'.
Proof.
  intros (Hne & Hopen & ins & outs & Hri & Hro & Hq & ->)%teardown_Ok.
  apply (step_teardown listener st s ins outs []); auto.
Qed.

Lemma handle_read_step (listener : nat) (t : Tick) (input : nat)
  (st st' : State) :
  handle_read listener t input st = Ok tt st' -> loop_step listener st st'.
Proof.
  destruct (decide (input = listener)) as [->|Hne].
  - destruct (accept_of t) eqn:Hacc.
    + rewrite handle_read_listener by exact Hacc. intros [= <-]. constructor.
    + unfold handle_read. rewrite decide_True by reflexivity.
      unfold accept, bind. rewrite Hacc. discriminate.
  - unfold handle_read. rewrite decide_False by exact Hne.
    unfold recv. destruct (recv_of t input) as [data|errno] eqn:Hrecv.
    2:{ unfold bind, raise. discriminate. }
    unfold bind at 1. unfold bind at 1. unfold emit at 1. unfold ret at 1.
    set (st0 := mkState _ _ _ _ _).
    destruct (String.eqb_spec data EmptyString) as [->|Hdata]; simpl.
    + intros (_ & Hopen & ins & outs & Hri & Hro & Hq & ->)%teardown_Ok.
      simpl in *. rewrite <- app_assoc.
      apply (step_teardown listener st input ins outs
               [EvRecv input EmptyString]); auto.
      intros Hin. apply Hopen. apply elem_of_app. by left.
    + unfold bind at 1. unfold getpeername.
      destruct (is_closed input (trace st0)) eqn:Hcl; [discriminate|].
      rewrite decide_False by exact Hne.
      apply is_closed_app_false in Hcl.
      destruct (peername_of t input); [|discriminate].
      destruct (String.eqb_spec data stop_command) as [->|Hstop].
      * py_unfold. simpl. destruct (messages st !! input); discriminate.
      * py_unfold. simpl.
        destruct (messages st !! input) as [q|] eqn:Hq.
        2:{ destruct (bool_decide (input ∈ outputs st)); simpl;
              rewrite Hq; discriminate. }
        destruct (bool_decide (input ∈ outputs st)) eqn:Hout; simpl;
          rewrite Hq; intros [= <-].
        -- pose proof (step_data listener st input data q Hne Hq Hdata Hstop
                         Hcl) as Hstep.
           rewrite Hout in Hstep. exact Hstep.
        -- pose proof (step_data listener st input data q Hne Hq Hdata Hstop
                         Hcl) as Hstep.
           rewrite Hout in Hstep. exact Hstep.
Qed.

Lemma handle_write_step (listener : nat) (t : Tick) (output : nat)
  (st st' : State) :
  handle_write listener t output st = Ok tt st' ->
  st' = st \/ loop_step listener st st'.
Proof.
  destruct (messages st !! output) as [q|] eqn:Hq.
  2:{ rewrite handle_write_unregistered by exact Hq. intros [= <-]. by left. }
  unfold handle_write. py_unfold. rewrite Hq.
  rewrite bool_decide_eq_true_2 by (by eexists). simpl. rewrite ?Hq.
  destruct q as [|m q']; simpl.
  - destruct (remove_first output (outputs st)) as [outs|] eqn:Hro;
      [|discriminate].
    intros [= <-]. right. by apply (step_idle listener st output outs).
  - destruct (is_closed output (trace st)) eqn:Hcl; [discriminate|].
    destruct (decide (output = listener)) as [|Hne]; [discriminate|]. simpl.
    destruct (peername_of t output); [|discriminate].
    destruct (send_of t output); [|discriminate]. intros [= <-]. right.
    apply step_send; try done. by apply bool_decide_eq_false in Hcl.
Qed.

Lemma for_each_steps {A} (R : relation State) (body : A -> M unit)
  (xs : list A) (st st' : State) :
  (forall x s s', body x s = Ok tt s' -> rtc R s s') ->
  for_each body xs st = Ok tt st' -> rtc R st st'.
Proof.
  intros Hbody. revert st. induction xs as [|x xs IH]; intros st.
  - intros [= <-]. apply rtc_refl.
  - rewrite for_each_cons. destruct (body x st) as [[] st1|] eqn:Hx;
      [|discriminate].
    intros Hrest. etrans; [by eapply Hbody|by apply IH].
Qed.

Lemma for_each_raises {A} (P : exn -> Prop) (body : A -> M unit)
  (xs : list A) (st st' : State) (e : exn) :
  (forall x s s' e', body x s = Raise e' s' -> P e') ->
  for_each body xs st = Raise e st' -> P e.
Proof.
  intros Hbody. revert st. induction xs as [|x xs IH]; intros st.
  - discriminate.
  - rewrite for_each_cons. destruct (body x st) as [[] st1|e1 st1] eqn:Hx.
    + apply IH.
    + intros [= <- <-]. by eapply Hbody.
Qed.

(** ** What the handlers raise *)

Ltac raise_cases H :=
  py_unfold; simpl in H;
  repeat (case_match; simplify_eq/=; try done).

Lemma handle_read_raises (listener : nat) (t : Tick) (input : nat)
  (st st' : State) (e : exn) :
  handle_read listener t input st = Raise e st' -> handler_exn e.
Proof. unfold handle_read. intros H. raise_cases H. Qed.

Lemma handle_write_raises (listener : nat) (t : Tick) (output : nat)
  (st st' : State) (e : exn) :
  handle_write listener t output st = Raise e st' -> handler_exn e.
Proof. unfold handle_write. intros H. raise_cases H. Qed.

Lemma handle_error_raises (listener : nat) (t : Tick) (s : nat)
  (st st' : State) (e : exn) :
  handle_error listener t s st = Raise e st' -> handler_exn e.
Proof. unfold handle_error. intros H. raise_cases H. Qed.

(** ** One iteration as a sequence of steps *)

Lemma tick_body_ready (listener : nat) (t : Tick) (st : State)
  (reads writes errors : list nat) :
  sel t = SelReady reads writes errors ->
  tick_body listener t st =
    (for_each (handle_read listener t) reads ;;;
     for_each (handle_write listener t) writes ;;;
     for_each (handle_error listener t) errors)%py (after_poll st).
Proof.
  intros Hsel. unfold tick_body, select.
  unfold bind at 1. unfold bind at 1. unfold emit at 1. rewrite Hsel.
  unfold ret at 1. fold (after_poll st).
  destruct reads, writes, errors; reflexivity.
Qed.

Lemma tick_body_Ok_steps (listener : nat) (t : Tick) (st st' : State) :
  tick_body listener t st = Ok tt st' -> rtc (loop_step listener) st st'.
Proof.
  destruct (sel t) as [reads writes errors|e] eqn:Hsel.
  2:{ rewrite (tick_body_poll_raises listener t st e Hsel). discriminate. }
  rewrite (tick_body_ready listener t st reads writes errors Hsel).
  unfold bind.
  destruct (for_each (handle_read listener t) reads (after_poll st))
    as [[] st1|] eqn:Hr; [|discriminate].
  destruct (for_each (handle_write listener t) writes st1)
    as [[] st2|] eqn:Hw; [|discriminate].
  intros He.
  eapply rtc_l; [apply step_poll|].
  etrans; [|etrans].
  - eapply for_each_steps; [|exact Hr].
    intros x s s' Hx. apply rtc_once. by eapply handle_read_step.
  - eapply for_each_steps; [|exact Hw].
    intros x s s' Hx. apply handle_write_step in Hx as [->|Hx];
      [apply rtc_refl|by apply rtc_once].
  - eapply for_each_steps; [|exact He].
    intros x s s' Hx. apply rtc_once. by eapply handle_error_step.
Qed.

Lemma tick_body_raise_cases (listener : nat) (t : Tick) (st st' : State)
  (e : exn) :
  tick_body listener t st = Raise e st' ->
  (sel t = SelRaise e /\ st' = after_poll st) \/ handler_exn e.
Proof.
  destruct (sel t) as [reads writes errors|e0] eqn:Hsel.
  - rewrite (tick_body_ready listener t st reads writes errors Hsel).
    unfold bind. intros H. right.
    destruct (for_each (handle_read listener t) reads (after_poll st))
      as [[] st1|e1 st1] eqn:Hr.
    2:{ injection H as <- <-. eapply for_each_raises; [|exact Hr].
        intros x s s' e'. apply handle_read_raises. }
    destruct (for_each (handle_write listener t) writes st1)
      as [[] st2|e2 st2] eqn:Hw.
    2:{ injection H as <- <-. eapply for_each_raises; [|exact Hw].
        intros x s s' e'. apply handle_write_raises. }
    eapply for_each_raises; [|exact H].
    intros x s s' e'. apply handle_error_raises.
  - rewrite (tick_body_poll_raises listener t st e0 Hsel).
    intros [= <- <-]. by left.
Qed.

Lemma iteration_running_steps (listener : nat) (t : Tick) (st st' : State) :
  iteration listener t st = (RUNNING, st') ->
  rtc (loop_step listener) st st'.
Proof.
  unfold iteration, inner_try.
  destruct (tick_body listener t st) as [[] st1|e st1] eqn:Hbody.
  - intros [= <-]. by eapply tick_body_Ok_steps.
  - assert (Hpoll : st1 = after_poll st \/ handler_exn e).
    { apply tick_body_raise_cases in Hbody as [[_ ->]|He]; [by left|by right]. }
    destruct e; simpl; try discriminate.
    + destruct (transient errno); [|discriminate]. intros [= <-].
      destruct Hpoll as [->|[]]. apply rtc_once, step_poll.
    + destruct (transient errno); [|discriminate]. intros [= <-].
      destruct Hpoll as [->|[]]. apply rtc_once, step_poll.
Qed.

Lemma server_loop_running_steps (listener : nat) (script : list Tick)
  (st st' : State) :
  server_loop listener script st = StillRunning st' ->
  rtc (loop_step listener) st st'.
Proof.
  revert st. induction script as [|t rest IH]; intros st; simpl.
  - intros [= <-]. apply rtc_refl.
  - destruct (iteration listener t st) as [[| |b] st1] eqn:Hit.
    + intros Hrest. etrans; [by eapply iteration_running_steps|by apply IH].
    + destruct (drain listener t st1); discriminate.
    + discriminate.
Qed.

(** ** The registry invariant *)

Lemma registry_inv_initial (listener : nat) :
  registry_inv listener (initial listener).
Proof.
  constructor; simpl.
  - apply NoDup_singleton.
  - apply NoDup_nil_2.
  - left.
  - intros s. rewrite lookup_empty, list_elem_of_singleton. split.
    + by intros [? ?].
    + intros [? ?]; done.
  - by intros s ?%elem_of_nil.
  - intros s ->%list_elem_of_singleton. lia.
Qed.

Lemma registry_inv_step (listener : nat) (st st' : State) :
  registry_inv listener st -> loop_step listener st st' ->
  registry_inv listener st'.
Proof.
  intros [Hndi Hndo Hl Hkeys Hout Halloc] Hstep.
  destruct Hstep as [st|st|st input data q Hne Hq Hdata Hstop Hopen
                    |st s ins outs pre Hne Hopen Hri Hro Hq Hpre
                    |st output outs Hq Hro|st output m q' Hne Hopen Hq].
  - by constructor.
  - constructor; simpl.
    + apply NoDup_app. split; [done|]. split; [|apply NoDup_singleton].
      intros x Hx ->%list_elem_of_singleton. apply Halloc in Hx. lia.
    + done.
    + apply elem_of_app. by left.
    + intros s. rewrite lookup_insert_is_Some, elem_of_app, Hkeys,
        list_elem_of_singleton.
      assert (next_sock st <> listener).
      { intros Heq. apply Halloc in Hl. lia. }
      split.
      * intros [<-|[? [? ?]]]; [split; [by right|done]|split; [by left|done]].
      * intros [[?| ->] ?]; [|by left].
        destruct (decide (next_sock st = s)); [by left|right; done].
    + intros s Hs. rewrite lookup_insert_is_Some.
      destruct (decide (next_sock st = s)); [by left|right; auto].
    + intros s [Hs| ->%list_elem_of_singleton]%elem_of_app; [|lia].
      apply Halloc in Hs. lia.
  - assert (Hreg : forall s, is_Some (<[input := q ++ [data]]> (messages st) !! s)
                             <-> is_Some (messages st !! s)).
    { intros s. rewrite lookup_insert_is_Some. split.
      - intros [<-|[_ ?]]; [by eexists|done].
      - intros Hs. destruct (decide (input = s)); [by left|by right]. }
    constructor; simpl; try done.
    + case_bool_decide as Hin; [done|].
      apply NoDup_app. split; [done|]. split; [|apply NoDup_singleton].
      by intros x Hx ->%list_elem_of_singleton.
    + intros s. by rewrite Hreg.
    + intros s Hs. rewrite Hreg. case_bool_decide; [by apply Hout|].
      apply elem_of_app in Hs as [Hs| ->%list_elem_of_singleton];
        [by apply Hout|by eexists].
  - destruct (remove_first_NoDup s (inputs st) ins Hndi Hri) as [Hndi' Hins].
    assert (Houts : NoDup outs /\ forall y, y ∈ outs <-> y ∈ outputs st /\ y <> s).
    { case_bool_decide as Hin.
      - by apply remove_first_NoDup.
      - subst outs. split; [done|]. intros y. split; [|tauto].
        intros Hy. split; [done|]. by intros ->. }
    destruct Houts as [Hndo' Houts].
    constructor; simpl; try done.
    + rewrite Hins. done.
    + intros x. rewrite lookup_delete_is_Some, Hkeys, Hins. split.
      * intros [? [? ?]]. repeat split; done.
      * intros [[? ?] ?]. repeat split; done.
    + intros x [Hx Hxs]%Houts. rewrite lookup_delete_is_Some. split; auto.
    + intros x [Hx _]%Hins. by apply Halloc.
  - destruct (remove_first_NoDup output (outputs st) outs Hndo Hro)
      as [Hndo' Houts].
    constructor; simpl; try done.
    intros x [Hx _]%Houts. by apply Hout.
  - assert (Hreg : forall s, is_Some (<[output := q']> (messages st) !! s)
                             <-> is_Some (messages st !! s)).
    { intros s. rewrite lookup_insert_is_Some. split.
      - intros [<-|[_ ?]]; [by eexists|done].
      - intros Hs. destruct (decide (output = s)); [by left|by right]. }
    constructor; simpl; try done.
    + intros s. by rewrite Hreg.
    + intros s Hs. rewrite Hreg. by apply Hout.
Qed.

(** ** The echo invariant *)

Lemma fresh_no_events (tr : list Event) (n : nat) :
  (forall ev c, ev ∈ tr -> subject ev = Some c -> c < n) ->
  recvd n tr = [] /\ sent n tr = [] /\ EvClose n ∉ tr.
Proof.
  induction tr as [|ev tr IH]; intros Hfresh.
  - repeat split. apply not_elem_of_nil.
  - destruct IH as (Hr & Hs & Hc).
    { intros ev' c Hin. apply Hfresh. by right. }
    assert (Hev : forall c, subject ev = Some c -> c <> n).
    { intros c Hc' ->. specialize (Hfresh ev n (list_elem_of_here _ _) Hc'). lia. }
    split; [|split].
    + simpl. rewrite Hr, app_nil_r. destruct ev; try reflexivity.
      rewrite decide_False; [done|]. by apply Hev.
    + simpl. rewrite Hs, app_nil_r. destruct ev; try reflexivity.
      rewrite decide_False; [done|]. by apply Hev.
    + intros [<-|Hin]%elem_of_cons; [|done]. by apply (Hev n).
Qed.

Lemma fresh_extend (tr tl : list Event) (n n' : nat) :
  (forall ev c, ev ∈ tr -> subject ev = Some c -> c < n) ->
  n <= n' ->
  (forall ev c, ev ∈ tl -> subject ev = Some c -> c < n') ->
  forall ev c, ev ∈ tr ++ tl -> subject ev = Some c -> c < n'.
Proof.
  intros Htr Hle Htl ev c [Hin|Hin]%elem_of_app Hs.
  - specialize (Htr ev c Hin Hs). lia.
  - by apply (Htl ev c).
Qed.

Lemma registered_allocated (listener : nat) (st : State) (c : nat) :
  registry_inv listener st -> is_Some (messages st !! c) ->
  c < next_sock st.
Proof.
  intros [_ _ _ Hkeys _ Halloc] Hc. apply Halloc. by apply Hkeys.
Qed.

Lemma echo_inv_initial (listener : nat) : echo_inv (initial listener).
Proof.
  constructor; simpl.
  - intros c q. by rewrite lookup_empty.
  - intros c. rewrite lookup_empty. by intros [? ?].
  - intros c q. by rewrite lookup_empty.
  - intros c. rewrite lookup_empty. by intros [? ?].
  - intros ev c Hin Hs.
    repeat (apply elem_of_cons in Hin as [->|Hin]; [discriminate|]).
    by apply elem_of_nil in Hin.
Qed.

Lemma echo_inv_poll (st : State) : echo_inv st -> echo_inv (after_poll st).
Proof.
  intros [Hfifo Hstop Hpend Hopen Hfresh]. constructor; simpl.
  - intros c q Hq. rewrite recvd_app, sent_app. simpl.
    rewrite !app_nil_r. by apply Hfifo.
  - intros c Hc. rewrite recvd_app. simpl. rewrite app_nil_r. by apply Hstop.
  - done.
  - intros c Hc [Hin|Hin]%elem_of_app; [by apply (Hopen c)|].
    apply list_elem_of_singleton in Hin. discriminate.
  - apply (fresh_extend _ _ (next_sock st)); [done|lia|].
    intros ev c ->%list_elem_of_singleton. discriminate.
Qed.

Lemma echo_inv_accept (listener : nat) (st : State) :
  registry_inv listener st -> echo_inv st ->
  echo_inv
    (mkState (inputs st ++ [next_sock st]) (outputs st)
             (<[next_sock st := []]> (messages st)) (S (next_sock st))
             (trace st ++ [EvAccept listener (next_sock st);
                           EvCloseOnExec (next_sock st);
                           EvSetBlocking (next_sock st) false])).
Proof.
  intros Hreg [Hfifo Hstop Hpend Hopen Hfresh].
  destruct (fresh_no_events (trace st) (next_sock st) Hfresh)
    as (Hr & Hs & Hc).
  assert (Htail : forall ev, ev ∈ [EvAccept listener (next_sock st);
                                   EvCloseOnExec (next_sock st);
                                   EvSetBlocking (next_sock st) false] ->
                             subject ev = None).
  { intros ev Hin.
    repeat (apply elem_of_cons in Hin as [->|Hin]; [reflexivity|]).
    by apply elem_of_nil in Hin. }
  constructor; simpl.
  - intros c q. rewrite recvd_app, sent_app. simpl. rewrite !app_nil_r.
    destruct (decide (next_sock st = c)) as [<-|Hne].
    + rewrite lookup_insert_eq. intros [= <-]. by rewrite Hr, Hs.
    + rewrite lookup_insert_ne by done. apply Hfifo.
  - intros c. rewrite recvd_app. simpl. rewrite app_nil_r.
    destruct (decide (next_sock st = c)) as [<-|Hne].
    + intros _. rewrite Hr. apply not_elem_of_nil.
    + rewrite lookup_insert_ne by done. apply Hstop.
  - intros c q. destruct (decide (next_sock st = c)) as [<-|Hne].
    + rewrite lookup_insert_eq. by intros [= <-].
    + rewrite lookup_insert_ne by done. apply Hpend.
  - intros c Hc' [Hin|Hin]%elem_of_app.
    + destruct (decide (next_sock st = c)) as [<-|Hne]; [done|].
      rewrite lookup_insert_ne in Hc' by done. by apply (Hopen c).
    + apply Htail in Hin. discriminate.
  - apply (fresh_extend _ _ (next_sock st)); [done|lia|].
    intros ev c Hin%Htail. congruence.
Qed.

Lemma echo_inv_data (listener : nat) (st : State) (input : nat)
  (data : string) (q : list string) :
  registry_inv listener st -> echo_inv st ->
  messages st !! input = Some q ->
  data <> EmptyString ->
  data <> stop_command ->
  echo_inv
    (mkState (inputs st)
             (if bool_decide (input ∈ outputs st) then outputs st
              else outputs st ++ [input])
             (<[input := q ++ [data]]> (messages st)) (next_sock st)
             (trace st ++ [EvRecv input data])).
Proof.
  intros Hreg [Hfifo Hstop Hpend Hopen Hfresh] Hq Hdata Hnstop.
  apply String.eqb_neq in Hdata.
  constructor; simpl.
  - intros c q'. rewrite recvd_app, sent_app. simpl. rewrite !app_nil_r.
    destruct (decide (input = c)) as [<-|Hne].
    + rewrite lookup_insert_eq. intros [= <-]. rewrite Hdata.
      by rewrite (Hfifo input q Hq), app_assoc.
    + rewrite lookup_insert_ne by done. rewrite app_nil_r. apply Hfifo.
  - intros c Hc. rewrite recvd_app. simpl. rewrite app_nil_r.
    destruct (decide (input = c)) as [<-|Hne].
    + rewrite Hdata. intros [Hin|Hin]%elem_of_app.
      * apply (Hstop input); [by eexists|done].
      * apply list_elem_of_singleton in Hin. congruence.
    + rewrite app_nil_r. apply Hstop.
      by rewrite lookup_insert_ne in Hc.
  - intros c q' Hc Hne.
    assert (Hin : c = input \/ c ∈ outputs st).
    { destruct (decide (input = c)) as [<-|Hic]; [by left|right].
      rewrite lookup_insert_ne in Hc by done. by apply (Hpend c q'). }
    case_bool_decide as Hout.
    + destruct Hin as [->|Hin]; done.
    + apply elem_of_app. destruct Hin as [->|Hin]; [right; left|by left].
  - intros c Hc [Hin|Hin]%elem_of_app.
    + apply (Hopen c); [|done]. apply lookup_insert_is_Some in Hc.
      destruct Hc as [<-|[_ Hc]]; [by eexists|done].
    + apply list_elem_of_singleton in Hin. discriminate.
  - apply (fresh_extend _ _ (next_sock st)); [done|lia|].
    intros ev c ->%list_elem_of_singleton [= <-].
    apply (registered_allocated listener); [done|by eexists].
Qed.

Lemma echo_inv_teardown (listener : nat) (st : State) (s : nat)
  (ins outs : list nat) (pre : list Event) :
  registry_inv listener st -> echo_inv st ->
  (if bool_decide (s ∈ outputs st)
   then remove_first s (outputs st) = Some outs
   else outs = outputs st) ->
  is_Some (messages st !! s) ->
  pre = [] \/ pre = [EvRecv s EmptyString] ->
  echo_inv
    (mkState ins outs (delete s (messages st)) (next_sock st)
             (trace st ++ pre ++ [EvClose s])).
Proof.
  intros Hreg [Hfifo Hstop Hpend Hopen Hfresh] Hro Hs Hpre.
  assert (Hr : forall c, recvd c (pre ++ [EvClose s]) = []).
  { intros c. destruct Hpre as [-> | ->]; [reflexivity|]. simpl.
    by destruct (decide (s = c)). }
  assert (Hsn : forall c, sent c (pre ++ [EvClose s]) = []).
  { intros c. by destruct Hpre as [-> | ->]. }
  assert (Hsub : forall ev c, ev ∈ pre ++ [EvClose s] ->
                              subject ev = Some c -> c = s).
  { intros ev c Hin Hc. destruct Hpre as [-> | ->]; simpl in Hin.
    - apply list_elem_of_singleton in Hin as ->. by injection Hc.
    - apply elem_of_cons in Hin as [->|Hin]; [by injection Hc|].
      apply list_elem_of_singleton in Hin as ->. by injection Hc. }
  constructor; simpl.
  - intros c q [Hne Hq]%lookup_delete_Some.
    rewrite recvd_app, sent_app, Hr, Hsn, !app_nil_r. by apply Hfifo.
  - intros c [Hne Hc]%lookup_delete_is_Some.
    rewrite recvd_app, Hr, app_nil_r. by apply Hstop.
  - intros c q [Hne Hq]%lookup_delete_Some Hq'.
    pose proof (Hpend c q Hq Hq') as Hin.
    case_bool_decide as Hout; [|by subst outs].
    apply remove_first_Some in Hro as (_ & _ & Hkeep). apply Hkeep; done.
  - intros c [Hne Hc]%lookup_delete_is_Some [Hin|Hin]%elem_of_app.
    + by apply (Hopen c).
    + apply (Hsub _ c) in Hin; done.
  - apply (fresh_extend _ _ (next_sock st)); [done|lia|].
    intros ev c Hin Hc. apply (Hsub _ c) in Hin as ->; [|done].
    by apply (registered_allocated listener).
Qed.

Lemma echo_inv_idle (st : State) (output : nat) (outs : list nat) :
  echo_inv st ->
  messages st !! output = Some [] ->
  remove_first output (outputs st) = Some outs ->
  echo_inv (mkState (inputs st) outs (messages st) (next_sock st) (trace st)).
Proof.
  intros [Hfifo Hstop Hpend Hopen Hfresh] Hq Hro.
  constructor; simpl; try done.
  intros c q Hc Hne. apply remove_first_Some in Hro as (_ & _ & Hkeep).
  apply Hkeep; [by apply (Hpend c q)|]. intros ->. congruence.
Qed.

Lemma echo_inv_send (listener : nat) (st : State) (output : nat)
  (m : string) (q' : list string) :
  registry_inv listener st -> echo_inv st ->
  messages st !! output = Some (m :: q') ->
  echo_inv
    (mkState (inputs st) (outputs st) (<[output := q']> (messages st))
             (next_sock st) (trace st ++ [EvSend output m])).
Proof.
  intros Hreg [Hfifo Hstop Hpend Hopen Hfresh] Hq.
  assert (Hsome : forall c, is_Some (<[output := q']> (messages st) !! c) ->
                            is_Some (messages st !! c)).
  { intros c [<-|[_ Hc]]%lookup_insert_is_Some; [by eexists|done]. }
  constructor; simpl.
  - intros c q. rewrite recvd_app, sent_app. simpl. rewrite !app_nil_r.
    destruct (decide (output = c)) as [<-|Hne].
    + rewrite lookup_insert_eq. intros [= <-].
      by rewrite (Hfifo output _ Hq), <- app_assoc.
    + rewrite lookup_insert_ne by done. rewrite app_nil_r. apply Hfifo.
  - intros c Hc%Hsome. rewrite recvd_app. simpl. rewrite app_nil_r.
    by apply Hstop.
  - intros c q. destruct (decide (output = c)) as [<-|Hne].
    + intros _ _. by apply (Hpend output (m :: q')).
    + rewrite lookup_insert_ne by done. apply Hpend.
  - intros c Hc%Hsome [Hin|Hin]%elem_of_app; [by apply (Hopen c)|].
    apply list_elem_of_singleton in Hin. discriminate.
  - apply (fresh_extend _ _ (next_sock st)); [done|lia|].
    intros ev c ->%list_elem_of_singleton [= <-].
    apply (registered_allocated listener); [done|by eexists].
Qed.

Lemma loop_inv_initial (listener : nat) :
  loop_inv listener (initial listener).
Proof. split; [apply registry_inv_initial|apply echo_inv_initial]. Qed.

Lemma loop_inv_step (listener : nat) (st st' : State) :
  loop_inv listener st -> loop_step listener st st' ->
  loop_inv listener st'.
Proof.
  intros [Hreg Hecho] Hstep. split; [by eapply registry_inv_step|].
  destruct Hstep.
  - by apply echo_inv_poll.
  - by apply echo_inv_accept.
  - by eapply echo_inv_data.
  - by eapply echo_inv_teardown.
  - by eapply echo_inv_idle.
  - by eapply echo_inv_send.
Qed.

Lemma loop_inv_steps (listener : nat) (st st' : State) :
  loop_inv listener st -> rtc (loop_step listener) st st' ->
  loop_inv listener st'.
Proof.
  intros Hinv Hsteps. induction Hsteps as [|st st1 st2 Hstep _ IH]; [done|].
  apply IH. by eapply loop_inv_step.
Qed.

(** The loop is reached only when [listen] returns and the address of the
    listening socket unpacks into two names (line 38). *)
Lemma server_running (listener : nat) (listen_err : option Z)
  (sockname_len : nat) (script : list Tick) (st : State) :
  server listener listen_err sockname_len script = StillRunning st ->
  listen_err = None /\ sockname_len = 2 /\
  server_loop listener script (initial listener) = StillRunning st.
Proof.
  unfold server. destruct listen_err; [intros H; inversion H|].
  destruct (decide (sockname_len = 2)) as [->|]; [|intros H; inversion H].
  intros H. split; [reflexivity|]. split; [reflexivity|exact H].
Qed.

Lemma server_returned_true (listener : nat) (listen_err : option Z)
  (sockname_len : nat) (script : list Tick) (st : State) :
  server listener listen_err sockname_len script = Returned true st ->
  listen_err = None /\ sockname_len = 2 /\
  server_loop listener script (initial listener) = Returned true st.
Proof.
  unfold server. destruct listen_err; [intros H; inversion H|].
  destruct (decide (sockname_len = 2)) as [->|]; [|intros H; inversion H].
  intros H. split; [reflexivity|]. split; [reflexivity|exact H].
Qed.

(** Every state in which the loop is still running satisfies both
    invariants. *)
Lemma loop_inv_running (listener : nat)
  (sockname_len : nat) (script : list Tick) (st : State) :
  server listener None sockname_len script = StillRunning st ->
  loop_inv listener st.
Proof.
  intros (_ & _ & Hrun%server_loop_running_steps)%server_running.
  eapply loop_inv_steps; [apply loop_inv_initial|exact Hrun].
Qed.

Lemma registry_inv_steps (listener : nat) (st st' : State) :
  registry_inv listener st -> rtc (loop_step listener) st st' ->
  registry_inv listener st'.
Proof.
  intros Hinv Hsteps. induction Hsteps as [|st st1 st2 Hstep _ IH]; [done|].
  apply IH. by eapply registry_inv_step.
Qed.

Lemma registry_keys_dom (listener : nat) (st : State) :
  registry_inv listener st ->
  dom (messages st) = list_to_set (inputs st) ∖ {[listener]}.
Proof.
  intros [_ _ _ Hkeys _ _]. apply set_eq. intros s.
  rewrite elem_of_dom, Hkeys, elem_of_difference, elem_of_list_to_set,
    elem_of_singleton. done.
Qed.

(** C5, as the code keeps it: an iteration that leaves the loop running
    preserves the registry invariant in which a socket of [outputs] has a
    registry entry whose queue may be empty, and the registered sockets are
    exactly the sockets of [inputs] other than the listener, each once. *)
Theorem registry_invariant_preserved (listener : nat) (t : Tick)
  (st st' : State) :
  registry_inv listener st ->
  iteration listener t st = (RUNNING, st') ->
  registry_inv listener st' /\
  (forall s, s ∈ outputs st' -> is_Some (messages st' !! s)) /\
  dom (messages st') = list_to_set (inputs st') ∖ {[listener]} /\
  NoDup (inputs st').
Proof.
  intros Hinv Hit.
  assert (Hinv' : registry_inv listener st').
  { eapply registry_inv_steps; [exact Hinv|].
    by eapply iteration_running_steps. }
  split; [exact Hinv'|]. split; [apply Hinv'|].
  split; [by apply registry_keys_dom|apply Hinv'].
Qed.

Lemma registry_invariant_preserved_witness :
  registry_inv 0 one_queued /\
  iteration 0 (writable_tick 1) one_queued = (RUNNING, one_echoed) /\
  registry_inv 0 one_echoed /\
  dom (messages one_echoed) = list_to_set (inputs one_echoed) ∖ {[0]}.
Proof.
  assert (Hinv : registry_inv 0 one_queued).
  { apply (loop_inv_running 0 2 [connect_tick 0; data_tick 1 "a"]).
    vm_compute. reflexivity. }
  assert (Hit : iteration 0 (writable_tick 1) one_queued
                = (RUNNING, one_echoed)) by (vm_compute; reflexivity).
  destruct (registry_invariant_preserved 0 (writable_tick 1) one_queued
              one_echoed Hinv Hit) as (Hinv' & _ & Hdom & _).
  split; [exact Hinv|]. split; [exact Hit|]. split; [exact Hinv'|exact Hdom].
Defined.

(** C5, as the spec words it, fails: after the only queued chunk of
    connection 1 has been sent, connection 1 is still in [outputs] and its
    queue is empty. *)
Lemma spec_registry_inv_not_preserved :
  spec_registry_inv 0 one_queued /\
  iteration 0 (writable_tick 1) one_queued = (RUNNING, one_echoed) /\
  ~ spec_registry_inv 0 one_echoed.
Proof.
  assert (Hinv : registry_inv 0 one_queued).
  { apply (loop_inv_running 0 2 [connect_tick 0; data_tick 1 "a"]).
    vm_compute. reflexivity. }
  assert (Houts : outputs one_queued = [1]) by (vm_compute; reflexivity).
  assert (Hq : messages one_queued !! 1 = Some ["a"%string])
    by (vm_compute; reflexivity).
  assert (Houts' : outputs one_echoed = [1]) by (vm_compute; reflexivity).
  assert (Hq' : messages one_echoed !! 1 = Some [])
    by (vm_compute; reflexivity).
  split; [|split].
  - split; [|apply Hinv]. intros s. rewrite Houts.
    intros ->%list_elem_of_singleton. exists ["a"%string].
    split; [exact Hq|]. intros Heq. inversion Heq.
  - vm_compute. reflexivity.
  - intros [Hne _]. destruct (Hne 1) as (q & Hq1 & Hq2).
    + rewrite Houts'. left.
    + rewrite Hq' in Hq1. injection Hq1 as <-. by apply Hq2.
Qed.

(** ** Echo *)



Lemma not_closed_after_poll (c : nat) (st : State) :
  EvClose c ∉ trace st -> EvClose c ∉ trace (after_poll st).
Proof.
  intros Hopen. simpl. intros [H|H]%elem_of_app; [done|].
  apply list_elem_of_singleton in H. discriminate.
Qed.




(** *** What the events on the other sockets leave alone *)

















(** ** Error events *)

(** An error event on a registered, open connection whose peer-name lookup
    returns tears down that connection and nothing else: the handler returns
    normally, the socket leaves both interest sets and the registry and is
    closed, and the queue of every other connection stays as it is. *)
Lemma handle_error_isolated (listener : nat) (t : Tick) (st : State)
  (c : nat) (q : list string) :
  registry_inv listener st ->
  messages st !! c = Some q ->
  EvClose c ∉ trace st ->
  peername_of t c = PeerOk ->
  exists st',
    handle_error listener t c st = Ok tt st' /\
    (c ∉ inputs st') /\ (c ∉ outputs st') /\
    messages st' !! c = None /\
    (forall c', c' <> c -> messages st' !! c' = messages st !! c') /\
    trace st' = trace st ++ [EvClose c].
Proof.
  intros Hreg Hq Hopen Hpeer.
  assert (Hin : c ∈ inputs st /\ c <> listener).
  { apply (inv_keys listener st Hreg c). by eexists. }
  destruct Hin as [Hin Hne].
  destruct (remove_first_is_Some c (inputs st) Hin) as [ins Hri].
  destruct (remove_first_NoDup c (inputs st) ins
              (inv_inputs_nodup listener st Hreg) Hri) as [_ Hins].
  unfold handle_error, teardown. py_unfold.
  rewrite is_closed_false by exact Hopen.
  rewrite decide_False by exact Hne. rewrite Hpeer.
  destruct (bool_decide (c ∈ outputs st)) eqn:Hout.
  - apply bool_decide_eq_true in Hout.
    destruct (remove_first_is_Some c (outputs st) Hout) as [outs Hro].
    destruct (remove_first_NoDup c (outputs st) outs
                (inv_outputs_nodup listener st Hreg) Hro) as [_ Houts].
    rewrite Hro. simpl. rewrite Hri. simpl. rewrite Hq.
    eexists. split; [reflexivity|]. simpl.
    split; [rewrite Hins; tauto|]. split; [rewrite Houts; tauto|].
    split; [apply lookup_delete_eq|]. split; [|reflexivity].
    intros c' Hc'. by apply lookup_delete_ne.
  - apply bool_decide_eq_false in Hout. simpl. rewrite Hri. simpl.
    rewrite Hq. eexists. split; [reflexivity|]. simpl.
    split; [rewrite Hins; tauto|]. split; [exact Hout|].
    split; [apply lookup_delete_eq|]. split; [|reflexivity].
    intros c' Hc'. by apply lookup_delete_ne.
Qed.

(** C6 at the input on which the code misses it: the peer of connection 1
    closed and the same poll reports connection 1 in the error set.  The
    readable pass tears the connection down; the error pass then calls
    [getpeername] on the closed socket, the [socket.error] reaches
    [except Exception], and [server] returns [False]. *)
Theorem error_after_eof_stops_loop :
  server 0 None 2 [connect_tick 0] = StillRunning one_client /\
  messages one_client !! 1 = Some [] /\
  sel (eof_and_error_tick 1) = SelReady [1] [] [1] /\
  recv_of (eof_and_error_tick 1) 1 = RecvData EmptyString /\
  exists st,
    tick_body 0 (eof_and_error_tick 1) one_client
      = Raise (SocketError EBADF) st /\
    iteration 0 (eof_and_error_tick 1) one_client = (STOPPED false, st) /\
    forall rest,
      server 0 None 2 (connect_tick 0 :: eof_and_error_tick 1 :: rest)
        = Returned false st.
Proof.
  split; [vm_compute; reflexivity|]. split; [vm_compute; reflexivity|].
  split; [reflexivity|]. split; [reflexivity|].
  eexists. split; [vm_compute; reflexivity|].
  split; [vm_compute; reflexivity|].
  intros rest. vm_compute. reflexivity.
Qed.

(** * Further properties of [server] *)

(** ** Idle polls *)

Lemma idle_iteration (listener : nat) (t : Tick) (st : State) :
  sel t = SelReady [] [] [] ->
  iteration listener t st = (RUNNING, after_poll st).
Proof.
  intros Hsel. unfold iteration, inner_try.
  by rewrite (tick_body_ready listener t st [] [] [] Hsel).
Qed.

(** X1: polls that time out with nothing ready (lines 53-54) keep the loop
    running and change neither the interest lists nor the registry: the only
    trace they leave is one poll each. *)
Theorem idle_polls_change_nothing (listener : nat) (ticks : list Tick)
  (st : State) :
  Forall (fun t => sel t = SelReady [] [] []) ticks ->
  exists st',
    server_loop listener ticks st = StillRunning st' /\
    inputs st' = inputs st /\
    outputs st' = outputs st /\
    messages st' = messages st /\
    next_sock st' = next_sock st /\
    trace st' = trace st ++ replicate (length ticks) EvSelect.
Proof.
  intros Hidle. revert st.
  induction Hidle as [|t ticks Ht _ IH]; intros st.
  - exists st. split; [reflexivity|]. by rewrite app_nil_r.
  - cbn [server_loop]. rewrite (idle_iteration listener t st Ht).
    destruct (IH (after_poll st)) as (st' & Hrun & Hi & Ho & Hm & Hn & Htr).
    exists st'. split; [exact Hrun|]. simpl in *.
    repeat (split; [assumption|]).
    by rewrite Htr, <- app_assoc.
Qed.

Lemma idle_polls_change_nothing_witness :
  Forall (fun t => sel t = SelReady [] [] []) [idle_tick; idle_tick] /\
  exists st',
    server_loop 0 [idle_tick; idle_tick] one_queued = StillRunning st' /\
    messages st' = messages one_queued /\
    trace st' = trace one_queued ++ [EvSelect; EvSelect].
Proof.
  assert (Hidle : Forall (fun t => sel t = SelReady [] [] [])
                         [idle_tick; idle_tick]).
  { constructor; [reflexivity|]. constructor; [reflexivity|constructor]. }
  split; [exact Hidle|].
  destruct (idle_polls_change_nothing 0 [idle_tick; idle_tick] one_queued
              Hidle) as (st' & Hrun & _ & _ & Hm & _ & Htr).
  exists st'. split; [exact Hrun|]. split; [exact Hm|exact Htr].
Defined.

(** ** End of file *)

Lemma registry_inv_same_fields (listener : nat) (st st' : State) :
  inputs st' = inputs st -> outputs st' = outputs st ->
  messages st' = messages st -> next_sock st' = next_sock st ->
  registry_inv listener st -> registry_inv listener st'.
Proof.
  intros Hi Ho Hm Hn [H1 H2 H3 H4 H5 H6].
  constructor; rewrite ?Hi, ?Ho, ?Hm, ?Hn; assumption.
Qed.

(** The teardown of a registered, open socket whose peer-name lookup returns
    goes through and removes that socket only. *)
Lemma teardown_registered (listener : nat) (t : Tick) (st : State) (c : nat)
  (q : list string) :
  registry_inv listener st ->
  messages st !! c = Some q ->
  EvClose c ∉ trace st ->
  peername_of t c = PeerOk ->
  exists st',
    teardown listener t c st = Ok tt st' /\
    (forall s, s ∈ inputs st' <-> s ∈ inputs st /\ s <> c) /\
    (forall s, s ∈ outputs st' <-> s ∈ outputs st /\ s <> c) /\
    messages st' = delete c (messages st) /\
    next_sock st' = next_sock st /\
    trace st' = trace st ++ [EvClose c].
Proof.
  intros Hreg Hq Hopen Hpeer.
  assert (Hin : c ∈ inputs st /\ c <> listener).
  { apply (inv_keys listener st Hreg c). by eexists. }
  destruct Hin as [Hin Hne].
  destruct (remove_first_is_Some c (inputs st) Hin) as [ins Hri].
  destruct (remove_first_NoDup c (inputs st) ins
              (inv_inputs_nodup listener st Hreg) Hri) as [_ Hins].
  unfold teardown. py_unfold.
  rewrite is_closed_false by exact Hopen.
  rewrite decide_False by exact Hne. rewrite Hpeer.
  destruct (bool_decide (c ∈ outputs st)) eqn:Hout.
  - apply bool_decide_eq_true in Hout.
    destruct (remove_first_is_Some c (outputs st) Hout) as [outs Hro].
    destruct (remove_first_NoDup c (outputs st) outs
                (inv_outputs_nodup listener st Hreg) Hro) as [_ Houts].
    rewrite Hro. simpl. rewrite Hri. simpl. rewrite Hq.
    eexists. split; [reflexivity|]. simpl.
    split; [exact Hins|]. split; [exact Houts|]. done.
  - apply bool_decide_eq_false in Hout. simpl. rewrite Hri. simpl.
    rewrite Hq. eexists. split; [reflexivity|]. simpl.
    split; [exact Hins|]. split; [|done].
    intros s. split; [|tauto]. intros Hs. split; [done|]. by intros ->.
Qed.

(** End of file on a connection whose peer is gone: the log call of
    lines 80-81 raises before anything is removed or closed. *)
Lemma handle_read_eof_peer_gone (listener : nat) (t : Tick) (st : State)
  (c : nat) (errno : Z) :
  c <> listener ->
  recv_of t c = RecvData EmptyString ->
  peername_of t c = PeerErr errno ->
  EvClose c ∉ trace st ->
  handle_read listener t c st =
    Raise (SocketError errno)
      (mkState (inputs st) (outputs st) (messages st) (next_sock st)
               (trace st ++ [EvRecv c EmptyString])).
Proof.
  intros Hne Hrecv Hpeer Hopen. unfold handle_read.
  rewrite decide_False by exact Hne. py_unfold. rewrite Hrecv. simpl.
  rewrite is_closed_false.
  2:{ intros [H|H]%elem_of_app; [done|].
      apply list_elem_of_singleton in H. discriminate. }
  rewrite decide_False by exact Hne. by rewrite Hpeer.
Qed.

(** End of file on a registered, open connection whose peer-name lookup
    returns: the teardown of lines 82-86. *)
Lemma handle_read_eof (listener : nat) (t : Tick) (st : State)
  (c : nat) (q : list string) :
  registry_inv listener st ->
  messages st !! c = Some q ->
  EvClose c ∉ trace st ->
  recv_of t c = RecvData EmptyString ->
  peername_of t c = PeerOk ->
  exists st',
    handle_read listener t c st = Ok tt st' /\
    (c ∉ inputs st') /\ (c ∉ outputs st') /\
    messages st' !! c = None /\
    trace st' = trace st ++ [EvRecv c EmptyString; EvClose c] /\
    sent c (trace st') = sent c (trace st) /\
    (forall s, s <> c ->
       (s ∈ inputs st' <-> s ∈ inputs st) /\
       (s ∈ outputs st' <-> s ∈ outputs st) /\
       messages st' !! s = messages st !! s) /\
    registry_inv listener st'.
Proof.
  intros Hreg Hq Hopen Hrecv Hpeer.
  assert (Hne : c <> listener).
  { apply (inv_keys listener st Hreg c). by eexists. }
  set (st0 := mkState (inputs st) (outputs st) (messages st) (next_sock st)
                      (trace st ++ [EvRecv c EmptyString])).
  assert (Hreg0 : registry_inv listener st0)
    by (by apply (registry_inv_same_fields listener st st0)).
  assert (Hopen0 : EvClose c ∉ trace st0).
  { simpl. intros [H|H]%elem_of_app; [done|].
    apply list_elem_of_singleton in H. discriminate. }
  destruct (teardown_registered listener t st0 c q Hreg0 Hq Hopen0 Hpeer)
    as (st' & Hrun & Hins & Houts & Hm & Hn & Htr).
  assert (Hread : handle_read listener t c st = Ok tt st').
  { unfold handle_read. rewrite decide_False by exact Hne.
    unfold recv. rewrite Hrecv.
    unfold bind at 1. unfold bind at 1. unfold emit at 1. unfold ret at 1.
    exact Hrun. }
  exists st'. split; [exact Hread|].
  split; [rewrite Hins; tauto|]. split; [rewrite Houts; tauto|].
  split; [rewrite Hm; apply lookup_delete_eq|].
  assert (Htr' : trace st' = trace st ++ [EvRecv c EmptyString; EvClose c]).
  { rewrite Htr. simpl. by rewrite <- app_assoc. }
  split; [exact Htr'|].
  split; [rewrite Htr', sent_app; simpl; by rewrite app_nil_r|].
  split.
  - intros s Hs. split; [rewrite Hins; simpl; tauto|].
    split; [rewrite Houts; simpl; tauto|].
    rewrite Hm. by apply lookup_delete_ne.
  - eapply registry_inv_step; [exact Hreg|].
    by eapply handle_read_step.
Qed.

(** X2: when [recv] returns the empty string on a registered, open
    connection (lines 79-86) and the peer-name lookup of the log call
    returns, the handler returns normally with that connection out of
    [inputs], out of [outputs] and out of the registry, and closed; the
    chunks still queued for it are dropped without a send; every other socket
    keeps its place in the lists and its queue; an iteration whose poll
    reports only that connection leaves the loop running in such a state.
    When the lookup raises [socket.error] (the peer reset the connection),
    the handler raises it with the connection still registered and open, and
    the iteration ends the loop with [False]. *)
Theorem eof_tears_down_connection (listener : nat) (t : Tick) (st : State)
  (c : nat) (q : list string) :
  registry_inv listener st ->
  messages st !! c = Some q ->
  EvClose c ∉ trace st ->
  recv_of t c = RecvData EmptyString ->
  match peername_of t c with
  | PeerOk =>
      exists st',
        handle_read listener t c st = Ok tt st' /\
        (c ∉ inputs st') /\ (c ∉ outputs st') /\
        messages st' !! c = None /\
        trace st' = trace st ++ [EvRecv c EmptyString; EvClose c] /\
        sent c (trace st') = sent c (trace st) /\
        (forall s, s <> c ->
           (s ∈ inputs st' <-> s ∈ inputs st) /\
           (s ∈ outputs st' <-> s ∈ outputs st) /\
           messages st' !! s = messages st !! s) /\
        registry_inv listener st' /\
        (sel t = SelReady [c] [] [] ->
         exists st'',
           iteration listener t st = (RUNNING, st'') /\
           (c ∉ inputs st'') /\ (c ∉ outputs st'') /\
           messages st'' !! c = None /\
           trace st'' =
             trace st ++ [EvSelect; EvRecv c EmptyString; EvClose c] /\
           sent c (trace st'') = sent c (trace st))
  | PeerErr errno =>
      exists st',
        handle_read listener t c st = Raise (SocketError errno) st' /\
        inputs st' = inputs st /\ outputs st' = outputs st /\
        messages st' = messages st /\
        trace st' = trace st ++ [EvRecv c EmptyString] /\
        (sel t = SelReady [c] [] [] ->
         iteration listener t st
           = (STOPPED false,
              mkState (inputs st) (outputs st) (messages st) (next_sock st)
                      (trace st ++ [EvSelect; EvRecv c EmptyString])))
  end.
Proof.
  intros Hreg Hq Hopen Hrecv.
  assert (Hne : c <> listener).
  { apply (inv_keys listener st Hreg c). by eexists. }
  destruct (peername_of t c) as [|errno] eqn:Hpeer.
  - destruct (handle_read_eof listener t st c q Hreg Hq Hopen Hrecv Hpeer)
      as (st' & Hread & Hin & Hout & Hnone & Htr & Hsent & Hothers & Hreg').
    exists st'. split; [exact Hread|]. split; [exact Hin|].
    split; [exact Hout|]. split; [exact Hnone|]. split; [exact Htr|].
    split; [exact Hsent|]. split; [exact Hothers|]. split; [exact Hreg'|].
    intros Hsel.
    assert (Hregp : registry_inv listener (after_poll st))
      by (by apply (registry_inv_same_fields listener st (after_poll st))).
    destruct (handle_read_eof listener t (after_poll st) c q Hregp Hq
                (not_closed_after_poll c st Hopen) Hrecv Hpeer)
      as (st2 & Hread2 & Hin2 & Hout2 & Hnone2 & Htr2 & Hsent2 & _).
    pose proof (tick_body_reads_split listener t st (after_poll st) st2
                  [c] [] [] [] [] c Hsel eq_refl eq_refl Hread2) as Hbody.
    exists st2. split.
    { unfold iteration, inner_try. by rewrite Hbody. }
    split; [exact Hin2|]. split; [exact Hout2|]. split; [exact Hnone2|].
    split.
    + rewrite Htr2. simpl. by rewrite <- app_assoc.
    + rewrite Hsent2. simpl. rewrite sent_app. simpl. by rewrite app_nil_r.
  - eexists. split.
    { by apply (handle_read_eof_peer_gone listener t st c errno). }
    simpl. split; [reflexivity|]. split; [reflexivity|].
    split; [reflexivity|]. split; [reflexivity|]. intros Hsel.
    pose proof (handle_read_eof_peer_gone listener t (after_poll st) c errno
                  Hne Hrecv Hpeer (not_closed_after_poll c st Hopen))
      as Hread.
    pose proof (tick_body_reads_raise listener t st (after_poll st) _
                  [c] [] [] [] [] c _ Hsel eq_refl eq_refl Hread) as Hbody.
    destruct (iteration_socket_error listener t [] st _ errno Hbody)
      as [Hit _].
    rewrite Hit. simpl. by rewrite <- app_assoc.
Qed.

Lemma eof_tears_down_connection_witness :
  registry_inv 0 one_queued /\
  messages one_queued !! 1 = Some ["a"%string] /\
  (EvClose 1 ∉ trace one_queued) /\
  recv_of (data_tick 1 EmptyString) 1 = RecvData EmptyString /\
  peername_of (data_tick 1 EmptyString) 1 = PeerOk /\
  (exists st',
     iteration 0 (data_tick 1 EmptyString) one_queued = (RUNNING, st') /\
     messages st' !! 1 = None /\
     sent 1 (trace st') = []) /\
  peername_of (reset_tick 1 EmptyString) 1 = PeerErr ENOTCONN /\
  exists st',
    handle_read 0 (reset_tick 1 EmptyString) 1 one_queued
      = Raise (SocketError ENOTCONN) st' /\
    messages st' = messages one_queued.
Proof.
  assert (Hinv : registry_inv 0 one_queued).
  { apply (loop_inv_running 0 2 [connect_tick 0; data_tick 1 "a"]).
    vm_compute. reflexivity. }
  assert (Hq : messages one_queued !! 1 = Some ["a"%string])
    by (vm_compute; reflexivity).
  assert (Hopen : EvClose 1 ∉ trace one_queued).
  { apply (bool_decide_unpack _). vm_compute. exact I. }
  split; [exact Hinv|]. split; [exact Hq|]. split; [exact Hopen|].
  split; [reflexivity|]. split; [reflexivity|]. split.
  - destruct (eof_tears_down_connection 0 (data_tick 1 EmptyString)
                one_queued 1 ["a"%string] Hinv Hq Hopen eq_refl)
      as (_ & _ & _ & _ & _ & _ & _ & _ & _ & Hiter).
    destruct (Hiter eq_refl) as (st' & Hit & _ & _ & Hnone & _ & Hsent).
    exists st'. split; [exact Hit|]. split; [exact Hnone|].
    rewrite Hsent. vm_compute. reflexivity.
  - split; [reflexivity|].
    destruct (eof_tears_down_connection 0 (reset_tick 1 EmptyString)
                one_queued 1 ["a"%string] Hinv Hq Hopen eq_refl)
      as (st' & Hrun & _ & _ & Hm & _).
    exists st'. split; [exact Hrun|exact Hm].
Defined.

(** ** A writable event on an empty queue *)

(** X3: a writable event on a registered connection whose queue is empty
    (lines 93-94) takes the connection out of [outputs] and does nothing
    else: no send, registry and [inputs] untouched, the other sockets of
    [outputs] stay. *)
Theorem writable_empty_queue_unsubscribes (listener : nat) (t : Tick)
  (st : State) (c : nat) :
  messages st !! c = Some [] ->
  c ∈ outputs st ->
  NoDup (outputs st) ->
  exists st',
    handle_write listener t c st = Ok tt st' /\
    (forall s, s ∈ outputs st' <-> s ∈ outputs st /\ s <> c) /\
    inputs st' = inputs st /\
    messages st' = messages st /\
    trace st' = trace st.
Proof.
  intros Hq Hin Hnd.
  destruct (remove_first_is_Some c (outputs st) Hin) as [outs Hro].
  destruct (remove_first_NoDup c (outputs st) outs Hnd Hro) as [_ Houts].
  unfold handle_write. py_unfold. rewrite Hq.
  rewrite bool_decide_eq_true_2 by (by eexists). simpl. rewrite ?Hq. simpl.
  rewrite Hro. eexists. split; [reflexivity|]. simpl. done.
Qed.

Lemma writable_empty_queue_unsubscribes_witness :
  messages one_echoed !! 1 = Some [] /\
  1 ∈ outputs one_echoed /\
  NoDup (outputs one_echoed) /\
  exists st',
    handle_write 0 (writable_tick 1) 1 one_echoed = Ok tt st' /\
    outputs st' = [] /\
    trace st' = trace one_echoed.
Proof.
  assert (Hq : messages one_echoed !! 1 = Some [])
    by (vm_compute; reflexivity).
  assert (Houts : outputs one_echoed = [1]) by (vm_compute; reflexivity).
  assert (Hin : 1 ∈ outputs one_echoed) by (rewrite Houts; left).
  assert (Hnd : NoDup (outputs one_echoed))
    by (rewrite Houts; apply NoDup_singleton).
  split; [exact Hq|]. split; [exact Hin|]. split; [exact Hnd|].
  destruct (writable_empty_queue_unsubscribes 0 (writable_tick 1) one_echoed 1
              Hq Hin Hnd) as (st' & Hrun & Ho & _ & _ & Htr).
  exists st'. split; [exact Hrun|]. split; [|exact Htr].
  destruct (outputs st') as [|s l] eqn:Hl; [reflexivity|].
  exfalso. assert (Hs : s ∈ s :: l) by left.
  apply Ho in Hs as [Hs Hne]. rewrite Houts in Hs.
  apply list_elem_of_singleton in Hs. congruence.
Defined.

(** ** Socket errors inside an iteration *)

Lemma tick_body_writes_raise (listener : nat) (t : Tick)
  (st st1 st2 st3 : State) (reads writes errors pre post : list nat)
  (output : nat) (e : exn) :
  sel t = SelReady reads writes errors ->
  for_each (handle_read listener t) reads (after_poll st) = Ok tt st1 ->
  writes = pre ++ output :: post ->
  for_each (handle_write listener t) pre st1 = Ok tt st2 ->
  handle_write listener t output st2 = Raise e st3 ->
  tick_body listener t st = Raise e st3.
Proof.
  intros Hsel Hr -> Hpre Hw.
  rewrite (tick_body_ready listener t st _ _ _ Hsel).
  unfold bind. by rewrite Hr, for_each_app, Hpre, for_each_cons, Hw.
Qed.

Lemma tick_body_errors_raise (listener : nat) (t : Tick)
  (st st1 st2 st3 st4 : State) (reads writes errors pre post : list nat)
  (s : nat) (e : exn) :
  sel t = SelReady reads writes errors ->
  for_each (handle_read listener t) reads (after_poll st) = Ok tt st1 ->
  for_each (handle_write listener t) writes st1 = Ok tt st2 ->
  errors = pre ++ s :: post ->
  for_each (handle_error listener t) pre st2 = Ok tt st3 ->
  handle_error listener t s st3 = Raise e st4 ->
  tick_body listener t st = Raise e st4.
Proof.
  intros Hsel Hr Hw -> Hpre He.
  rewrite (tick_body_ready listener t st _ _ _ Hsel).
  unfold bind. by rewrite Hr, Hw, for_each_app, Hpre, for_each_cons, He.
Qed.

(** X4: a [socket.error] from [accept] or from [recv] in the readable pass
    (lines 58 and 66) is not one of the exceptions the inner handlers
    swallow, whatever its errno, [EAGAIN] and [EINTR] included: it reaches
    [except Exception] and [server] returns [False] in the state the failing
    call found, without a drain and without closing anything. *)
Theorem read_pass_socket_error_is_fatal (listener : nat) (t : Tick)
  (rest : list Tick) (st st1 : State)
  (reads writes errors pre post : list nat) (input : nat) (errno : Z) :
  sel t = SelReady reads writes errors ->
  reads = pre ++ input :: post ->
  for_each (handle_read listener t) pre (after_poll st) = Ok tt st1 ->
  (input = listener /\ accept_of t = AcceptErr errno) \/
  (input <> listener /\ recv_of t input = RecvErr errno) ->
  tick_body listener t st = Raise (SocketError errno) st1 /\
  iteration listener t st = (STOPPED false, st1) /\
  server_loop listener (t :: rest) st = Returned false st1.
Proof.
  intros Hsel Hreads Hpre Hfail.
  assert (Hread : handle_read listener t input st1
                  = Raise (SocketError errno) st1).
  { unfold handle_read. destruct Hfail as [[-> Hacc]|[Hne Hrecv]].
    - rewrite decide_True by reflexivity. unfold accept, bind.
      by rewrite Hacc.
    - rewrite decide_False by exact Hne. unfold recv, bind.
      by rewrite Hrecv. }
  assert (Hbody : tick_body listener t st = Raise (SocketError errno) st1).
  { by apply (tick_body_reads_raise listener t st st1 st1 reads writes errors
                pre post input). }
  split; [exact Hbody|].
  exact (iteration_socket_error listener t rest st st1 errno Hbody).
Qed.

Lemma read_pass_socket_error_is_fatal_witness :
  sel (calm (SelReady [1] [] []) (fun _ => RecvErr EAGAIN))
    = SelReady [1] [] [] /\
  [1] = [] ++ 1 :: [] /\
  for_each (handle_read 0 (calm (SelReady [1] [] [])
                                (fun _ => RecvErr EAGAIN))) []
           (after_poll one_queued) = Ok tt (after_poll one_queued) /\
  (1 <> 0 /\
   recv_of (calm (SelReady [1] [] []) (fun _ => RecvErr EAGAIN)) 1
     = RecvErr EAGAIN) /\
  server_loop 0 [calm (SelReady [1] [] []) (fun _ => RecvErr EAGAIN)]
              one_queued
    = Returned false (after_poll one_queued).
Proof.
  assert (Hne : 1 <> 0) by lia.
  split; [reflexivity|]. split; [reflexivity|]. split; [reflexivity|].
  split; [split; [exact Hne|reflexivity]|].
  exact (proj2 (proj2 (read_pass_socket_error_is_fatal 0
    (calm (SelReady [1] [] []) (fun _ => RecvErr EAGAIN)) [] one_queued
    (after_poll one_queued) [1] [] [] [] [] 1 EAGAIN eq_refl eq_refl eq_refl
    (or_intror (conj Hne eq_refl))))).
Defined.

(** X5: a [socket.error] from [send] in the writable pass (line 98, reached
    when the peer-name lookup of the log call before it returned) ends the
    loop in the same way: [server] returns [False].  The chunk was taken from
    the queue before the send, so it is gone from the queue in the state the
    function returns in. *)
Theorem write_pass_send_error_is_fatal (listener : nat) (t : Tick)
  (rest : list Tick) (st st1 st2 : State)
  (reads writes errors pre post : list nat) (output : nat)
  (m : string) (q' : list string) (errno : Z) :
  sel t = SelReady reads writes errors ->
  for_each (handle_read listener t) reads (after_poll st) = Ok tt st1 ->
  writes = pre ++ output :: post ->
  for_each (handle_write listener t) pre st1 = Ok tt st2 ->
  output <> listener ->
  EvClose output ∉ trace st2 ->
  messages st2 !! output = Some (m :: q') ->
  peername_of t output = PeerOk ->
  send_of t output = SendErr errno ->
  exists st3,
    server_loop listener (t :: rest) st = Returned false st3 /\
    messages st3 !! output = Some q' /\
    trace st3 = trace st2 ++ [EvSend output m] /\
    inputs st3 = inputs st2 /\
    outputs st3 = outputs st2.
Proof.
  intros Hsel Hr Hwrites Hpre Hne Hopen Hq Hpeer Hsend.
  assert (Hw : handle_write listener t output st2
               = Raise (SocketError errno)
                   (mkState (inputs st2) (outputs st2)
                            (<[output := q']> (messages st2)) (next_sock st2)
                            (trace st2 ++ [EvSend output m]))).
  { unfold handle_write. py_unfold. rewrite Hq.
    rewrite bool_decide_eq_true_2 by (by eexists). simpl. rewrite ?Hq. simpl.
    rewrite is_closed_false by exact Hopen.
    rewrite decide_False by exact Hne. rewrite Hpeer. simpl.
    by rewrite Hsend. }
  eexists. split.
  - apply (iteration_socket_error listener t rest st _ errno).
    by apply (tick_body_writes_raise listener t st st1 st2 _ reads writes
                errors pre post output).
  - simpl. split; [apply lookup_insert_eq|done].
Qed.

Lemma write_pass_send_error_is_fatal_witness :
  sel (mkTick (SelReady [] [1] []) AcceptOk no_data (fun _ => PeerOk)
              (fun _ => SendErr EAGAIN) (fun _ _ => SendOk))
    = SelReady [] [1] [] /\
  [1] = [] ++ 1 :: [] /\
  1 <> 0 /\
  (EvClose 1 ∉ trace (after_poll one_queued)) /\
  messages (after_poll one_queued) !! 1 = Some ["a"%string] /\
  exists st3,
    server_loop 0 [mkTick (SelReady [] [1] []) AcceptOk no_data
                          (fun _ => PeerOk) (fun _ => SendErr EAGAIN)
                          (fun _ _ => SendOk)]
                one_queued = Returned false st3 /\
    messages st3 !! 1 = Some [].
Proof.
  assert (Hne : 1 <> 0) by lia.
  assert (Hopen : EvClose 1 ∉ trace (after_poll one_queued)).
  { apply (bool_decide_unpack _). vm_compute. exact I. }
  assert (Hq : messages (after_poll one_queued) !! 1 = Some ["a"%string])
    by (vm_compute; reflexivity).
  split; [reflexivity|]. split; [reflexivity|]. split; [exact Hne|].
  split; [exact Hopen|]. split; [exact Hq|].
  destruct (write_pass_send_error_is_fatal 0
    (mkTick (SelReady [] [1] []) AcceptOk no_data (fun _ => PeerOk)
            (fun _ => SendErr EAGAIN) (fun _ _ => SendOk))
    [] one_queued (after_poll one_queued)
    (after_poll one_queued) [] [1] [] [] [] 1 "a"%string [] EAGAIN
    eq_refl eq_refl eq_refl eq_refl Hne Hopen Hq eq_refl eq_refl)
    as (st3 & Hrun & Hq3 & _).
  exists st3. split; [exact Hrun|exact Hq3].
Defined.

(** X6: an error event on the listening socket itself (the listener is in
    the error set of the poll, line 51) is fatal: the log call asks the
    listener for its peer, which raises, and [server] returns [False]; the
    listener is not closed. *)
Theorem listener_error_event_is_fatal (listener : nat) (t : Tick)
  (rest : list Tick) (st st1 st2 st3 : State)
  (reads writes errors pre post : list nat) :
  sel t = SelReady reads writes errors ->
  for_each (handle_read listener t) reads (after_poll st) = Ok tt st1 ->
  for_each (handle_write listener t) writes st1 = Ok tt st2 ->
  errors = pre ++ listener :: post ->
  for_each (handle_error listener t) pre st2 = Ok tt st3 ->
  server_loop listener (t :: rest) st = Returned false st3.
Proof.
  intros Hsel Hr Hw Herrors Hpre.
  assert (He : exists errno, handle_error listener t listener st3
                             = Raise (SocketError errno) st3).
  { unfold handle_error, teardown, bind, getpeername.
    destruct (is_closed listener (trace st3)); [by eexists|].
    rewrite decide_True by reflexivity. by eexists. }
  destruct He as [errno He].
  apply (iteration_socket_error listener t rest st st3 errno).
  by apply (tick_body_errors_raise listener t st st1 st2 st3 st3 reads writes
              errors pre post listener).
Qed.

Lemma listener_error_event_is_fatal_witness :
  sel (calm (SelReady [] [] [0]) no_data) = SelReady [] [] [0] /\
  [0] = [] ++ 0 :: [] /\
  server_loop 0 [calm (SelReady [] [] [0]) no_data] one_queued
    = Returned false (after_poll one_queued).
Proof.
  split; [reflexivity|]. split; [reflexivity|].
  exact (listener_error_event_is_fatal 0 (calm (SelReady [] [] [0]) no_data)
           [] one_queued (after_poll one_queued) (after_poll one_queued)
           (after_poll one_queued) [] [] [0] [] [] eq_refl eq_refl eq_refl
           eq_refl eq_refl).
Defined.

(** ** A failed send during the drain *)

Lemma drain_queue_first_failure (t : Tick) (c : nat) (q : list string) :
  forall (j k : nat) (errno : Z) (st : State),
    messages st !! c = Some q ->
    k < length q ->
    (forall i, i < k -> drain_send_of t c (j + i) = SendOk) ->
    drain_send_of t c (j + k) = SendErr errno ->
    drain_queue t c j q st =
      Raise (SocketError errno)
        (mkState (inputs st) (outputs st)
                 (<[c := drop (S k) q]> (messages st)) (next_sock st)
                 (trace st ++ map (EvSend c) (take (S k) q))).
Proof.
  induction q as [|m q IH]; intros j k errno st Hq Hk Hok Hfail;
    [simpl in Hk; lia|].
  simpl drain_queue. py_unfold. simpl. destruct k as [|k].
  - rewrite Nat.add_0_r in Hfail. rewrite Hfail. simpl.
    by rewrite drop_0.
  - assert (Hj : drain_send_of t c j = SendOk).
    { rewrite <- (Nat.add_0_r j). apply Hok. lia. }
    rewrite Hj. rewrite (IH (S j) k errno); simpl.
    + by rewrite insert_insert_eq, <- app_assoc.
    + apply lookup_insert_eq.
    + simpl in Hk. lia.
    + intros i Hi. change (S j + i) with (S (j + i)).
      rewrite <- Nat.add_succ_r. apply Hok. lia.
    + change (S j + k) with (S (j + k)). by rewrite <- Nat.add_succ_r.
Qed.

(** X7: in the drain of one connection (lines 119-131), when the send of
    chunk number [k] is the first to raise [socket.error], the chunks up to
    and including that one have been passed to [send] in order, the later
    ones stay in the queue and are never sent, the grace sleep is skipped,
    and the socket is closed all the same; no exception leaves the drain. *)
Theorem drain_stops_at_first_failed_send (t : Tick) (c : nat)
  (q : list string) (k : nat) (errno : Z) (st : State) :
  messages st !! c = Some q ->
  k < length q ->
  (forall i, i < k -> drain_send_of t c i = SendOk) ->
  drain_send_of t c k = SendErr errno ->
  exists st',
    drain_client t c st = Ok tt st' /\
    trace st' = trace st ++ map (EvSend c) (take (S k) q) ++ [EvClose c] /\
    sent c (trace st') = sent c (trace st) ++ take (S k) q /\
    messages st' !! c = Some (drop (S k) q) /\
    (EvSleep ∉ map (EvSend c) (take (S k) q) ++ [EvClose c]).
Proof.
  intros Hq Hk Hok Hfail.
  pose proof (drain_queue_first_failure t c q 0 k errno st Hq Hk Hok Hfail)
    as Hdq.
  unfold drain_client. py_unfold.
  rewrite bool_decide_eq_true_2 by (by eexists). simpl. rewrite Hq, Hdq.
  simpl. eexists. split; [reflexivity|]. simpl.
  split; [by rewrite <- app_assoc|].
  split; [|split; [apply lookup_insert_eq|]].
  - rewrite !sent_app, sent_map_send. simpl. by rewrite app_nil_r.
  - intros [Hin|Hin]%elem_of_app.
    + apply list_elem_of_fmap in Hin as (m & Hm & _). discriminate.
    + apply list_elem_of_singleton in Hin. discriminate.
Qed.

Lemma drain_stops_at_first_failed_send_witness :
  messages two_clients !! 1 = Some ["a"; "b"]%string /\
  0 < 2 /\
  drain_send_of (stop_tick 2 1) 1 0 = SendErr 104%Z /\
  exists st',
    drain_client (stop_tick 2 1) 1 two_clients = Ok tt st' /\
    trace st' = trace two_clients ++ [EvSend 1 "a"; EvClose 1] /\
    messages st' !! 1 = Some ["b"%string].
Proof.
  assert (Hq : messages two_clients !! 1 = Some ["a"; "b"]%string)
    by (vm_compute; reflexivity).
  assert (Hk : 0 < 2) by lia.
  split; [exact Hq|]. split; [exact Hk|]. split; [reflexivity|].
  destruct (drain_stops_at_first_failed_send (stop_tick 2 1) 1
              ["a"; "b"]%string 0 104%Z two_clients Hq Hk
              (fun i Hi => False_ind _ (Nat.nlt_0_r i Hi)) eq_refl)
    as (st' & Hrun & Htr & _ & Hq' & _).
  exists st'. split; [exact Hrun|]. split; [exact Htr|exact Hq'].
Defined.

(** ** The states in which a drain begins *)

Lemma for_each_raise_split {A} (body : A -> M unit) (xs : list A)
  (st st' : State) (e : exn) :
  for_each body xs st = Raise e st' ->
  exists pre x post st0,
    xs = pre ++ x :: post /\
    for_each body pre st = Ok tt st0 /\
    body x st0 = Raise e st'.
Proof.
  revert st. induction xs as [|x xs IH]; intros st; [discriminate|].
  rewrite for_each_cons. destruct (body x st) as [[] st1|e1 st1] eqn:Hx.
  - intros (pre & y & post & st0 & -> & Hpre & Hy)%IH.
    exists (x :: pre), y, post, st0. split; [reflexivity|].
    split; [|exact Hy]. by rewrite for_each_cons, Hx.
  - intros [= <- <-]. exists [], x, xs, st. by split.
Qed.

Lemma handle_write_no_shutdown (listener : nat) (t : Tick) (output : nat)
  (st st' : State) (e : exn) :
  handle_write listener t output st = Raise e st' -> is_shutdown e = false.
Proof. unfold handle_write. intros H. raise_cases H. Qed.

Lemma handle_error_no_shutdown (listener : nat) (t : Tick) (s : nat)
  (st st' : State) (e : exn) :
  handle_error listener t s st = Raise e st' -> is_shutdown e = false.
Proof. unfold handle_error, teardown. intros H. raise_cases H. Qed.

Lemma handle_read_raise_shutdown (listener : nat) (t : Tick) (input : nat)
  (st st1 : State) (e : exn) :
  is_shutdown e = true ->
  handle_read listener t input st = Raise e st1 ->
  e = StopIteration /\ shutdown_state listener st st1.
Proof.
  intros He. unfold handle_read.
  destruct (decide (input = listener)) as [->|Hne].
  - unfold accept, bind. destruct (accept_of t).
    + unfold emit, inputs_append, messages_set. discriminate.
    + intros [= <- <-]. discriminate.
  - unfold recv. destruct (recv_of t input) as [data|errno].
    2:{ unfold bind, raise. intros [= <- <-]. discriminate. }
    unfold bind at 1. unfold bind at 1. unfold emit at 1. unfold ret at 1.
    destruct (String.eqb_spec data EmptyString) as [->|Hdata]; simpl.
    + intros Hread. exfalso.
      apply (handle_error_no_shutdown listener t) in Hread. congruence.
    + unfold bind at 1. unfold getpeername.
      destruct (is_closed input _) eqn:Hcl.
      { intros [= <- <-]. discriminate. }
      rewrite decide_False by exact Hne.
      apply is_closed_app_false in Hcl.
      destruct (peername_of t input).
      2:{ intros [= <- <-]. discriminate. }
      destruct (String.eqb_spec data stop_command) as [->|Hstop].
      * py_unfold. simpl.
        destruct (messages st !! input) as [q|] eqn:Hq.
        2:{ intros [= <- <-]. discriminate. }
        intros [= <- <-]. split; [reflexivity|]. right.
        exists input, q. done.
      * py_unfold. simpl. intros Hread. exfalso.
        destruct (bool_decide (input ∈ outputs st)); simpl in Hread;
          destruct (messages st !! input); simplify_eq/=.
Qed.

Lemma tick_body_shutdown (listener : nat) (t : Tick) (st st1 : State)
  (e : exn) :
  tick_body listener t st = Raise e st1 ->
  is_shutdown e = true ->
  exists st0,
    rtc (loop_step listener) st st0 /\ shutdown_state listener st0 st1.
Proof.
  intros Hbody He.
  destruct (sel t) as [reads writes errors|e0] eqn:Hsel.
  2:{ rewrite (tick_body_poll_raises listener t st e0 Hsel) in Hbody.
      injection Hbody as <- <-. exists (after_poll st).
      split; [apply rtc_once, step_poll|by left]. }
  rewrite (tick_body_ready listener t st reads writes errors Hsel) in Hbody.
  unfold bind in Hbody.
  destruct (for_each (handle_read listener t) reads (after_poll st))
    as [[] s1|e1 s1] eqn:Hr.
  - exfalso.
    destruct (for_each (handle_write listener t) writes s1)
      as [[] s2|e2 s2] eqn:Hw.
    + apply for_each_raise_split in Hbody
        as (pre & x & post & s0 & _ & _ & Hx).
      apply handle_error_no_shutdown in Hx. congruence.
    + injection Hbody as <- <-.
      apply for_each_raise_split in Hw
        as (pre & x & post & s0 & _ & _ & Hx).
      apply handle_write_no_shutdown in Hx. congruence.
  - injection Hbody as <- <-.
    apply for_each_raise_split in Hr
      as (pre & x & post & s0 & _ & Hpre & Hx).
    apply (handle_read_raise_shutdown listener t x s0 s1 e1 He) in Hx
      as [_ Hx].
    exists s0. split; [|exact Hx].
    eapply rtc_l; [apply step_poll|].
    eapply for_each_steps; [|exact Hpre].
    intros y s s' Hy. apply rtc_once. by eapply handle_read_step.
Qed.

Lemma iteration_draining_inv (listener : nat) (t : Tick) (st st1 : State) :
  iteration listener t st = (DRAINING, st1) ->
  exists e, tick_body listener t st = Raise e st1 /\ is_shutdown e = true.
Proof.
  unfold iteration, inner_try.
  destruct (tick_body listener t st) as [[] s|e s]; [discriminate|].
  destruct e; simpl; try discriminate.
  - destruct (transient errno); discriminate.
  - destruct (transient errno); discriminate.
  - intros [= <-]. by eexists.
  - intros [= <-]. by eexists.
Qed.

Lemma iteration_draining_state (listener : nat) (t : Tick) (st st1 : State) :
  iteration listener t st = (DRAINING, st1) ->
  exists st0,
    rtc (loop_step listener) st st0 /\ shutdown_state listener st0 st1.
Proof.
  intros (e & Hbody & He)%iteration_draining_inv.
  by eapply tick_body_shutdown.
Qed.

Lemma iteration_stopped_false (listener : nat) (t : Tick) (st st1 : State)
  (b : bool) :
  iteration listener t st = (STOPPED b, st1) -> b = false.
Proof.
  unfold iteration, inner_try.
  destruct (tick_body listener t st) as [[] s|e s]; [discriminate|].
  destruct e; simpl; try (by intros [= <- _]).
  - destruct (transient errno); [discriminate|by intros [= <- _]].
  - destruct (transient errno); [discriminate|by intros [= <- _]].
Qed.

(** ** Accepted sockets are accounted for *)

Lemma accounted_initial (listener : nat) : accounted listener (initial listener).
Proof.
  intros l c Hin. simpl in Hin.
  repeat (apply elem_of_cons in Hin as [Hin|Hin]; [discriminate|]).
  by apply elem_of_nil in Hin.
Qed.

Lemma accounted_step (listener : nat) (st st' : State) :
  registry_inv listener st -> accounted listener st ->
  loop_step listener st st' -> accounted listener st'.
Proof.
  intros Hreg Hacc Hstep.
  destruct Hstep as [st|st|st input data q Hne Hq Hdata Hstop Hopen
                    |st s ins outs pre Hne Hopen Hri Hro Hq Hpre
                    |st output outs Hq Hro|st output m q' Hne Hopen Hq];
    intros l c; simpl.
  - intros [Hin|Hin]%elem_of_app.
    + destruct (Hacc l c Hin) as [? [?|?]]; split; auto.
      right. apply elem_of_app. by left.
    + apply list_elem_of_singleton in Hin. discriminate.
  - intros [Hin|Hin]%elem_of_app.
    + destruct (Hacc l c Hin) as [? [?|?]]; split; auto.
      * left. apply elem_of_app. by left.
      * right. apply elem_of_app. by left.
    + apply elem_of_cons in Hin as [Hin|Hin].
      * injection Hin as -> ->. split.
        -- pose proof (inv_alloc listener st Hreg listener
                         (inv_listener listener st Hreg)). lia.
        -- left. apply elem_of_app. right. left.
      * repeat (apply elem_of_cons in Hin as [Hin|Hin]; [discriminate|]).
        by apply elem_of_nil in Hin.
  - intros [Hin|Hin]%elem_of_app.
    + destruct (Hacc l c Hin) as [? [?|?]]; split; auto.
      right. apply elem_of_app. by left.
    + apply list_elem_of_singleton in Hin. discriminate.
  - intros [Hin|Hin]%elem_of_app.
    + destruct (Hacc l c Hin) as [Hc [Hc'|Hc']]; split; auto.
      * destruct (decide (c = s)) as [->|Hcs].
        -- right. rewrite !elem_of_app. right. right. left.
        -- left. apply remove_first_Some in Hri as (_ & _ & Hkeep).
           by apply Hkeep.
      * right. apply elem_of_app. by left.
    + exfalso. destruct Hpre as [-> | ->]; simpl in Hin.
      * apply list_elem_of_singleton in Hin. discriminate.
      * repeat (apply elem_of_cons in Hin as [Hin|Hin]; [discriminate|]).
        by apply elem_of_nil in Hin.
  - intros Hin. by apply Hacc in Hin.
  - intros [Hin|Hin]%elem_of_app.
    + destruct (Hacc l c Hin) as [? [?|?]]; split; auto.
      right. apply elem_of_app. by left.
    + apply list_elem_of_singleton in Hin. discriminate.
Qed.

Lemma accounted_steps (listener : nat) (st st' : State) :
  registry_inv listener st -> accounted listener st ->
  rtc (loop_step listener) st st' ->
  registry_inv listener st' /\ accounted listener st'.
Proof.
  intros Hreg Hacc Hsteps.
  induction Hsteps as [|st st1 st2 Hstep _ IH]; [done|].
  apply IH; [by eapply registry_inv_step|by eapply accounted_step].
Qed.

Lemma accounted_shutdown (listener : nat) (st0 st1 : State) :
  accounted listener st0 -> shutdown_state listener st0 st1 ->
  accounted listener st1.
Proof.
  intros Hacc [->|(input & q & _ & _ & _ & ->)]; [done|].
  intros l c [Hin|Hin]%elem_of_app; simpl.
  - destruct (Hacc l c Hin) as [? [?|?]]; split; auto.
    right. apply elem_of_app. by left.
  - apply list_elem_of_singleton in Hin. discriminate.
Qed.

Lemma server_loop_true_closes_accepted (listener : nat) (script : list Tick) :
  forall st st',
    registry_inv listener st -> accounted listener st ->
    server_loop listener script st = Returned true st' ->
    forall l c, EvAccept l c ∈ trace st' -> EvClose c ∈ trace st'.
Proof.
  induction script as [|t rest IH]; intros st st' Hreg Hacc; [discriminate|].
  cbn [server_loop].
  destruct (iteration listener t st) as [[| |b] st1] eqn:Hit.
  - apply iteration_running_steps in Hit.
    destruct (accounted_steps listener st st1 Hreg Hacc Hit) as [Hreg1 Hacc1].
    by apply IH.
  - apply iteration_draining_state in Hit as (st0 & Hsteps & Hshut).
    destruct (accounted_steps listener st st0 Hreg Hacc Hsteps)
      as [_ Hacc0].
    pose proof (accounted_shutdown listener st0 st1 Hacc0 Hshut) as Hacc1.
    rewrite drain_unfold.
    destruct (drain_pass_total listener t (inputs st1) st1)
      as (st2 & Hrun & (_ & tail & Htr & Hf) & Hcl).
    rewrite Hrun. intros [= <-] l c Hin.
    rewrite Htr in Hin. apply elem_of_app in Hin as [Hin|Hin].
    + destruct (Hacc1 l c Hin) as [Hne [Hc|Hc]]; [by apply Hcl|].
      rewrite Htr. apply elem_of_app. by left.
    + rewrite Forall_forall in Hf. apply Hf in Hin. discriminate.
  - apply iteration_stopped_false in Hit as ->. discriminate.
Qed.

(** X8: when [server] returns [True], every socket that [accept] ever
    handed out has been closed: either torn down during the loop or closed by
    the drain (lines 116-131).  A clean shutdown leaves no client socket
    open. *)
Theorem clean_shutdown_closes_every_client (listener : nat)
  (listen_err : option Z) (sockname_len : nat) (script : list Tick)
  (st : State) :
  server listener listen_err sockname_len script = Returned true st ->
  forall l c, EvAccept l c ∈ trace st -> EvClose c ∈ trace st.
Proof.
  intros (_ & _ & Hloop)%server_returned_true. revert Hloop.
  apply server_loop_true_closes_accepted.
  - apply registry_inv_initial.
  - apply accounted_initial.
Qed.

Lemma clean_shutdown_closes_every_client_witness :
  server 0 None 2 shutdown_script = Returned true clean_exit /\
  EvAccept 0 1 ∈ trace clean_exit /\ EvClose 1 ∈ trace clean_exit /\
  EvAccept 0 2 ∈ trace clean_exit /\ EvClose 2 ∈ trace clean_exit.
Proof.
  assert (Hrun : server 0 None 2 shutdown_script = Returned true clean_exit)
    by (vm_compute; reflexivity).
  assert (H1 : EvAccept 0 1 ∈ trace clean_exit).
  { apply (bool_decide_unpack _). vm_compute. exact I. }
  assert (H2 : EvAccept 0 2 ∈ trace clean_exit).
  { apply (bool_decide_unpack _). vm_compute. exact I. }
  pose proof (clean_shutdown_closes_every_client 0 None 2 shutdown_script
                clean_exit Hrun) as Hcl.
  split; [exact Hrun|]. split; [exact H1|]. split; [exact (Hcl 0 1 H1)|].
  split; [exact H2|exact (Hcl 0 2 H2)].
Defined.

(** ** The listener is never closed by [server] *)

Ltac open_cases :=
  py_unfold; simpl;
  repeat (case_match; simplify_eq/=; try done);
  rewrite ?elem_of_app, ?elem_of_cons, ?elem_of_nil;
  intros ?; destruct_or?; simplify_eq; done.

Lemma handle_read_listener_open (listener : nat) (t : Tick) (input : nat)
  (st : State) :
  EvClose listener ∉ trace st ->
  EvClose listener ∉ trace (state_of (handle_read listener t input st)).
Proof. intros Hopen. unfold handle_read. open_cases. Qed.

Lemma handle_write_listener_open (listener : nat) (t : Tick) (output : nat)
  (st : State) :
  EvClose listener ∉ trace st ->
  EvClose listener ∉ trace (state_of (handle_write listener t output st)).
Proof. intros Hopen. unfold handle_write. open_cases. Qed.

Lemma handle_error_listener_open (listener : nat) (t : Tick) (s : nat)
  (st : State) :
  EvClose listener ∉ trace st ->
  EvClose listener ∉ trace (state_of (handle_error listener t s st)).
Proof. intros Hopen. unfold handle_error. open_cases. Qed.

Lemma for_each_state_prop {A} (P : State -> Prop) (body : A -> M unit)
  (xs : list A) (st : State) :
  (forall x s, P s -> P (state_of (body x s))) ->
  P st -> P (state_of (for_each body xs st)).
Proof.
  intros Hbody. revert st. induction xs as [|x xs IH]; intros st Hst.
  - exact Hst.
  - rewrite for_each_cons. specialize (Hbody x st Hst).
    destruct (body x st) as [[] s|e s]; [by apply IH|exact Hbody].
Qed.

Lemma bind_state_prop {A B} (P : State -> Prop) (c : M A) (k : A -> M B)
  (st : State) :
  P (state_of (c st)) ->
  (forall a s, P s -> P (state_of (k a s))) ->
  P (state_of (bind c k st)).
Proof.
  intros Hc Hk. unfold bind. destruct (c st) as [a s|e s]; [by apply Hk|done].
Qed.

Lemma iteration_state (listener : nat) (t : Tick) (st : State) :
  snd (iteration listener t st) = state_of (tick_body listener t st).
Proof.
  unfold iteration, inner_try.
  destruct (tick_body listener t st) as [[] s|e s]; [reflexivity|].
  destruct e; simpl; try reflexivity; by destruct (transient errno).
Qed.

Lemma tick_body_listener_open (listener : nat) (t : Tick) (st : State) :
  EvClose listener ∉ trace st ->
  EvClose listener ∉ trace (state_of (tick_body listener t st)).
Proof.
  intros Hopen.
  assert (Hpoll : EvClose listener ∉ trace (after_poll st)).
  { simpl. intros [H|H]%elem_of_app; [done|].
    apply list_elem_of_singleton in H. discriminate. }
  destruct (sel t) as [reads writes errors|e] eqn:Hsel.
  2:{ by rewrite (tick_body_poll_raises listener t st e Hsel). }
  rewrite (tick_body_ready listener t st reads writes errors Hsel).
  apply (bind_state_prop (fun s => EvClose listener ∉ trace s)).
  { apply (for_each_state_prop (fun s => EvClose listener ∉ trace s));
      [|exact Hpoll].
    intros x s. apply handle_read_listener_open. }
  intros _ s1 Hs1.
  apply (bind_state_prop (fun s => EvClose listener ∉ trace s)).
  { apply (for_each_state_prop (fun s => EvClose listener ∉ trace s));
      [|exact Hs1].
    intros x s. apply handle_write_listener_open. }
  intros _ s2 Hs2.
  apply (for_each_state_prop (fun s => EvClose listener ∉ trace s));
    [|exact Hs2].
  intros x s. apply handle_error_listener_open.
Qed.

Lemma drain_listener_open (listener : nat) (t : Tick) (st : State) :
  EvClose listener ∉ trace st ->
  EvClose listener ∉ trace (state_of (drain listener t st)).
Proof.
  intros Hopen. rewrite drain_unfold.
  apply (for_each_state_prop (fun s => EvClose listener ∉ trace s));
    [|exact Hopen].
  intros c s Hs. unfold drain_body.
  destruct (decide (c = listener)) as [->|Hne]; [exact Hs|].
  destruct (drain_client_closes t c s)
    as (s' & tr & Hrun & (_ & _ & _ & _ & tl & Htl & Hf) & _).
  rewrite Hrun. simpl. rewrite Htl.
  intros [H|H]%elem_of_app; [done|].
  rewrite Forall_forall in Hf.
  destruct (Hf _ H) as [?|[?|[m ?]]]; congruence.
Qed.

Lemma server_loop_listener_open (listener : nat) (script : list Tick) :
  forall st,
    EvClose listener ∉ trace st ->
    EvClose listener ∉ trace (outcome_state (server_loop listener script st)).
Proof.
  induction script as [|t rest IH]; intros st Hopen; [exact Hopen|].
  cbn [server_loop].
  pose proof (tick_body_listener_open listener t st Hopen) as Hit.
  rewrite <- iteration_state in Hit.
  destruct (iteration listener t st) as [[| |b] st1]; simpl in Hit.
  - by apply IH.
  - pose proof (drain_listener_open listener t st1 Hit) as Hdr.
    by destruct (drain listener t st1).
  - exact Hit.
Qed.

(** X9: [server] never closes the listening socket it was given, on any
    path: neither a teardown (a listener is refused before the close of
    lines 85 and 106), nor the drain (which skips it, lines 117-118), nor the
    returns with [False].  Closing it is left to the caller. *)
Theorem server_never_closes_listener (listener : nat)
  (listen_err : option Z) (sockname_len : nat) (script : list Tick) :
  EvClose listener ∉
    trace (outcome_state (server listener listen_err sockname_len script)).
Proof.
  assert (Hinit : EvClose listener ∉ [EvSetBlocking listener false;
                                       EvListen listener]).
  { intros H. repeat (apply elem_of_cons in H as [H|H]; [discriminate|]).
    by apply elem_of_nil in H. }
  unfold server. destruct listen_err as [errno|]; [exact Hinit|].
  destruct (decide (sockname_len = 2)); [|exact Hinit].
  by apply server_loop_listener_open.
Qed.

(** ** The [stop] command, end to end *)

Lemma stop_iteration_draining (listener : nat) (t : Tick) (st st1 : State)
  (reads writes errors pre post : list nat) (input : nat)
  (q : list string) :
  sel t = SelReady reads writes errors ->
  reads = pre ++ input :: post ->
  for_each (handle_read listener t) pre (after_poll st) = Ok tt st1 ->
  input <> listener ->
  recv_of t input = RecvData stop_command ->
  peername_of t input = PeerOk ->
  messages st1 !! input = Some q ->
  EvClose input ∉ trace st1 ->
  iteration listener t st =
    (DRAINING,
     mkState (inputs st1) (outputs st1)
             (<[input := q ++ [shutdown_notice]]> (messages st1))
             (next_sock st1) (trace st1 ++ [EvRecv input stop_command])).
Proof.
  intros Hsel Hreads Hpre Hne Hrecv Hpeer Hq Hopen.
  pose proof (handle_read_stop listener t st1 input q Hne Hrecv Hpeer Hq Hopen)
    as Hstop.
  unfold iteration, inner_try.
  by rewrite (tick_body_reads_raise listener t st st1 _ reads writes errors
                pre post input StopIteration Hsel Hreads Hpre Hstop).
Qed.

(** X10: the [stop] command cuts the iteration short (line 73 raises out of
    the three [for] loops): after the [recv] that returned [stop], when the
    peer-name lookup of the log call (lines 68-69) returns, the only calls
    [server] still makes are the sends, sleeps and closes of the drain.
    The sockets that the same poll reported after it in [reads], and all of
    [writes] and [errors], are not handled, and [server] returns [True]. *)
Theorem stop_preempts_rest_of_iteration (listener : nat) (t : Tick)
  (rest : list Tick) (st st1 : State)
  (reads writes errors pre post : list nat) (input : nat)
  (q : list string) :
  sel t = SelReady reads writes errors ->
  reads = pre ++ input :: post ->
  for_each (handle_read listener t) pre (after_poll st) = Ok tt st1 ->
  input <> listener ->
  recv_of t input = RecvData stop_command ->
  peername_of t input = PeerOk ->
  messages st1 !! input = Some q ->
  EvClose input ∉ trace st1 ->
  exists st3 tail,
    server_loop listener (t :: rest) st = Returned true st3 /\
    trace st3 = trace st1 ++ EvRecv input stop_command :: tail /\
    Forall (fun ev => drain_event ev = true) tail /\
    (forall s data, EvRecv s data ∉ tail) /\
    (forall l c, EvAccept l c ∉ tail) /\
    inputs st3 = inputs st1.
Proof.
  intros Hsel Hreads Hpre Hne Hrecv Hpeer Hq Hopen.
  pose proof (stop_iteration_draining listener t st st1 reads writes errors
                pre post input q Hsel Hreads Hpre Hne Hrecv Hpeer Hq Hopen)
    as Hit.
  set (st2 := mkState _ _ _ _ _) in Hit.
  destruct (drain_pass_total listener t (inputs st2) st2)
    as (st3 & Hrun & (Hi & tail & Htr & Hf) & _).
  exists st3, tail. split.
  { rewrite (server_loop_draining listener t rest st st2 Hit).
    by rewrite drain_unfold, Hrun. }
  split; [rewrite Htr; simpl; by rewrite <- app_assoc|].
  split; [exact Hf|]. rewrite Forall_forall in Hf.
  split; [|split; [|exact Hi]].
  - intros s data Hin. apply Hf in Hin. discriminate.
  - intros l c Hin. apply Hf in Hin. discriminate.
Qed.

Lemma stop_preempts_rest_of_iteration_witness :
  sel (calm (SelReady [2; 1] [1] []) (fun _ => RecvData stop_command))
    = SelReady [2; 1] [1] [] /\
  [2; 1] = [] ++ 2 :: [1] /\
  2 <> 0 /\
  peername_of (calm (SelReady [2; 1] [1] []) (fun _ => RecvData stop_command))
              2 = PeerOk /\
  messages (after_poll two_clients) !! 2 = Some [] /\
  (EvClose 2 ∉ trace (after_poll two_clients)) /\
  exists st3 tail,
    server_loop 0 [calm (SelReady [2; 1] [1] [])
                        (fun _ => RecvData stop_command)] two_clients
      = Returned true st3 /\
    trace st3 = trace (after_poll two_clients)
                ++ EvRecv 2 stop_command :: tail /\
    (forall s data, EvRecv s data ∉ tail).
Proof.
  assert (Hne : 2 <> 0) by lia.
  assert (Hq : messages (after_poll two_clients) !! 2 = Some [])
    by (vm_compute; reflexivity).
  assert (Hopen : EvClose 2 ∉ trace (after_poll two_clients)).
  { apply (bool_decide_unpack _). vm_compute. exact I. }
  split; [reflexivity|]. split; [reflexivity|]. split; [exact Hne|].
  split; [reflexivity|]. split; [exact Hq|]. split; [exact Hopen|].
  destruct (stop_preempts_rest_of_iteration 0
              (calm (SelReady [2; 1] [1] []) (fun _ => RecvData stop_command))
              [] two_clients (after_poll two_clients) [2; 1] [1] [] [] [1] 2 []
              eq_refl eq_refl eq_refl Hne eq_refl eq_refl Hq Hopen)
    as (st3 & tail & Hrun & Htr & _ & Hnorecv & _).
  exists st3, tail. split; [exact Hrun|]. split; [exact Htr|exact Hnorecv].
Defined.

(** X11: the connection that sent [stop] (the peer-name lookup of the log
    call of lines 68-69 having returned) is answered during the drain: when
    its drain sends succeed, it is sent the chunks that were queued for it,
    in order, then [Shutdown request received] as the last message, and is
    closed. *)
Theorem stop_sender_gets_notice_last (listener : nat) (t : Tick)
  (rest : list Tick) (st st1 : State)
  (reads writes errors pre post : list nat) (input : nat)
  (q : list string) :
  sel t = SelReady reads writes errors ->
  reads = pre ++ input :: post ->
  for_each (handle_read listener t) pre (after_poll st) = Ok tt st1 ->
  input <> listener ->
  recv_of t input = RecvData stop_command ->
  peername_of t input = PeerOk ->
  messages st1 !! input = Some q ->
  EvClose input ∉ trace st1 ->
  input ∈ inputs st1 ->
  (forall i, i < S (length q) -> drain_send_of t input i = SendOk) ->
  exists st3,
    server_loop listener (t :: rest) st = Returned true st3 /\
    sent input (trace st3) = sent input (trace st1) ++ q ++ [shutdown_notice] /\
    messages st3 !! input = Some [] /\
    EvClose input ∈ trace st3.
Proof.
  intros Hsel Hreads Hpre Hne Hrecv Hpeer Hq Hopen Hin Hsend.
  pose proof (stop_iteration_draining listener t st st1 reads writes errors
                pre post input q Hsel Hreads Hpre Hne Hrecv Hpeer Hq Hopen)
    as Hit.
  set (st2 := mkState _ _ _ _ _) in Hit.
  assert (Hq2 : messages st2 !! input = Some (q ++ [shutdown_notice]))
    by apply lookup_insert_eq.
  destruct (drain_pass_sends_queue listener t input (inputs st2)
              (q ++ [shutdown_notice]) st2 Hne Hq2) as (st3 & Hrun & Hres).
  { intros i Hi. apply Hsend. rewrite length_app in Hi. simpl in Hi. lia. }
  rewrite decide_True in Hres by exact Hin. destruct Hres as [Hsent Hm].
  destruct (drain_pass_total listener t (inputs st2) st2)
    as (st3' & Hrun' & _ & Hcl).
  rewrite Hrun in Hrun'. injection Hrun' as <-.
  exists st3. split.
  { rewrite (server_loop_draining listener t rest st st2 Hit).
    by rewrite drain_unfold, Hrun. }
  split; [|split; [exact Hm|by apply Hcl]].
  rewrite Hsent. unfold st2. simpl. rewrite sent_app. simpl.
  by rewrite app_nil_r.
Qed.

Lemma stop_sender_gets_notice_last_witness :
  sel (data_tick 1 stop_command) = SelReady [1] [] [] /\
  [1] = [] ++ 1 :: [] /\
  1 <> 0 /\
  peername_of (data_tick 1 stop_command) 1 = PeerOk /\
  messages (after_poll two_clients) !! 1 = Some ["a"; "b"]%string /\
  (EvClose 1 ∉ trace (after_poll two_clients)) /\
  1 ∈ inputs (after_poll two_clients) /\
  exists st3,
    server_loop 0 [data_tick 1 stop_command] two_clients
      = Returned true st3 /\
    sent 1 (trace st3) = ["a"; "b"; shutdown_notice]%string.
Proof.
  assert (Hne : 1 <> 0) by lia.
  assert (Hq : messages (after_poll two_clients) !! 1
               = Some ["a"; "b"]%string) by (vm_compute; reflexivity).
  assert (Hopen : EvClose 1 ∉ trace (after_poll two_clients)).
  { apply (bool_decide_unpack _). vm_compute. exact I. }
  assert (Hin : 1 ∈ inputs (after_poll two_clients)).
  { apply (bool_decide_unpack _). vm_compute. exact I. }
  assert (Hs : sent 1 (trace (after_poll two_clients)) = [])
    by (vm_compute; reflexivity).
  split; [reflexivity|]. split; [reflexivity|]. split; [exact Hne|].
  split; [reflexivity|].
  split; [exact Hq|]. split; [exact Hopen|]. split; [exact Hin|].
  destruct (stop_sender_gets_notice_last 0 (data_tick 1 stop_command) []
              two_clients (after_poll two_clients) [1] [] [] [] [] 1
              ["a"; "b"]%string eq_refl eq_refl eq_refl Hne eq_refl eq_refl Hq
              Hopen Hin (fun _ _ => eq_refl)) as (st3 & Hrun & Hsent & _).
  exists st3. split; [exact Hrun|]. rewrite Hsent, Hs. reflexivity.
Defined.

(** ** Echo completed by the drain *)

Lemma recvd_drained (c : nat) (st st' : State) :
  drained st st' -> recvd c (trace st') = recvd c (trace st).
Proof.
  intros (_ & tl & -> & Hf). rewrite recvd_app.
  assert (Htl : recvd c tl = []).
  { induction Hf as [|ev tl Hev _ IH]; [reflexivity|]. simpl.
    destruct ev; simpl in Hev; try discriminate; exact IH. }
  by rewrite Htl, app_nil_r.
Qed.

Lemma shutdown_state_fifo (listener : nat) (st0 st1 : State) (c : nat)
  (q : list string) :
  loop_inv listener st0 ->
  shutdown_state listener st0 st1 ->
  messages st1 !! c = Some q ->
  stop_command ∉ recvd c (trace st1) ->
  recvd c (trace st1) = sent c (trace st1) ++ q /\
  c ∈ inputs st1 /\ c <> listener.
Proof.
  intros [Hreg Hecho] Hshut Hq Hnostop.
  destruct Hshut as [->|(input & q0 & Hne & Hq0 & Hopen & ->)].
  - split; [by apply (inv_fifo st0 Hecho)|].
    apply (inv_keys listener st0 Hreg c). by eexists.
  - simpl in *. destruct (decide (input = c)) as [->|Hic].
    + exfalso. apply Hnostop. rewrite recvd_app. apply elem_of_app. right.
      simpl. rewrite decide_True by reflexivity. left.
    + rewrite lookup_insert_ne in Hq by done.
      rewrite recvd_app, sent_app. simpl.
      rewrite decide_False by done. rewrite !app_nil_r.
      split; [by apply (inv_fifo st0 Hecho)|].
      apply (inv_keys listener st0 Hreg c). by eexists.
Qed.

(** X12: echo is completed by the drain.  When the loop, running after
    some script, goes into the drain, every registered connection that did
    not itself send [stop] and whose drain sends succeed has, when [server]
    returns [True], been sent exactly what was received from it, chunk by
    chunk in the order of arrival, and is closed. *)
Theorem drain_completes_echo (listener : nat)
  (sockname_len : nat) (script : list Tick)
  (t : Tick) (rest : list Tick) (st st1 : State) (c : nat)
  (q : list string) :
  server listener None sockname_len script = StillRunning st ->
  iteration listener t st = (DRAINING, st1) ->
  messages st1 !! c = Some q ->
  stop_command ∉ recvd c (trace st1) ->
  (forall i, i < length q -> drain_send_of t c i = SendOk) ->
  exists st2,
    server_loop listener (t :: rest) st = Returned true st2 /\
    sent c (trace st2) = recvd c (trace st2) /\
    EvClose c ∈ trace st2.
Proof.
  intros Hrun Hit Hq Hnostop Hsend.
  pose proof (loop_inv_running listener sockname_len script st Hrun) as Hinv.
  destruct (iteration_draining_state listener t st st1 Hit)
    as (st0 & Hsteps & Hshut).
  pose proof (loop_inv_steps listener st st0 Hinv Hsteps) as Hinv0.
  destruct (shutdown_state_fifo listener st0 st1 c q Hinv0 Hshut Hq Hnostop)
    as (Hfifo & Hin & Hne).
  destruct (drain_pass_sends_queue listener t c (inputs st1) q st1 Hne Hq
              Hsend) as (st2 & Hdrain & Hres).
  rewrite decide_True in Hres by exact Hin. destruct Hres as [Hsent _].
  destruct (drain_pass_total listener t (inputs st1) st1)
    as (st2' & Hdrain' & Hdr & Hcl).
  rewrite Hdrain in Hdrain'. injection Hdrain' as <-.
  exists st2. split.
  { rewrite (server_loop_draining listener t rest st st1 Hit).
    by rewrite drain_unfold, Hdrain. }
  split; [|by apply Hcl].
  by rewrite Hsent, (recvd_drained c st1 st2 Hdr), Hfifo.
Qed.

Lemma drain_completes_echo_witness :
  server 0 None 2 [connect_tick 0; data_tick 1 "a"; data_tick 1 "b";
                 connect_tick 0] = StillRunning two_clients /\
  iteration 0 (data_tick 2 stop_command) two_clients = (DRAINING, stopping) /\
  messages stopping !! 1 = Some ["a"; "b"]%string /\
  (stop_command ∉ recvd 1 (trace stopping)) /\
  exists st2,
    server_loop 0 [data_tick 2 stop_command] two_clients
      = Returned true st2 /\
    sent 1 (trace st2) = recvd 1 (trace st2) /\
    recvd 1 (trace stopping) = ["a"; "b"]%string.
Proof.
  assert (Hrun : server 0 None 2 [connect_tick 0; data_tick 1 "a";
                                data_tick 1 "b"; connect_tick 0]
                 = StillRunning two_clients) by (vm_compute; reflexivity).
  assert (Hit : iteration 0 (data_tick 2 stop_command) two_clients
                = (DRAINING, stopping)) by (vm_compute; reflexivity).
  assert (Hq : messages stopping !! 1 = Some ["a"; "b"]%string)
    by (vm_compute; reflexivity).
  assert (Hr : recvd 1 (trace stopping) = ["a"; "b"]%string)
    by (vm_compute; reflexivity).
  assert (Hnostop : stop_command ∉ recvd 1 (trace stopping)).
  { rewrite Hr. apply (bool_decide_unpack _). vm_compute. exact I. }
  split; [exact Hrun|]. split; [exact Hit|]. split; [exact Hq|].
  split; [exact Hnostop|].
  destruct (drain_completes_echo 0 2 _ (data_tick 2 stop_command) []
              two_clients stopping 1 ["a"; "b"]%string Hrun Hit Hq Hnostop
              (fun _ _ => eq_refl)) as (st2 & Hret & Hecho & _).
  exists st2. split; [exact Hret|]. split; [exact Hecho|exact Hr].
Defined.

(** * Properties of [close_on_exec] and [main] *)

(** X13: on a posix system [close_on_exec] on an open descriptor sets
    every bit of [FD_CLOEXEC] in that descriptor's flags and keeps every other
    bit as it was, touches no other descriptor, and doing it twice is the
    same as doing it once; on a descriptor that is not open it fails (the
    [IOError] of [fcntl]) and changes nothing. *)
Theorem close_on_exec_sets_only_cloexec (fd_cloexec : Z) (fd : nat)
  (fds : gmap nat Z) (flags : Z) :
  fds !! fd = Some flags ->
  exists fds' flags',
    close_on_exec fd_cloexec true fd fds = Some fds' /\
    fds' !! fd = Some flags' /\
    (forall n, Z.testbit flags' n
               = Z.testbit flags n || Z.testbit fd_cloexec n) /\
    (forall fd', fd' <> fd -> fds' !! fd' = fds !! fd') /\
    close_on_exec fd_cloexec true fd fds' = Some fds' /\
    (forall fd', fds !! fd' = None ->
                 close_on_exec fd_cloexec true fd' fds = None).
Proof.
  intros Hfd. exists (<[fd := Z.lor flags fd_cloexec]> fds),
    (Z.lor flags fd_cloexec).
  unfold close_on_exec. rewrite Hfd. split; [reflexivity|].
  split; [apply lookup_insert_eq|]. split; [intros n; apply Z.lor_spec|].
  split; [intros fd' Hne; by apply lookup_insert_ne|]. split.
  - rewrite lookup_insert_eq, insert_insert_eq.
    by rewrite <- Z.lor_assoc, Z.lor_diag.
  - intros fd' Hnone. by rewrite Hnone.
Qed.

Lemma close_on_exec_sets_only_cloexec_witness :
  ({[3 := 6%Z]} : gmap nat Z) !! 3 = Some 6%Z /\
  exists fds' flags',
    close_on_exec 1 true 3 {[3 := 6%Z]} = Some fds' /\
    fds' !! 3 = Some flags' /\
    Z.testbit flags' 0 = true /\
    Z.testbit flags' 1 = true /\
    Z.testbit flags' 3 = false.
Proof.
  assert (Hfd : ({[3 := 6%Z]} : gmap nat Z) !! 3 = Some 6%Z)
    by (vm_compute; reflexivity).
  split; [exact Hfd|].
  destruct (close_on_exec_sets_only_cloexec 1 3 {[3 := 6%Z]} 6%Z Hfd)
    as (fds' & flags' & Hrun & Hflags & Hbits & _).
  exists fds', flags'. split; [exact Hrun|]. split; [exact Hflags|].
  rewrite !Hbits. repeat split; reflexivity.
Defined.



(** ** The rounds of [main] *)

Ltac mv_solve :=
  repeat match goal with
         | H : _ ∈ _ ++ _ |- _ => apply elem_of_app in H as [H|H]
         | H : _ ∈ _ :: _ |- _ => apply elem_of_cons in H as [H|H]
         | H : _ ∈ [] |- _ => by apply elem_of_nil in H
         end;
  simplify_eq/=;
  rewrite ?elem_of_app, ?elem_of_cons; eauto 8.

Lemma try_candidate_result (host : string) (nodelay : bool) (a : Attempt)
  (ai : AddrInfo) (next : nat) (tr : list MainEvent) :
  closed_except None next tr ->
  match try_candidate host nodelay a ai next tr with
  | (Failed, next', tr') =>
      closed_except None next' tr' /\ next <= next' <= S next /\
      attempt_fails host nodelay a ai = true
  | (Bound s family, next', tr') =>
      s = next /\ family = ai_family ai /\ next' = S next /\
      closed_except (Some s) next' tr' /\
      MvBind s (ai_host ai) (ai_port ai) ∈ tr' /\ (MvClose s ∉ tr') /\
      attempt_binds host nodelay a ai = true /\
      attempt_fails host nodelay a ai = false
  | (Uncaught, next', tr') =>
      next' = S next /\ closed_except (Some next) next' tr' /\
      (exists f, MvSocket next f ∈ tr') /\ (MvClose next ∉ tr') /\
      try_v6only a = V6AttributeError /\ ai_family ai = AF_INET6 /\
      is_v6_any host = true /\
      attempt_binds host nodelay a ai = false /\
      attempt_fails host nodelay a ai = false
  end.
Proof.
  intros [Hcl Hid].
  assert (Hfresh : forall ev, ev ∈ tr -> mv_sock ev <> next).
  { intros ev Hev%Hid. lia. }
  assert (Hnc : MvClose next ∉ tr).
  { intros Hin. by apply (Hfresh _ Hin). }
  unfold attempt_fails, attempt_binds, try_candidate.
  destruct (try_socket a); [repeat split; try done; lia|].
  destruct (try_reuseaddr a).
  { split; [|split; [lia|reflexivity]]. split.
    - intros s f Hin. right. mv_solve. destruct (Hcl s f Hin); mv_solve.
    - intros ev Hin. mv_solve. apply Hid in Hin. lia. }
  destruct nodelay; [destruct (try_nodelay a)|].
  - split; [|split; [lia|reflexivity]]. split.
    + intros s f Hin. right. mv_solve. destruct (Hcl s f Hin); mv_solve.
    + intros ev Hin. mv_solve. apply Hid in Hin. lia.
  - destruct (bool_decide (ai_family ai = AF_INET6)) eqn:Hfam;
      destruct (is_v6_any host) eqn:Hany; simpl;
      [destruct (try_v6only a) eqn:Hv6|..];
      try destruct (try_bind a);
      repeat split;
      try (apply bool_decide_eq_true in Hfam);
      try done; try lia;
      try (intros s f Hin; mv_solve; destruct (Hcl s f Hin); mv_solve);
      try (intros ev Hin; mv_solve; apply Hid in Hin; lia);
      try (intros Hin; mv_solve; by apply Hnc);
      try (eexists; rewrite ?elem_of_app, ?elem_of_cons; by eauto 10);
      mv_solve.
  - destruct (bool_decide (ai_family ai = AF_INET6)) eqn:Hfam;
      destruct (is_v6_any host) eqn:Hany; simpl;
      [destruct (try_v6only a) eqn:Hv6|..];
      try destruct (try_bind a);
      repeat split;
      try (apply bool_decide_eq_true in Hfam);
      try done; try lia;
      try (intros s f Hin; mv_solve; destruct (Hcl s f Hin); mv_solve);
      try (intros ev Hin; mv_solve; apply Hid in Hin; lia);
      try (intros Hin; mv_solve; by apply Hnc);
      try (eexists; rewrite ?elem_of_app, ?elem_of_cons; by eauto 10);
      mv_solve.
Qed.

Lemma closed_except_nil : closed_except None 0 [].
Proof. split; [intros s f H|intros ev H]; by apply elem_of_nil in H. Qed.

Lemma try_candidate_fails (host : string) (nodelay : bool) (a : Attempt)
  (ai : AddrInfo) (next : nat) (tr : list MainEvent) :
  closed_except None next tr ->
  attempt_fails host nodelay a ai = true ->
  exists next' tr',
    try_candidate host nodelay a ai next tr = (Failed, next', tr') /\
    closed_except None next' tr' /\
    (forall s, MvServer s ∈ tr' -> MvServer s ∈ tr).
Proof.
  intros Hcl Hfails.
  pose proof (try_candidate_result host nodelay a ai next tr Hcl) as Hres.
  assert (Hserver : forall s,
            MvServer s ∈ (try_candidate host nodelay a ai next tr).2 ->
            MvServer s ∈ tr).
  { intros s. unfold try_candidate.
    repeat (case_match; simplify_eq/=; try done);
      intros Hin; mv_solve. }
  destruct (try_candidate host nodelay a ai next tr)
    as [[[s family| |] next'] tr'].
  - destruct Hres as (_ & _ & _ & _ & _ & _ & _ & Hf). congruence.
  - exists next', tr'. split; [reflexivity|]. split; [apply Hres|exact Hserver].
  - destruct Hres as (_ & _ & _ & _ & _ & _ & _ & _ & Hf). congruence.
Qed.

(** The rounds for candidates that all fail, then the rest of the list. *)
Lemma bind_first_skips_failures (host : string) (nodelay : bool)
  (attempts : nat -> Attempt) (pre : list AddrInfo) :
  forall (i next : nat) (tr : list MainEvent),
    closed_except None next tr ->
    (forall j aj, pre !! j = Some aj ->
                  attempt_fails host nodelay (attempts (i + j)) aj = true) ->
    exists next' tr',
      closed_except None next' tr' /\
      (forall s, MvServer s ∈ tr' -> MvServer s ∈ tr) /\
      forall rest,
        bind_first host nodelay attempts i (pre ++ rest) next tr =
        bind_first host nodelay attempts (i + length pre) rest next' tr'.
Proof.
  induction pre as [|ai pre IH]; intros i next tr Hcl Hfail.
  - exists next, tr. split; [exact Hcl|]. split; [done|].
    intros rest. simpl. by rewrite Nat.add_0_r.
  - destruct (try_candidate_fails host nodelay (attempts i) ai next tr Hcl)
      as (next1 & tr1 & Htry & Hcl1 & Hsrv1).
    { rewrite <- (Nat.add_0_r i). by apply (Hfail 0 ai). }
    destruct (IH (S i) next1 tr1 Hcl1) as (next' & tr' & Hcl' & Hsrv' & Hrest).
    { intros j aj Hj. replace (S i + j) with (i + S j) by lia.
      by apply (Hfail (S j) aj). }
    exists next', tr'. split; [exact Hcl'|]. split; [auto|].
    intros rest. simpl. rewrite Htry, Hrest.
    by replace (S i + length pre) with (i + S (length pre)) by lia.
Qed.

Lemma bind_first_result (host : string) (nodelay : bool)
  (attempts : nat -> Attempt) (cands : list AddrInfo) :
  forall (i next : nat) (tr : list MainEvent),
    closed_except None next tr ->
    match bind_first host nodelay attempts i cands next tr with
    | (Failed, next', tr') => closed_except None next' tr'
    | (Bound s family, next', tr') =>
        closed_except (Some s) next' tr' /\ (MvClose s ∉ tr') /\
        exists h p, MvBind s h p ∈ tr'
    | (Uncaught, next', tr') => exists s, main_open tr' s
    end.
Proof.
  induction cands as [|ai cands IH]; intros i next tr Hcl; [exact Hcl|].
  simpl.
  pose proof (try_candidate_result host nodelay (attempts i) ai next tr Hcl)
    as Hres.
  destruct (try_candidate host nodelay (attempts i) ai next tr)
    as [[[s family| |] next1] tr1].
  - destruct Hres as (_ & _ & _ & Hcl1 & Hbind & Hopen & _).
    split; [exact Hcl1|]. split; [exact Hopen|]. by eexists _, _.
  - apply IH. apply Hres.
  - destruct Hres as (_ & _ & Hsock & Hopen & _). exists next. by split.
Qed.

(** X15: whenever [main] returns, with [True] or with [False], every
    socket it created has been closed by it: the sockets of the candidates
    that failed in the [except] clause (lines 183-184), the listening socket
    by [closing] (line 201). *)
Theorem main_closes_its_sockets (host : string) (port : Z) (nodelay : bool)
  (gai : option (list AddrInfo)) (attempts : nat -> Attempt)
  (listen_err : option Z) (script : list Tick) (result : bool)
  (tr : list MainEvent) :
  main host port nodelay gai attempts listen_err script
    = MainReturned result tr ->
  forall s f, MvSocket s f ∈ tr -> MvClose s ∈ tr.
Proof.
  unfold main.
  pose proof (bind_first_result host nodelay attempts
                (sock_info host port gai) 0 0 [] closed_except_nil) as Hres.
  destruct (bind_first host nodelay attempts 0 (sock_info host port gai) 0 [])
    as [[[l family| |] next] tr0].
  - destruct Hres as ([Hcl _] & _).
    destruct (server l listen_err (sockaddr_len family) script);
      try discriminate.
    intros [= _ <-] s f Hin.
    apply elem_of_app in Hin as [Hin|Hin].
    + destruct (Hcl s f Hin) as [[= ->]|Hc].
      * apply elem_of_app. right. right. left.
      * apply elem_of_app. by left.
    + repeat (apply elem_of_cons in Hin as [Hin|Hin]; [discriminate|]).
      by apply elem_of_nil in Hin.
  - intros [= _ <-] s f Hin. destruct Hres as [Hcl _].
    by destruct (Hcl s f Hin).
  - discriminate.
Qed.

Lemma main_closes_its_sockets_witness :
  main "localhost" 8080 true (Some two_candidates) second_binds None
       main_script = MainReturned true main_trace /\
  MvSocket 0 AF_INET6 ∈ main_trace /\ MvClose 0 ∈ main_trace /\
  MvSocket 1 AF_INET ∈ main_trace /\ MvClose 1 ∈ main_trace.
Proof.
  assert (Hrun : main "localhost" 8080 true (Some two_candidates) second_binds
                      None main_script = MainReturned true main_trace)
    by (vm_compute; reflexivity).
  assert (H0 : MvSocket 0 AF_INET6 ∈ main_trace) by left.
  assert (H1 : MvSocket 1 AF_INET ∈ main_trace).
  { apply (bool_decide_unpack _). vm_compute. exact I. }
  pose proof (main_closes_its_sockets "localhost" 8080 true
    (Some two_candidates) second_binds None main_script true main_trace Hrun)
    as Hcl.
  split; [exact Hrun|]. split; [exact H0|]. split; [exact (Hcl 0 AF_INET6 H0)|].
  split; [exact H1|exact (Hcl 1 AF_INET H1)].
Defined.

Lemma try_candidate_binds (host : string) (nodelay : bool) (a : Attempt)
  (ai : AddrInfo) (next : nat) (tr : list MainEvent) :
  closed_except None next tr ->
  attempt_binds host nodelay a ai = true ->
  exists tr',
    try_candidate host nodelay a ai next tr
      = (Bound next (ai_family ai), S next, tr') /\
    MvBind next (ai_host ai) (ai_port ai) ∈ tr' /\
    (forall s, MvServer s ∈ tr' -> MvServer s ∈ tr).
Proof.
  intros Hcl Hbinds.
  pose proof (try_candidate_result host nodelay a ai next tr Hcl) as Hres.
  assert (Hserver : forall s,
            MvServer s ∈ (try_candidate host nodelay a ai next tr).2 ->
            MvServer s ∈ tr).
  { intros s. unfold try_candidate.
    repeat (case_match; simplify_eq/=; try done);
      intros Hin; mv_solve. }
  destruct (try_candidate host nodelay a ai next tr)
    as [[[s family| |] next'] tr'].
  - destruct Hres as (-> & -> & -> & _ & Hbind & _). by exists tr'.
  - destruct Hres as (_ & _ & Hf). unfold attempt_fails, attempt_binds in *.
    destruct (try_candidate host nodelay a ai 0 []) as [[[]]]; discriminate.
  - destruct Hres as (_ & _ & _ & _ & _ & _ & _ & Hb & _). congruence.
Qed.

(** The result of a round, read off the calls made in it. *)
Lemma attempt_binds_spec (host : string) (nodelay : bool) (a : Attempt)
  (ai : AddrInfo) :
  attempt_binds host nodelay a ai = true <-> candidate_binds host nodelay a ai.
Proof.
  unfold attempt_binds, candidate_binds, try_candidate.
  destruct (try_socket a), (try_reuseaddr a), nodelay, (try_nodelay a),
    (bool_decide (ai_family ai = AF_INET6)) eqn:Hfam,
    (is_v6_any host), (try_v6only a), (try_bind a); simpl;
    try (apply bool_decide_eq_true in Hfam);
    try (apply bool_decide_eq_false in Hfam);
    (split;
     [intros Heq; try discriminate Heq; repeat split; intros; done
     |intros (H1 & H2 & H3 & H4 & H5);
      try discriminate H1; try discriminate H2; try discriminate H5;
      try (specialize (H3 eq_refl); discriminate H3);
      try (specialize (H4 Hfam eq_refl); discriminate H4);
      reflexivity]).
Qed.

Lemma attempt_fails_spec (host : string) (nodelay : bool) (a : Attempt)
  (ai : AddrInfo) :
  attempt_fails host nodelay a ai = true <-> candidate_fails host nodelay a ai.
Proof.
  split.
  - unfold attempt_fails, try_candidate.
    destruct (try_socket a) as [e1|] eqn:H1;
      [intros _; by apply (fails_socket _ _ _ _ e1)|].
    destruct (try_reuseaddr a) as [e2|] eqn:H2;
      [intros _; by apply (fails_reuseaddr _ _ _ _ e2)|].
    assert (Hnd : (nodelay = true /\ exists e, try_nodelay a = Some e) \/
                  (nodelay = true -> try_nodelay a = None)).
    { destruct nodelay; [|by right].
      destruct (try_nodelay a) as [e|]; [left; by eauto|by right]. }
    destruct Hnd as [[-> [e3 H3]]|H3].
    { intros _. by apply (fails_nodelay _ _ _ _ e3). }
    assert (Hv6 : (ai_family ai = AF_INET6 /\ is_v6_any host = true) \/
                  (bool_decide (ai_family ai = AF_INET6) && is_v6_any host
                   = false)).
    { case_bool_decide; [|by right].
      destruct (is_v6_any host); [by left|by right]. }
    destruct Hv6 as [[Hfam Hany]|Hv6].
    + rewrite Hany, bool_decide_eq_true_2 by exact Hfam.
      destruct nodelay; [rewrite (H3 eq_refl)|]; simpl;
        destruct (try_v6only a) as [|e4|] eqn:H4; try discriminate;
        try (intros _; by apply (fails_v6only _ _ _ _ e4));
        (destruct (try_bind a) as [e5|] eqn:H5; [|discriminate]);
        intros _; apply (fails_bind _ _ _ _ e5); done.
    + rewrite Hv6.
      assert (Hno : ai_family ai = AF_INET6 -> is_v6_any host = true ->
                    try_v6only a = V6Ok).
      { intros Hfam Hany.
        rewrite Hany, bool_decide_eq_true_2 in Hv6 by exact Hfam.
        discriminate. }
      destruct nodelay; [rewrite (H3 eq_refl)|]; simpl;
        (destruct (try_bind a) as [e5|] eqn:H5; [|discriminate]);
        intros _; apply (fails_bind _ _ _ _ e5); done.
  - unfold attempt_fails, try_candidate.
    intros [e H1|e H1 H2|e H1 H2 H3 H4|e H1 H2 H3 H4 H5 H6|e H1 H2 H3 H4 H5].
    + by rewrite H1.
    + by rewrite H1, H2.
    + by rewrite H1, H2, H3, H4.
    + rewrite H1, H2, H5, bool_decide_eq_true_2 by exact H4.
      destruct nodelay; [rewrite (H3 eq_refl)|]; simpl; by rewrite H6.
    + rewrite H1, H2.
      destruct nodelay; [rewrite (H3 eq_refl)|]; simpl;
        (case_bool_decide as Hfam; simpl;
         [destruct (is_v6_any host) eqn:Hany;
          [rewrite (H4 Hfam eq_refl)|]|]); by rewrite H5.
Qed.

(** X16: [main] listens on the first candidate of [sock_info] for which
    socket creation, the options and [bind] all return: the candidates
    before it, for each of which one of these calls raised [socket.error],
    are skipped, the ones after it are never tried (line 187 breaks out of
    the loop), and [main] ends as [server] does on that socket: it returns
    what [server] returns, after closing the socket.  On an [AF_INET]
    candidate that is the result of the loop, or [False] when [listen]
    fails.  On an [AF_INET6] candidate on which [listen] returns, line 38
    unpacks the four-part address of the socket into two names: the
    [ValueError] leaves [server] before the first poll and leaves [main],
    which closes the socket on the way out. *)
Theorem main_uses_first_bindable (host : string) (port : Z) (nodelay : bool)
  (gai : option (list AddrInfo)) (attempts : nat -> Attempt)
  (listen_err : option Z) (script : list Tick)
  (pre post : list AddrInfo) (ai : AddrInfo) :
  sock_info host port gai = pre ++ ai :: post ->
  (forall j aj, pre !! j = Some aj ->
                candidate_fails host nodelay (attempts j) aj) ->
  candidate_binds host nodelay (attempts (length pre)) ai ->
  exists s tr,
    (forall post',
       bind_first host nodelay attempts 0 (pre ++ ai :: post') 0 []
         = (Bound s (ai_family ai), S s, tr)) /\
    MvBind s (ai_host ai) (ai_port ai) ∈ tr /\
    (forall s', MvServer s' ∉ tr) /\
    main host port nodelay gai attempts listen_err script =
      match server s listen_err (sockaddr_len (ai_family ai)) script with
      | Returned result _ =>
          MainReturned result (tr ++ [MvServer s; MvClose s])
      | Escaped _ _ => MainEscaped (tr ++ [MvServer s; MvClose s])
      | StillRunning _ => MainRunning (tr ++ [MvServer s])
      end /\
    (ai_family ai = AF_INET ->
     forall result st,
       server_loop s script (initial s) = Returned result st ->
       listen_err = None ->
       main host port nodelay gai attempts listen_err script
         = MainReturned result (tr ++ [MvServer s; MvClose s])) /\
    (forall errno,
       listen_err = Some errno ->
       main host port nodelay gai attempts listen_err script
         = MainReturned false (tr ++ [MvServer s; MvClose s])) /\
    (ai_family ai = AF_INET6 ->
     listen_err = None ->
     main host port nodelay gai attempts listen_err script
       = MainEscaped (tr ++ [MvServer s; MvClose s])).
Proof.
  intros Hinfo Hfail Hbinds.
  assert (Hfail' : forall j aj, pre !! j = Some aj ->
            attempt_fails host nodelay (attempts (0 + j)) aj = true).
  { intros j aj Hj. apply attempt_fails_spec. by apply Hfail. }
  apply attempt_binds_spec in Hbinds.
  destruct (bind_first_skips_failures host nodelay attempts pre 0 0 []
              closed_except_nil Hfail') as (next & tr0 & Hcl & Hsrv & Hskip).
  destruct (try_candidate_binds host nodelay (attempts (length pre)) ai next
              tr0 Hcl Hbinds) as (tr & Htry & Hbind & Hsrv').
  assert (Hall : forall post',
            bind_first host nodelay attempts 0 (pre ++ ai :: post') 0 []
            = (Bound next (ai_family ai), S next, tr)).
  { intros post'. rewrite Hskip. simpl. by rewrite Htry. }
  assert (Hmain : main host port nodelay gai attempts listen_err script =
            match server next listen_err (sockaddr_len (ai_family ai)) script
            with
            | Returned result _ =>
                MainReturned result (tr ++ [MvServer next; MvClose next])
            | Escaped _ _ => MainEscaped (tr ++ [MvServer next; MvClose next])
            | StillRunning _ => MainRunning (tr ++ [MvServer next])
            end).
  { unfold main. by rewrite Hinfo, Hall. }
  exists next, tr. split; [exact Hall|]. split; [exact Hbind|]. split.
  { intros s' Hin%Hsrv'%Hsrv. by apply elem_of_nil in Hin. }
  split; [exact Hmain|]. split; [|split].
  - intros Hfam result st Hloop ->. rewrite Hmain, Hfam. simpl.
    by rewrite Hloop.
  - intros errno ->. by rewrite Hmain.
  - intros Hfam ->. rewrite Hmain, Hfam. reflexivity.
Qed.

Lemma main_uses_first_bindable_witness :
  sock_info "localhost" 8080 (Some two_candidates)
    = [mkAddrInfo AF_INET6 "::1" 8080]
      ++ mkAddrInfo AF_INET "127.0.0.1" 8080 :: [] /\
  candidate_fails "localhost" true (second_binds 0)
                  (mkAddrInfo AF_INET6 "::1" 8080) /\
  candidate_binds "localhost" true (second_binds 1)
                  (mkAddrInfo AF_INET "127.0.0.1" 8080) /\
  (exists s tr,
     MvBind s "127.0.0.1" 8080 ∈ tr /\
     main "localhost" 8080 true (Some two_candidates) second_binds None
          main_script = MainReturned true (tr ++ [MvServer s; MvClose s])) /\
  sock_info "::1" 8080 None = [] ++ mkAddrInfo AF_INET6 "::1" 8080 :: [] /\
  candidate_binds "::1" true all_ok (mkAddrInfo AF_INET6 "::1" 8080) /\
  exists s tr,
    MvBind s "::1" 8080 ∈ tr /\
    main "::1" 8080 true None (fun _ => all_ok) None main_script
      = MainEscaped (tr ++ [MvServer s; MvClose s]).
Proof.
  assert (Hf : candidate_fails "localhost" true (second_binds 0)
                 (mkAddrInfo AF_INET6 "::1" 8080)).
  { apply (fails_bind _ _ _ _ 98%Z); reflexivity. }
  assert (Hb : candidate_binds "localhost" true (second_binds 1)
                 (mkAddrInfo AF_INET "127.0.0.1" 8080)).
  { split; [reflexivity|]. split; [reflexivity|]. split; [by intros _|].
    split; [by intros _ _|reflexivity]. }
  assert (Hb6 : candidate_binds "::1" true all_ok
                  (mkAddrInfo AF_INET6 "::1" 8080)).
  { split; [reflexivity|]. split; [reflexivity|]. split; [by intros _|].
    split; [by intros _ _|reflexivity]. }
  split; [reflexivity|]. split; [exact Hf|]. split; [exact Hb|]. split.
  - destruct (main_uses_first_bindable "localhost" 8080 true
                (Some two_candidates) second_binds None main_script
                [mkAddrInfo AF_INET6 "::1" 8080] []
                (mkAddrInfo AF_INET "127.0.0.1" 8080) eq_refl)
      as (s & tr & Hall & Hbind & _ & _ & Hmain & _).
    + intros j aj Hj. destruct j as [|j]; [|discriminate].
      injection Hj as <-. exact Hf.
    + exact Hb.
    + exists s, tr. split; [exact Hbind|].
      specialize (Hall []). simpl in Hall. injection Hall as <- _.
      apply (Hmain eq_refl true
               (outcome_state (server 1 None 2 main_script)));
        [vm_compute; reflexivity|reflexivity].
  - split; [reflexivity|]. split; [exact Hb6|].
    destruct (main_uses_first_bindable "::1" 8080 true None (fun _ => all_ok)
                None main_script [] [] (mkAddrInfo AF_INET6 "::1" 8080)
                eq_refl)
      as (s & tr & _ & Hbind & _ & _ & _ & _ & Hesc).
    + intros j aj Hj. destruct j; discriminate.
    + exact Hb6.
    + exists s, tr. split; [exact Hbind|]. by apply Hesc.
Defined.

(** X17: when every candidate fails with [socket.error] (or there is no
    candidate at all), [main] returns [False] without ever calling
    [server] (lines 189-191). *)
Theorem main_without_socket_returns_false (host : string) (port : Z)
  (nodelay : bool) (gai : option (list AddrInfo))
  (attempts : nat -> Attempt) (listen_err : option Z) (script : list Tick) :
  (forall j aj, sock_info host port gai !! j = Some aj ->
                attempt_fails host nodelay (attempts j) aj = true) ->
  exists tr,
    main host port nodelay gai attempts listen_err script
      = MainReturned false tr /\
    (forall s, MvServer s ∉ tr) /\
    (forall s f, MvSocket s f ∈ tr -> MvClose s ∈ tr).
Proof.
  intros Hfail.
  destruct (bind_first_skips_failures host nodelay attempts
              (sock_info host port gai) 0 0 [] closed_except_nil Hfail)
    as (next & tr & [Hcl _] & Hsrv & Hskip).
  specialize (Hskip []). rewrite app_nil_r in Hskip. simpl in Hskip.
  exists tr. unfold main. rewrite Hskip. split; [reflexivity|]. split.
  - intros s Hin%Hsrv. by apply elem_of_nil in Hin.
  - intros s f Hin. by destruct (Hcl s f Hin).
Qed.

Lemma main_without_socket_returns_false_witness :
  (forall j aj,
     sock_info "localhost" 8080 (Some two_candidates) !! j = Some aj ->
     attempt_fails "localhost" true bind_in_use aj = true) /\
  exists tr,
    main "localhost" 8080 true (Some two_candidates) (fun _ => bind_in_use)
         None main_script = MainReturned false tr /\
    (forall s, MvServer s ∉ tr).
Proof.
  assert (Hfail : forall j aj,
            sock_info "localhost" 8080 (Some two_candidates) !! j = Some aj ->
            attempt_fails "localhost" true bind_in_use aj = true).
  { intros j aj Hj. destruct j as [|[|j]]; simpl in Hj; try discriminate;
      injection Hj as <-; reflexivity. }
  split; [exact Hfail|].
  destruct (main_without_socket_returns_false "localhost" 8080 true
              (Some two_candidates) (fun _ => bind_in_use) None main_script
              Hfail) as (tr & Hrun & Hsrv & _).
  exists tr. split; [exact Hrun|exact Hsrv].
Defined.

(** X18: an [AttributeError] from setting [IPV6_V6ONLY] (an [AF_INET6]
    candidate whose turn comes with host ['::'], ['::0'] or ['::0.0.0.0'],
    lines 166-173) is re-raised and is not a [socket.error]: it leaves
    [main], which neither returns nor calls [server] nor closes the socket
    it had just created. *)
Theorem v6only_attribute_error_escapes (host : string) (port : Z)
  (nodelay : bool) (gai : option (list AddrInfo))
  (attempts : nat -> Attempt) (listen_err : option Z) (script : list Tick)
  (pre post : list AddrInfo) (ai : AddrInfo) :
  sock_info host port gai = pre ++ ai :: post ->
  (forall j aj, pre !! j = Some aj ->
                attempt_fails host nodelay (attempts j) aj = true) ->
  ai_family ai = AF_INET6 ->
  is_v6_any host = true ->
  try_socket (attempts (length pre)) = None ->
  try_reuseaddr (attempts (length pre)) = None ->
  (nodelay = true -> try_nodelay (attempts (length pre)) = None) ->
  try_v6only (attempts (length pre)) = V6AttributeError ->
  exists tr s,
    main host port nodelay gai attempts listen_err script = MainEscaped tr /\
    main_open tr s /\
    (forall s', MvServer s' ∉ tr) /\
    (forall h p, MvBind s h p ∉ tr).
Proof.
  intros Hinfo Hfail Hfam Hany Hsock Hreuse Hnodelay Hv6.
  destruct (bind_first_skips_failures host nodelay attempts pre 0 0 []
              closed_except_nil Hfail) as (next & tr0 & Hcl & Hsrv & Hskip).
  pose proof (try_candidate_result host nodelay (attempts (length pre)) ai
                next tr0 Hcl) as Hres.
  assert (Hfresh : forall ev, ev ∈ tr0 -> mv_sock ev <> next).
  { intros ev Hev. destruct Hcl as [_ Hid]. apply Hid in Hev. lia. }
  assert (Htry : exists tr,
            try_candidate host nodelay (attempts (length pre)) ai next tr0
              = (Uncaught, S next, tr) /\
            (forall s', MvServer s' ∈ tr -> MvServer s' ∈ tr0) /\
            (forall h p, MvBind next h p ∉ tr)).
  { unfold try_candidate. rewrite Hsock, Hreuse, Hfam, Hany, Hv6.
    rewrite bool_decide_eq_true_2 by reflexivity. simpl.
    destruct nodelay; [rewrite (Hnodelay eq_refl)|]; simpl;
      (eexists; split; [reflexivity|]; split;
       [intros s' Hin; mv_solve
       |intros h p Hin; mv_solve; by apply (Hfresh _ Hin)]). }
  destruct Htry as (tr & Htry & Hsrv' & Hnobind).
  rewrite Htry in Hres. destruct Hres as (_ & _ & Hsockev & Hopen & _).
  exists tr, next. unfold main. rewrite Hinfo, Hskip. simpl. rewrite Htry.
  split; [reflexivity|]. split; [by split|]. split; [|exact Hnobind].
  intros s' Hin%Hsrv'%Hsrv. by apply elem_of_nil in Hin.
Qed.

Lemma v6only_attribute_error_escapes_witness :
  sock_info "::" 8080 (Some [mkAddrInfo AF_INET6 "::" 8080])
    = [] ++ mkAddrInfo AF_INET6 "::" 8080 :: [] /\
  is_v6_any "::" = true /\
  exists tr,
    main "::" 8080 true (Some [mkAddrInfo AF_INET6 "::" 8080])
         (fun _ => mkAttempt None None None V6AttributeError None)
         None main_script = MainEscaped tr /\
    main_open tr 0.
Proof.
  split; [reflexivity|]. split; [reflexivity|].
  destruct (v6only_attribute_error_escapes "::" 8080 true
              (Some [mkAddrInfo AF_INET6 "::" 8080])
              (fun _ => mkAttempt None None None V6AttributeError None)
              None main_script [] [] (mkAddrInfo AF_INET6 "::" 8080) eq_refl)
    as (tr & s & Hrun & Hopen & _); try reflexivity.
  - intros j aj Hj. destruct j; discriminate.
  - exists tr. split; [exact Hrun|].
    assert (Hs : s = 0); [|by rewrite <- Hs].
    destruct Hopen as [[f Hsock] _].
    assert (Htr : MainEscaped tr
                  = MainEscaped [MvSocket 0 AF_INET6; MvCloseOnExec 0;
                                 MvReuseAddr 0; MvNoDelay 0; MvV6Only 0]).
    { rewrite <- Hrun. vm_compute. reflexivity. }
    injection Htr as ->.
    repeat (apply elem_of_cons in Hsock as [Hsock|Hsock];
            [try discriminate; by injection Hsock|]).
    by apply elem_of_nil in Hsock.
Defined.

(** * Further invariants of the running loop *)

(** X19: in every state in which the loop is still running, a registered
    connection is an open socket of [inputs] other than the listener, and as
    long as chunks are queued for it, it is in [outputs], so the next poll
    watches it for writability (lines 75-77 put it there, lines 93-94 take it
    out only on an empty queue). *)
Theorem queued_connection_is_watched (listener : nat)
  (sockname_len : nat) (script : list Tick)
  (st : State) (c : nat) (q : list string) :
  server listener None sockname_len script = StillRunning st ->
  messages st !! c = Some q ->
  (q <> [] -> c ∈ outputs st) /\
  c ∈ inputs st /\
  c <> listener /\
  (EvClose c ∉ trace st) /\
  (exists l, EvAccept l c ∈ trace st).
Proof.
  intros Hrun Hq.
  assert (Hacc : forall st0, rtc (loop_step listener) (initial listener) st0 ->
            forall c0, is_Some (messages st0 !! c0) ->
                       exists l, EvAccept l c0 ∈ trace st0).
  { intros st0 Hsteps. apply rtc_nsteps in Hsteps as [n Hsteps].
    revert st0 Hsteps. induction n as [|n IH]; intros st0 Hsteps c0 Hc0.
    - inversion Hsteps; subst.
      simpl in Hc0. rewrite lookup_empty in Hc0. by destruct Hc0.
    - apply nsteps_inv_r in Hsteps as (st1 & Hsteps & Hstep).
      specialize (IH st1 Hsteps).
      assert (Hold : forall tl,
                is_Some (messages st1 !! c0) ->
                exists l, EvAccept l c0 ∈ trace st1 ++ tl).
      { intros tl (l & Hl)%IH. exists l. apply elem_of_app. by left. }
      destruct Hstep; simpl in *.
      + by apply Hold.
      + apply lookup_insert_is_Some in Hc0 as [<-|[_ Hc0]]; [|by apply Hold].
        exists listener. apply elem_of_app. right. left.
      + apply lookup_insert_is_Some in Hc0 as [<-|[_ Hc0]];
          apply Hold; [by eexists|done].
      + apply lookup_delete_is_Some in Hc0 as [_ Hc0]. by apply Hold.
      + by apply IH.
      + apply lookup_insert_is_Some in Hc0 as [<-|[_ Hc0]];
          apply Hold; [by eexists|done]. }
  destruct (loop_inv_running listener sockname_len script st Hrun)
    as [Hreg Hecho].
  assert (Hsome : is_Some (messages st !! c)) by (by eexists).
  split; [by apply (inv_pending st Hecho c q)|].
  split; [by apply (inv_keys listener st Hreg c)|].
  split; [by apply (inv_keys listener st Hreg c)|].
  split; [by apply (inv_open st Hecho c)|].
  apply (Hacc st); [|exact Hsome].
  apply server_running in Hrun as (_ & _ & Hrun).
  by apply (server_loop_running_steps listener script).
Qed.

Lemma queued_connection_is_watched_witness :
  server 0 None 2 [connect_tick 0; data_tick 1 "a"] = StillRunning one_queued /\
  messages one_queued !! 1 = Some ["a"%string] /\
  1 ∈ outputs one_queued /\
  1 ∈ inputs one_queued.
Proof.
  assert (Hrun : server 0 None 2 [connect_tick 0; data_tick 1 "a"]
                 = StillRunning one_queued) by (vm_compute; reflexivity).
  assert (Hq : messages one_queued !! 1 = Some ["a"%string])
    by (vm_compute; reflexivity).
  destruct (queued_connection_is_watched 0 2 _ one_queued 1 ["a"%string]
              Hrun Hq) as (Hout & Hin & _).
  split; [exact Hrun|]. split; [exact Hq|]. split; [|exact Hin].
  apply Hout. intros Heq. inversion Heq.
Defined.

Lemma no_cross_talk_step (listener : nat) (st st' : State) :
  loop_inv listener st ->
  (forall c, sent c (trace st) `prefix_of` recvd c (trace st)) ->
  loop_step listener st st' ->
  forall c, sent c (trace st') `prefix_of` recvd c (trace st').
Proof.
  intros [Hreg Hecho] Hpre Hstep c. specialize (Hpre c).
  destruct Hstep as [st|st|st input data q Hne Hq Hdata Hstop Hopen
                    |st s ins outs pre Hne Hopen Hri Hro Hq Hpre'
                    |st output outs Hq Hro|st output m q' Hne Hopen Hq];
    simpl; rewrite ?recvd_app, ?sent_app; simpl; rewrite ?app_nil_r.
  - exact Hpre.
  - exact Hpre.
  - by apply prefix_app_r.
  - destruct Hpre' as [-> | ->]; simpl; rewrite ?app_nil_r; [exact Hpre|].
    destruct (decide (s = c)); simpl; rewrite ?app_nil_r; exact Hpre.
  - exact Hpre.
  - destruct (decide (output = c)) as [<-|Hoc]; [|by rewrite app_nil_r].
    rewrite (inv_fifo st Hecho output _ Hq).
    exists q'. by rewrite <- app_assoc.
Qed.

(** X20: no cross-talk.  In every state in which the loop is still
    running, and for every socket, registered or long closed, the messages
    [server] has passed to [send] on it are an initial part of the payloads it
    has received from that same socket, in the same order: nothing is ever
    sent to a connection that did not come from it. *)
Theorem no_cross_talk (listener : nat)
  (sockname_len : nat) (script : list Tick) (st : State)
  (c : nat) :
  server listener None sockname_len script = StillRunning st ->
  sent c (trace st) `prefix_of` recvd c (trace st).
Proof.
  intros (_ & _ & Hsteps%server_loop_running_steps)%server_running.
  assert (Hboth : loop_inv listener st /\
            forall c0, sent c0 (trace st) `prefix_of` recvd c0 (trace st));
    [|apply Hboth].
  apply rtc_nsteps in Hsteps as [n Hsteps]. revert st Hsteps.
  induction n as [|n IH]; intros st Hsteps.
  - inversion Hsteps; subst. split; [apply loop_inv_initial|].
    intros c0. by exists [].
  - apply nsteps_inv_r in Hsteps as (st1 & Hsteps & Hstep).
    destruct (IH st1 Hsteps) as [Hinv Hpre]. split.
    + by eapply loop_inv_step.
    + by eapply no_cross_talk_step.
Qed.

Lemma no_cross_talk_witness :
  server 0 None 2 [connect_tick 0; data_tick 1 "a"; writable_tick 1]
    = StillRunning one_echoed /\
  sent 1 (trace one_echoed) `prefix_of` recvd 1 (trace one_echoed) /\
  sent 1 (trace one_echoed) = ["a"%string].
Proof.
  assert (Hrun : server 0 None 2 [connect_tick 0; data_tick 1 "a";
                                writable_tick 1] = StillRunning one_echoed)
    by (vm_compute; reflexivity).
  split; [exact Hrun|].
  split; [exact (no_cross_talk 0 2 _ one_echoed 1 Hrun)|].
  vm_compute. reflexivity.
Defined.
